(** * rest-shape: a shallow embedding of [src/src/index.ts] (the shaping engine)

    The data handled by [shape] is a graph of JavaScript objects: an object may
    reference itself.  Values are therefore modelled with an explicit heap of
    objects addressed by locations, and every function of [index.ts] that
    reads or writes objects takes the heap as explicit state.

    Modelling conventions (all local to this file):
    - numbers are integers ([Z]); floats and NaN are not modelled;
    - property reads see own properties only: a key that names a member of
      [Object.prototype] ("toString", "constructor", ...) is outside the model;
    - object keys keep insertion order; integer-like keys of plain objects are
      not reordered the way JavaScript does;
    - an array holds its elements and, like any JS object, may carry extra
      named properties; holes are represented by [undefined] elements;
    - functions are not data values. *)

From Stdlib Require Import String Ascii List ZArith Bool Lia FunctionalExtensionality.
Import ListNotations.
Local Open Scope string_scope.
Local Open Scope list_scope.
Local Open Scope bool_scope.
Set Warnings "-register-all".


(** ** Values and the heap *)

Inductive val : Type :=
| VUndef
| VNull
| VBool (b : bool)
| VNum (z : Z)
| VStr (s : string)
| VRef (l : nat).

Inductive obj : Type :=
| OObj (props : list (string * val))
| OArr (items : list val) (props : list (string * val)).

(** The heap: [hstore l] is the object at location [l]; [hnext] is the first
    location not yet allocated. *)
Record heap : Type := mkHeap {
  hstore : nat -> obj;
  hnext : nat
}.

(** A heap holding the given objects at locations 0, 1, ... *)
Definition heap_of (os : list obj) : heap :=
  mkHeap (fun l => nth l os (OObj [])) (length os).

(** The [TypeError]s of the code: reading or writing a property of
    [null]/[undefined], (ES modules run in strict mode) creating a property
    on a primitive, and calling a method a value does not have ([push] on a
    value that is not an array). *)
Inductive exn : Type :=
| TypeErrorNull
| TypeErrorPrimitive
| TypeErrorNotFunction.

(** Outcome of a computation: a value, a thrown exception, or exhaustion of
    the recursion budget (the recursion of the source does not terminate). *)
Inductive res (A : Type) : Type :=
| Ok (a : A)
| Throw (e : exn)
| NoFuel.
Arguments Ok {A} a.
Arguments Throw {A} e.
Arguments NoFuel {A}.

(** ** Small string library: the pieces of [String.prototype] the code uses *)

Fixpoint assoc {A} (k : string) (ps : list (string * A)) : option A :=
  match ps with
  | [] => None
  | (k', v) :: ps' => if String.eqb k k' then Some v else assoc k ps'
  end.

(** Assignment [o[k] = v] on a property list: an existing key keeps its
    position, a new key is appended. *)
Fixpoint assoc_set {A} (k : string) (v : A) (ps : list (string * A))
  : list (string * A) :=
  match ps with
  | [] => [(k, v)]
  | (k', v') :: ps' =>
      if String.eqb k k' then (k', v) :: ps' else (k', v') :: assoc_set k v ps'
  end.

Fixpoint split_aux (sep : string) (fuel : nat) (s cur : string) : list string :=
  match fuel with
  | 0 => [cur]
  | S f =>
      match s with
      | EmptyString => [cur]
      | String c s' =>
          if String.prefix sep s
          then cur :: split_aux sep f
                         (substring (String.length sep)
                            (String.length s - String.length sep) s) ""
          else split_aux sep f s' (cur ++ String c EmptyString)
      end
  end.

(** [s.split(sep)] for a non-empty separator. *)
Definition js_split (sep s : string) : list string :=
  split_aux sep (S (String.length s)) s "".

Definition is_ws (c : ascii) : bool :=
  let n := nat_of_ascii c in (Nat.leb 9 n && Nat.leb n 13) || Nat.eqb n 32.

Fixpoint trim_left (s : string) : string :=
  match s with
  | EmptyString => EmptyString
  | String c s' => if is_ws c then trim_left s' else s
  end.

Fixpoint rev_string (s : string) : string :=
  match s with
  | EmptyString => EmptyString
  | String c s' => rev_string s' ++ String c EmptyString
  end.

(** [s.trim()] *)
Definition js_trim (s : string) : string :=
  rev_string (trim_left (rev_string (trim_left s))).

Definition is_digit (c : ascii) : bool :=
  let n := nat_of_ascii c in Nat.leb 48 n && Nat.leb n 57.

Fixpoint digits_value (acc : nat) (s : string) : option nat :=
  match s with
  | EmptyString => Some acc
  | String c s' =>
      if is_digit c then digits_value (10 * acc + (nat_of_ascii c - 48)) s'
      else None
  end.

(** A canonical array index: ["0"], or digits without a leading zero. *)
Definition index_of (k : string) : option nat :=
  match k with
  | EmptyString => None
  | String c EmptyString => digits_value 0 k
  | String c _ => if Ascii.eqb c "0"%char then None else digits_value 0 k
  end.

Fixpoint nat_to_string_aux (fuel n : nat) (acc : string) : string :=
  match fuel with
  | 0 => acc
  | S f =>
      let acc' := String (ascii_of_nat (48 + n mod 10)) acc in
      if Nat.ltb n 10 then acc' else nat_to_string_aux f (n / 10) acc'
  end.

Definition nat_to_string (n : nat) : string := nat_to_string_aux (S n) n "".

(** ** Reading and writing properties *)

Definition nullish (v : val) : bool :=
  match v with VUndef | VNull => true | _ => false end.

Definition is_undef (v : val) : bool :=
  match v with VUndef => true | _ => false end.

Definition is_null (v : val) : bool :=
  match v with VNull => true | _ => false end.

(** [a ?? b] *)
Definition coalesce (a b : val) : val := if nullish a then b else a.

(** JavaScript truthiness ([!!v]). *)
Definition truthy (v : val) : bool :=
  match v with
  | VUndef | VNull => false
  | VBool b => b
  | VNum z => negb (Z.eqb z 0)
  | VStr s => negb (String.eqb s "")
  | VRef _ => true
  end.

(** [o[k]] on a receiver that is not [null]/[undefined]. *)
Definition get_own (h : heap) (v : val) (k : string) : val :=
  match v with
  | VStr s =>
      if String.eqb k "length" then VNum (Z.of_nat (String.length s))
      else match index_of k with
           | Some i => match String.get i s with
                       | Some c => VStr (String c EmptyString)
                       | None => VUndef
                       end
           | None => VUndef
           end
  | VRef l =>
      match hstore h l with
      | OObj ps => match assoc k ps with Some x => x | None => VUndef end
      | OArr its ps =>
          if String.eqb k "length" then VNum (Z.of_nat (length its))
          else match index_of k with
               | Some i => nth i its VUndef
               | None => match assoc k ps with Some x => x | None => VUndef end
               end
      end
  | _ => VUndef
  end.

(** [o[k]]: throws on [null]/[undefined]. *)
Definition get_prop (h : heap) (v : val) (k : string) : res val :=
  if nullish v then Throw TypeErrorNull else Ok (get_own h v k).

(** [Object.keys(o)] (and the order of [for ... in]). *)
Definition own_keys (h : heap) (v : val) : list string :=
  match v with
  | VStr s => map nat_to_string (seq 0 (String.length s))
  | VRef l =>
      match hstore h l with
      | OObj ps => map fst ps
      | OArr its ps => map nat_to_string (seq 0 (length its)) ++ map fst ps
      end
  | _ => []
  end.

(** [typeof v === "object" && v !== null] *)
Definition is_object (v : val) : bool :=
  match v with VRef _ => true | _ => false end.

(** [Array.isArray(v)] *)
Definition is_array (h : heap) (v : val) : bool :=
  match v with
  | VRef l => match hstore h l with OArr _ _ => true | _ => false end
  | _ => false
  end.

Definition array_items (h : heap) (v : val) : list val :=
  match v with
  | VRef l => match hstore h l with OArr its _ => its | _ => [] end
  | _ => []
  end.

Fixpoint upd {A} (xs : list A) (i : nat) (x : A) : list A :=
  match xs, i with
  | [], _ => []
  | _ :: xs', 0 => x :: xs'
  | y :: xs', S i' => y :: upd xs' i' x
  end.

(** Writing an array element at index [i]; writing past the end extends the
    array (the gap is filled with [undefined]). *)
Definition set_item (its : list val) (i : nat) (x : val) : list val :=
  if Nat.ltb i (length its) then upd its i x
  else its ++ repeat VUndef (i - length its) ++ [x].

(** Replacing the object at location [l]. *)
Definition hset (h : heap) (l : nat) (o : obj) : heap :=
  mkHeap (fun l' => if Nat.eqb l' l then o else hstore h l') (hnext h).

(** [o[k] = x] in strict mode. *)
Definition set_prop (h : heap) (v : val) (k : string) (x : val) : res heap :=
  match v with
  | VUndef | VNull => Throw TypeErrorNull
  | VRef l =>
      match hstore h l with
      | OObj ps => Ok (hset h l (OObj (assoc_set k x ps)))
      | OArr its ps =>
          match index_of k with
          | Some i => Ok (hset h l (OArr (set_item its i x) ps))
          | None => Ok (hset h l (OArr its (assoc_set k x ps)))
          end
      end
  | _ => Throw TypeErrorPrimitive
  end.

(** Allocation of a fresh object. *)
Definition alloc (h : heap) (o : obj) : heap * val :=
  (mkHeap (fun l => if Nat.eqb l (hnext h) then o else hstore h l) (S (hnext h)),
   VRef (hnext h)).

(** ** State and error monad over the heap *)

Definition M (A : Type) : Type := heap -> res (heap * A).

Definition ret {A} (a : A) : M A := fun h => Ok (h, a).

Definition bind {A B} (m : M A) (k : A -> M B) : M B :=
  fun h => match m h with
           | Ok (h', a) => k a h'
           | Throw e => Throw e
           | NoFuel => NoFuel
           end.

Notation "'do' x <- m ;; k" := (bind m (fun x => k))
  (at level 61, x name, m at next level, right associativity).

Definition get_heap : M heap := fun h => Ok (h, h).

Definition lift {A} (r : res A) : M A :=
  fun h => match r with
           | Ok a => Ok (h, a)
           | Throw e => Throw e
           | NoFuel => NoFuel
           end.

Definition fresh (o : obj) : M val := fun h => Ok (alloc h o).

(** [v[k] = x] *)
Definition assign (v : val) (k : string) (x : val) : M unit :=
  fun h => match set_prop h v k x with
           | Ok h' => Ok (h', tt)
           | Throw e => Throw e
           | NoFuel => NoFuel
           end.

Definition out_of_fuel {A} : M A := fun _ => NoFuel.

Fixpoint filterM {A} (p : A -> M bool) (xs : list A) : M (list A) :=
  match xs with
  | [] => ret []
  | x :: xs' => do b <- p x ;; do ys <- filterM p xs' ;; ret (if b then x :: ys else ys)
  end.

Fixpoint mapM {A B} (f : A -> M B) (xs : list A) : M (list B) :=
  match xs with
  | [] => ret []
  | x :: xs' => do y <- f x ;; do ys <- mapM f xs' ;; ret (y :: ys)
  end.

(** [Array.prototype.slice(start, end)] on the element list. *)
Definition slice_bound (len : Z) (i : Z) : nat :=
  Z.to_nat (if Z.ltb i 0 then Z.max (len + i) 0 else Z.min i len).

Definition js_slice (its : list val) (start : Z) (end_ : option Z) : list val :=
  let len := Z.of_nat (length its) in
  let s := slice_bound len start in
  let e := match end_ with Some e => slice_bound len e | None => length its end in
  firstn (e - s) (skipn s its).

(** ** The query object ([QueryObject], [QueryDirective])

    A field of a query object is, as [shape] inspects it in this order:
    a function (a computed field compiled by [parseQuery]: inside an inline
    block [(data, root) => evalNestedField(expr, data, root)], [FFun]; on a
    line of its own [(data) => evalNestedField(expr, data, rootData ?? data)]
    closing over the [rootData] given to [parseQuery], [FClosure]), a directive
    object (an object with one of the nine directive keys, [FDir]), any other
    object (a nested query object, [FObj]), a string ([FStr]), or another
    primitive ([FLit]).  [__fragments] is kept apart from the fields.  An
    absent directive attribute is [None] ([VUndef] for [default]). *)

Record directive (Q : Type) : Type := mkDirective {
  path : option string;
  skipIf : option string;
  includeIf : option string;
  nested : option Q;
  filter : option string;
  default : val;
  transform : option string;
  limit : option Z;
  skip : option Z
}.
Arguments mkDirective {Q}.
Arguments path {Q}.
Arguments skipIf {Q}.
Arguments includeIf {Q}.
Arguments nested {Q}.
Arguments filter {Q}.
Arguments default {Q}.
Arguments transform {Q}.
Arguments limit {Q}.
Arguments skip {Q}.

Inductive field : Type :=
| FFun (expr : string)
| FClosure (expr : string) (rootData : val)
| FDir (d : directive query)
| FObj (q : query)
| FStr (s : string)
| FLit (v : val)
with query : Type :=
| Query (fields : list (string * field)) (frags : option (list string)).

Definition q_fields (q : query) : list (string * field) :=
  match q with Query fs _ => fs end.

Definition q_frags (q : query) : option (list string) :=
  match q with Query _ fr => fr end.

(** A directive with no attribute set, to be updated field by field. *)
Definition dir0 {Q} : directive Q :=
  mkDirective None None None None None VUndef None None None.

(** ** The expression evaluator

    [evalNestedField] hands an expression to [Function(...)], with the scope
    chain [with(data){ with(root){ ... } }] over the parameters [data] and
    [root]; [transform] uses [with(data){ ... }] over [value] and [data].  A
    scope chain is listed innermost first.  The evaluator is a parameter of
    the development: it returns the heap after evaluation and either the
    value or [None] when evaluation throws. *)
Inductive frame : Type :=
| FWith (o : val)
| FParams (ps : list (string * val)).

Section Engine.

Variable eval_js : heap -> list frame -> string -> heap * option val.

(** [evalNestedField(expr, data, root)]: an exception becomes [null]. *)
Definition evalNestedField (expr : string) (data root : val) : M val :=
  fun h =>
    let '(h', r) :=
      eval_js h [FWith root; FWith data; FParams [("data", data); ("root", root)]]
        expr in
    Ok (h', match r with Some v => v | None => VNull end).

(** [getByPath(obj, path)] *)
Definition getByPath (h : heap) (o : val) (p : string) : val :=
  coalesce
    (fold_left (fun acc key => if nullish acc then VUndef else get_own h acc key)
       (js_split "." p) o)
    VNull.

(** The loop [for (const k of Object.keys(obj))] of [autoResolve], with the
    recursive call [autoResolve(obj[k], key)] as [rec]. *)
Fixpoint autoResolve_keys (rec : val -> res val) (h : heap) (o : val)
  (ks : list string) : res val :=
  match ks with
  | [] => Ok VNull
  | k :: ks' =>
      let v := get_own h o k in
      if is_object v then
        match rec v with
        | Ok found => if is_null found then autoResolve_keys rec h o ks' else Ok found
        | Throw e => Throw e
        | NoFuel => NoFuel
        end
      else autoResolve_keys rec h o ks'
  end.

(** [autoResolve(obj, key)]; [fuel] bounds the depth of its recursion. *)
Fixpoint autoResolve (fuel : nat) (h : heap) (o : val) (key : string) : res val :=
  match fuel with
  | 0 => NoFuel
  | S f =>
      if nullish o then Ok VNull
      else
        let d := get_own h o key in
        if negb (is_undef d) then Ok d
        else autoResolve_keys (fun v => autoResolve f h v key) h o (own_keys h o)
  end.

(** The loop [for (const key of Object.keys(source))] of [mergeDeep], with
    the recursive call [mergeDeep(target[key], source[key])] as [rec]. *)
Fixpoint mergeDeep_keys (rec : val -> val -> M val) (target source : val)
  (ks : list string) : M unit :=
  match ks with
  | [] => ret tt
  | key :: ks' =>
      if String.eqb key "__fragments" then mergeDeep_keys rec target source ks'
      else
        do h <- get_heap ;;
        do sv <- lift (get_prop h source key) ;;
        if truthy sv && is_object sv && negb (is_array h sv) then
          do tv <- lift (get_prop h target key) ;;
          do _ <- (if truthy tv then ret tt
                   else do o <- fresh (OObj []) ;; assign target key o) ;;
          do h2 <- get_heap ;;
          do tv2 <- lift (get_prop h2 target key) ;;
          do _ <- rec tv2 sv ;;
          mergeDeep_keys rec target source ks'
        else
          do _ <- assign target key sv ;;
          mergeDeep_keys rec target source ks'
  end.

(** [mergeDeep(target, source)]; [fuel] bounds the depth of its recursion. *)
Fixpoint mergeDeep (fuel : nat) (target source : val) : M val :=
  match fuel with
  | 0 => out_of_fuel
  | S f =>
      do h0 <- get_heap ;;
      do _ <- mergeDeep_keys (mergeDeep f) target source (own_keys h0 source) ;;
      ret target
  end.

(** A string attribute [s] tested with [if (field.s)]: present and non-empty. *)
Definition set_str (o : option string) : option string :=
  match o with
  | Some s => if String.eqb s "" then None else Some s
  | None => None
  end.

Variable dfuel : nat.

(** One alternative of a [path] chain:
    [getByPath(safeTarget, part) ?? getByPath(root, part) ??
     autoResolve(root, part) ?? evalNestedField(part, safeTarget, root)]. *)
Definition resolve_part (part : string) (st root : val) : M val :=
  do h <- get_heap ;;
  let a := getByPath h st part in
  if negb (nullish a) then ret a
  else
    let b := getByPath h root part in
    if negb (nullish b) then ret b
    else
      do c <- lift (autoResolve dfuel h root part) ;;
      if negb (nullish c) then ret c
      else evalNestedField part st root.

(** The loop [for (const part of parts) { value = ...; if (value != null) break; }]. *)
Fixpoint resolve_parts (parts : list string) (value : val) (st root : val) : M val :=
  match parts with
  | [] => ret value
  | part :: ps =>
      do v <- resolve_part part st root ;;
      if negb (nullish v) then ret v else resolve_parts ps v st root
  end.

(** [field.path.split("||").map((p) => p.trim())], then the loop. *)
Definition resolve_path (p : string) (st root : val) : M val :=
  resolve_parts (map js_trim (js_split "||" p)) VNull st root.

(** [Function("value", "data", `with(data){ return ${t} }`)(value, safeTarget)]
    inside [try { } catch {}]: on an exception the value is unchanged. *)
Definition apply_transform (t : string) (value st : val) : M val :=
  fun h =>
    let '(h', r) :=
      eval_js h [FWith st; FParams [("value", value); ("data", st)]] t in
    Ok (h', match r with Some v => v | None => value end).

(** The recursive call [shape(item, field.nested, fragments, root, key)],
    with the fragment registry and the root fixed by the caller. *)
Definition rec_t : Type := val -> query -> option string -> M val.

(** [arrData] in the [Array.isArray(value)] branch: filter, then skip, then
    limit.  [filter] and [slice] return new arrays. *)
Definition array_pipeline (d : directive query) (root value : val) : M val :=
  do h <- get_heap ;;
  do arr1 <- (match set_str (filter d) with
              | Some f =>
                  do kept <- filterM (fun item =>
                                        do v <- evalNestedField f item root ;;
                                        ret (truthy v))
                               (array_items h value) ;;
                  fresh (OArr kept [])
              | None => ret value
              end) ;;
  do arr2 <- (match skip d with
              | Some n => do h1 <- get_heap ;;
                          fresh (OArr (js_slice (array_items h1 arr1) n None) [])
              | None => ret arr1
              end) ;;
  match limit d with
  | Some n => do h2 <- get_heap ;;
              fresh (OArr (js_slice (array_items h2 arr2) 0 (Some n)) [])
  | None => ret arr2
  end.

(** The [Array.isArray(value)] branch: the pipeline, then the optional
    recursion on each surviving item. *)
Definition shape_array (rec : rec_t) (key : string) (d : directive query)
  (root value : val) : M val :=
  do arrData <- array_pipeline d root value ;;
  match nested d with
  | Some q' =>
      do h3 <- get_heap ;;
      do outs <- mapM (fun item => rec item q' (Some key)) (array_items h3 arrData) ;;
      fresh (OArr outs [])
  | None => ret arrData
  end.

(** The [isDirectiveObject(field)] branch; returns the value stored in
    [result[key]]. *)
Definition shape_directive (rec : rec_t) (key : string) (d : directive query)
  (st root : val) : M val :=
  do skipped <- (match set_str (skipIf d) with
                 | Some e => do v <- evalNestedField e st root ;; ret (truthy v)
                 | None => ret false
                 end) ;;
  if skipped then ret VNull
  else
  do included <- (match set_str (includeIf d) with
                  | Some e => do v <- evalNestedField e st root ;; ret (truthy v)
                  | None => ret true
                  end) ;;
  if negb included then ret VNull
  else
  do value <- (match set_str (path d) with
               | Some p => resolve_path p st root
               | None =>
                   do h <- get_heap ;;
                   do x <- lift (get_prop h st key) ;;
                   if nullish x then lift (autoResolve dfuel h root key) else ret x
               end) ;;
  let value := if nullish value && negb (is_undef (default d)) then default d
               else value in
  do value <- (match set_str (transform d) with
               | Some t => if nullish value then ret value
                           else apply_transform t value st
               | None => ret value
               end) ;;
  do h <- get_heap ;;
  if is_array h value then shape_array rec key d root value
  else if is_object value then
    match nested d with
    | Some q' => rec value q' (Some key)
    | None => ret value
    end
  else ret (coalesce value VNull).

(** The body of the [for (const key in queryObj)] loop for one field; returns
    the value stored in [result[key]]. *)
Definition shape_field (rec : rec_t) (key : string) (fld : field)
  (st root : val) : M val :=
  match fld with
  | FFun e => evalNestedField e st root
  | FClosure e rd => evalNestedField e st (coalesce rd st)
  | FDir d => shape_directive rec key d st root
  | FObj q' =>
      do h <- get_heap ;;
      do x <- lift (get_prop h st key) ;;
      do nv <- (if nullish x then fresh (OObj []) else ret x) ;;
      rec nv q' (Some key)
  | FStr s =>
      do v1 <- evalNestedField s st root ;;
      if negb (nullish v1) then ret v1
      else
        do h <- get_heap ;;
        let v2 := getByPath h st s in
        if negb (nullish v2) then ret v2
        else
          do v3 <- lift (autoResolve dfuel h root s) ;;
          ret (coalesce v3 VNull)
  | FLit _ =>
      do h <- get_heap ;;
      do x <- lift (get_prop h st key) ;;
      ret (coalesce x VNull)
  end.

(** [const safeTarget = data ?? {}] *)
Definition safe_target (data : val) : M val :=
  if nullish data then fresh (OObj []) else ret data.

(** [result] is local to one [shape] call until it is returned: no other
    object or scope refers to it before then.  It is therefore kept as a
    property list and allocated when the call returns. *)
Definition props := list (string * val).

Fixpoint shape_fields (rec : rec_t) (data root : val)
  (fs : list (string * field)) (result : props) : M props :=
  match fs with
  | [] => ret result
  | (key, fld) :: fs' =>
      if String.eqb key "__fragments" then shape_fields rec data root fs' result
      else
        do st <- safe_target data ;;
        do v <- shape_field rec key fld st root ;;
        shape_fields rec data root fs' (assoc_set key v result)
  end.

(** The loop of [mergeDeep(result, fragResult)] with [target] the local
    [result]; [rec] is the recursive [mergeDeep]. *)
Fixpoint merge_result_keys (rec : val -> val -> M val) (source : val)
  (ks : list string) (result : props) : M props :=
  match ks with
  | [] => ret result
  | key :: ks' =>
      if String.eqb key "__fragments" then merge_result_keys rec source ks' result
      else
        do h <- get_heap ;;
        do sv <- lift (get_prop h source key) ;;
        if truthy sv && is_object sv && negb (is_array h sv) then
          let tv := match assoc key result with Some x => x | None => VUndef end in
          do result <- (if truthy tv then ret result
                        else do o <- fresh (OObj []) ;; ret (assoc_set key o result)) ;;
          let tv2 := match assoc key result with Some x => x | None => VUndef end in
          do _ <- rec tv2 sv ;;
          merge_result_keys rec source ks' result
        else merge_result_keys rec source ks' (assoc_set key sv result)
  end.

(** [mergeDeep(result, fragResult)]: the first level of [mergeDeep] with
    [target] the local [result]. *)
Definition merge_into_result (fuel : nat) (result : props) (source : val) : M props :=
  match fuel with
  | 0 => out_of_fuel
  | S f =>
      do h0 <- get_heap ;;
      merge_result_keys (mergeDeep f) source (own_keys h0 source) result
  end.

(** The fragment loop: each registered fragment is shaped against the same
    data and deep-merged into [result] ([result] is never an array there). *)
Fixpoint shape_frags (rec : rec_t) (data : val) (reg : list (string * query))
  (contextKey : option string) (names : list string) (result : props) : M props :=
  match names with
  | [] => ret result
  | fragName :: ns =>
      match assoc fragName reg with
      | None => shape_frags rec data reg contextKey ns result
      | Some fq =>
          do fragResult <- rec data fq contextKey ;;
          do result <- merge_into_result dfuel result fragResult ;;
          shape_frags rec data reg contextKey ns result
      end
  end.

(** [shape(data, query, fragments, rootData, contextKey)] for a query object
    (a query text is first compiled by [parseQuery]).  [qfuel] bounds the
    nesting of recursive [shape] calls; [dfuel] bounds the data-driven
    recursion of [autoResolve] and [mergeDeep].  [rootData] and [fragments]
    are [VUndef] and [None] when not supplied.  [contextKey] is threaded
    through the recursion as in the source. *)
Fixpoint shape (qfuel : nat) (data : val) (q : query)
  (fragments : option (list (string * query))) (rootData : val)
  (contextKey : option string) : M val :=
  match qfuel with
  | 0 => out_of_fuel
  | S qf =>
      let root := coalesce rootData data in
      let rec : rec_t := fun d q' ck => shape qf d q' fragments root ck in
      do result <- (match q_frags q, fragments with
                    | Some names, Some reg => shape_frags rec data reg contextKey names []
                    | _, _ => ret []
                    end) ;;
      do result <- shape_fields rec data root (q_fields q) result ;;
      fresh (OObj result)
  end.

(** [shape(data, queryObj)] as called by a user: no registry, no root. *)
Definition shape_top (qfuel : nat) (data : val) (q : query) : M val :=
  shape qfuel data q None VUndef None.

End Engine.

(** ** [parseArgs]: the argument list of a block header

    A value is a number for [limit] and [skip] ([parseInt(v, 10)], [None]
    standing for [NaN]) and a string otherwise. *)

Inductive argval : Type :=
| ANum (n : option Z)
| AStr (s : string).

Definition is_quote (c : ascii) : bool :=
  Ascii.eqb c (ascii_of_nat 34) || Ascii.eqb c (ascii_of_nat 39).

(** [v.replace(/^["']|["']$/g, "")] *)
Definition strip_quotes (v : string) : string :=
  let v1 := match v with
            | String c r => if is_quote c then r else v
            | EmptyString => v
            end in
  rev_string (match rev_string v1 with
              | String c r => if is_quote c then r else String c r
              | EmptyString => EmptyString
              end).

Fixpoint digits_Z (acc : Z) (s : string) : Z * bool :=
  match s with
  | String c s' =>
      if is_digit c then digits_Z (10 * acc + Z.of_nat (nat_of_ascii c - 48)) s'
      else (acc, true)
  | EmptyString => (acc, true)
  end.

(** [parseInt(v, 10)]; [parseInt(undefined)] is [NaN]. *)
Definition parse_int (v : option string) : option Z :=
  let digits s := match s with
                  | String c _ => if is_digit c then Some (fst (digits_Z 0 s)) else None
                  | EmptyString => None
                  end in
  match v with
  | None => None
  | Some v =>
      match trim_left v with
      | String c r =>
          if Ascii.eqb c "-"%char then option_map Z.opp (digits r)
          else if Ascii.eqb c "+"%char then digits r
          else digits (String c r)
      | EmptyString => None
      end
  end.

(** [const [k, v] = current.split(":").map((s) => s.trim()); if (k) { ... }] *)
Definition add_arg (current : string) (args : list (string * argval))
  : res (list (string * argval)) :=
  match map js_trim (js_split ":" current) with
  | k :: rest =>
      let v := hd_error rest in
      if String.eqb k "" then Ok args
      else if String.eqb k "limit" || String.eqb k "skip"
      then Ok (assoc_set k (ANum (parse_int v)) args)
      else match v with
           | Some v => Ok (assoc_set k (AStr (strip_quotes v)) args)
           | None => Throw TypeErrorNull   (* [undefined.replace(...)] *)
           end
  | [] => Ok args
  end.

Fixpoint parse_args_loop (s current : string) (inQuotes : bool)
  (quoteChar : option ascii) (args : list (string * argval))
  : res (list (string * argval)) :=
  match s with
  | EmptyString =>
      (* handle last argument *)
      if String.eqb current "" then Ok args else add_arg current args
  | String c s' =>
      let current' := String.append current (String c EmptyString) in
      if is_quote c && negb inQuotes then
        parse_args_loop s' current' true (Some c) args
      else if match quoteChar with Some q => Ascii.eqb c q | None => false end
              && inQuotes then
        parse_args_loop s' current' false quoteChar args
      else if Ascii.eqb c ","%char && negb inQuotes then
        match add_arg current args with
        | Ok args' => parse_args_loop s' "" inQuotes quoteChar args'
        | Throw e => Throw e
        | NoFuel => NoFuel
        end
      else parse_args_loop s' current' inQuotes quoteChar args
  end.

Definition parseArgs (argsStr : string) : res (list (string * argval)) :=
  parse_args_loop argsStr "" false None [].

(** ** A concrete evaluator for the expressions used in the examples

    [js_eval_paths] is the JavaScript meaning of [return e] inside the given
    scope chain for two forms of [e]: a double-quoted string literal without
    inner quotes, and a chain of identifiers [a.b.c] (an identifier is looked
    up in the scope chain, [undefined] being the global of that name; a name
    found nowhere throws a [ReferenceError]; a member of [null]/[undefined]
    throws a [TypeError]).  Entering [with (o)] for [o] null or undefined
    throws.  The examples below only evaluate texts of these two forms; on any
    other text it reports an exception. *)

Definition is_ident_char (c : ascii) : bool :=
  let n := nat_of_ascii c in
  is_digit c || (Nat.leb 65 n && Nat.leb n 90) || (Nat.leb 97 n && Nat.leb n 122)
  || Nat.eqb n 95 || Nat.eqb n 36.

Fixpoint all_chars (p : ascii -> bool) (s : string) : bool :=
  match s with
  | EmptyString => true
  | String c s' => p c && all_chars p s'
  end.

Definition is_ident (s : string) : bool :=
  match s with
  | EmptyString => false
  | String c _ => negb (is_digit c) && all_chars is_ident_char s
  end.

(** [name in o] for the object of a [with] statement. *)
Definition has_prop (h : heap) (o : val) (name : string) : bool :=
  match o with
  | VStr _ => String.eqb name "length" || existsb (String.eqb name) (own_keys h o)
  | VRef l =>
      match hstore h l with
      | OArr _ _ => String.eqb name "length" || existsb (String.eqb name) (own_keys h o)
      | OObj _ => existsb (String.eqb name) (own_keys h o)
      end
  | _ => false
  end.

Fixpoint scope_lookup (h : heap) (sc : list frame) (name : string) : option val :=
  match sc with
  | [] => if String.eqb name "undefined" then Some VUndef else None
  | FWith o :: sc' =>
      if has_prop h o name then Some (get_own h o name) else scope_lookup h sc' name
  | FParams ps :: sc' =>
      match assoc name ps with Some v => Some v | None => scope_lookup h sc' name end
  end.

Fixpoint members (h : heap) (v : val) (ks : list string) : option val :=
  match ks with
  | [] => Some v
  | k :: ks' => if nullish v then None else members h (get_own h v k) ks'
  end.

Definition quote : ascii := ascii_of_nat 34.

Definition string_literal (e : string) : option string :=
  match e with
  | String c rest =>
      if Ascii.eqb c quote then
        match js_split (String quote EmptyString) rest with
        | [body; EmptyString] => Some body
        | _ => None
        end
      else None
  | EmptyString => None
  end.

Definition eval_expr (h : heap) (sc : list frame) (e : string) : option val :=
  match string_literal e with
  | Some s => Some (VStr s)
  | None =>
      match js_split "." e with
      | x :: ks =>
          if is_ident x && forallb is_ident ks then
            match x with
            | "true" => members h (VBool true) ks
            | "false" => members h (VBool false) ks
            | "null" => members h VNull ks
            | _ => match scope_lookup h sc x with
                   | Some v => members h v ks
                   | None => None
                   end
            end
          else None
      | [] => None
      end
  end.

Definition with_ok (sc : list frame) : bool :=
  forallb (fun fr => match fr with FWith o => negb (nullish o) | FParams _ => true end) sc.

Definition js_eval_paths (h : heap) (sc : list frame) (e : string) : heap * option val :=
  (h, if with_ok sc then eval_expr h sc (js_trim e) else None).

(** ** Reading results back *)

Inductive json : Type :=
| JUndef
| JNull
| JBool (b : bool)
| JNum (z : Z)
| JStr (s : string)
| JArr (items : list json)
| JObj (props : list (string * json)).

Fixpoint to_json (fuel : nat) (h : heap) (v : val) : option json :=
  match fuel with
  | 0 => None
  | S f =>
      match v with
      | VUndef => Some JUndef
      | VNull => Some JNull
      | VBool b => Some (JBool b)
      | VNum z => Some (JNum z)
      | VStr s => Some (JStr s)
      | VRef l =>
          match hstore h l with
          | OObj ps =>
              option_map JObj
                ((fix go (ps : list (string * val)) : option (list (string * json)) :=
                    match ps with
                    | [] => Some []
                    | (k, x) :: ps' =>
                        match to_json f h x, go ps' with
                        | Some j, Some js => Some ((k, j) :: js)
                        | _, _ => None
                        end
                    end) ps)
          | OArr its _ =>
              option_map JArr
                ((fix go (its : list val) : option (list json) :=
                    match its with
                    | [] => Some []
                    | x :: its' =>
                        match to_json f h x, go its' with
                        | Some j, Some js => Some (j :: js)
                        | _, _ => None
                        end
                    end) its)
          end
      end
  end.

(** The result of a run as a tree. *)
Definition result_json (r : res (heap * val)) : option json :=
  match r with
  | Ok (h, v) => to_json 20 h v
  | _ => None
  end.

(** ** Definitions used by the statements below *)

(** Nesting depth of a query object (a leaf level counts 1). *)
Fixpoint qdepth (q : query) : nat :=
  match q with
  | Query fs _ =>
      S (list_max (map (fun kf : string * field =>
                          match snd kf with
                          | FObj q' => qdepth q'
                          | FDir (mkDirective _ _ _ (Some q') _ _ _ _ _) => qdepth q'
                          | _ => 0
                          end) fs))
  end.

(** The query object a field descends into, if any. *)
Definition field_sub (f : field) : option query :=
  match f with
  | FObj q' => Some q'
  | FDir d => nested d
  | _ => None
  end.

(** The values [node[key]] met by a pre-order walk of [o] that does not
    descend below a node where [node[key] !== undefined]; children are the
    object or array values, in [Object.keys] order. *)
Fixpoint hits_keys (rec : val -> res (list val)) (h : heap) (o : val)
  (ks : list string) : res (list val) :=
  match ks with
  | [] => Ok []
  | k :: ks' =>
      let v := get_own h o k in
      if is_object v then
        match rec v, hits_keys rec h o ks' with
        | Ok a, Ok b => Ok (a ++ b)
        | Throw e, _ => Throw e
        | NoFuel, _ => NoFuel
        | _, Throw e => Throw e
        | _, NoFuel => NoFuel
        end
      else hits_keys rec h o ks'
  end.

Fixpoint hits (fuel : nat) (h : heap) (o : val) (key : string) : res (list val) :=
  match fuel with
  | 0 => NoFuel
  | S f =>
      if nullish o then Ok []
      else
        let d := get_own h o key in
        if negb (is_undef d) then Ok [d]
        else hits_keys (fun v => hits f h v key) h o (own_keys h o)
  end.

(** The first element that is not [null], else [null]. *)
Definition first_non_null (l : list val) : val :=
  match find (fun v => negb (is_null v)) l with Some v => v | None => VNull end.

(** Strict [=== true]. *)
Definition strict_true (v : val) : bool :=
  match v with VBool true => true | _ => false end.

(** The value [evalNestedField(e, data, root)] computes in heap [h]. *)
Definition eval_value (ev : heap -> list frame -> string -> heap * option val)
  (h : heap) (e : string) (data root : val) : val :=
  match snd (ev h [FWith root; FWith data; FParams [("data", data); ("root", root)]] e) with
  | Some v => v
  | None => VNull
  end.

(** [select(items, pred)] as [Array.prototype.filter] runs it in the code:
    the filter expression is evaluated on each item in array order (the
    root, then the item, in scope; an exception counts as [null]), each
    evaluation starting from the heap the previous one left, and the items
    whose value is truthy are kept.  Returns the final heap and the kept
    items. *)
Fixpoint select_items (ev : heap -> list frame -> string -> heap * option val)
  (h : heap) (f : string) (root : val) (items : list val) : heap * list val :=
  match items with
  | [] => (h, [])
  | it :: its =>
      let '(h1, r) := ev h [FWith root; FWith it; FParams [("data", it); ("root", root)]] f in
      let keep := truthy (match r with Some v => v | None => VNull end) in
      let '(h2, kept) := select_items ev h1 f root its in
      (h2, if keep then it :: kept else kept)
  end.

(** A Literal field, in the order the code uses: expression evaluation, then
    path lookup on the current data, then auto-resolve on the root, else
    [null]. *)
Definition literal_spec (ev : heap -> list frame -> string -> heap * option val)
  (df : nat) (s : string) (st root : val) (h : heap) : res (heap * val) :=
  let '(h1, r) := ev h [FWith root; FWith st; FParams [("data", st); ("root", root)]] s in
  let v1 := match r with Some v => v | None => VNull end in
  if negb (nullish v1) then Ok (h1, v1)
  else
    let v2 := getByPath h1 st s in
    if negb (nullish v2) then Ok (h1, v2)
    else match autoResolve df h1 root s with
         | Ok v3 => Ok (h1, coalesce v3 VNull)
         | Throw e => Throw e
         | NoFuel => NoFuel
         end.

(** One alternative of a fallback chain: path lookup on the current data,
    then on the root, then auto-resolve on the root, then evaluation. *)
Definition alternative_spec (ev : heap -> list frame -> string -> heap * option val)
  (df : nat) (part : string) (st root : val) (h : heap) : res (heap * val) :=
  let a := getByPath h st part in
  if negb (nullish a) then Ok (h, a)
  else
    let b := getByPath h root part in
    if negb (nullish b) then Ok (h, b)
    else match autoResolve df h root part with
         | Ok c =>
             if negb (nullish c) then Ok (h, c)
             else
               let '(h1, r) :=
                 ev h [FWith root; FWith st; FParams [("data", st); ("root", root)]] part in
               Ok (h1, match r with Some v => v | None => VNull end)
         | Throw e => Throw e
         | NoFuel => NoFuel
         end.

(** Left to right, the first alternative whose value is not [null] or
    [undefined]; when none is, the value of the last one. *)
Fixpoint chain_spec (ev : heap -> list frame -> string -> heap * option val)
  (df : nat) (parts : list string) (last : val) (st root : val) (h : heap)
  : res (heap * val) :=
  match parts with
  | [] => Ok (h, last)
  | p :: ps =>
      match alternative_spec ev df p st root h with
      | Ok (h1, v) => if negb (nullish v) then Ok (h1, v)
                      else chain_spec ev df ps v st root h1
      | Throw e => Throw e
      | NoFuel => NoFuel
      end
  end.

(** The order of lookups of one alternative as the claim lists it: path
    lookup on the current data, auto-resolve on the root, evaluation. *)
Definition claimed_alternative (ev : heap -> list frame -> string -> heap * option val)
  (df : nat) (part : string) (st root : val) (h : heap) : option val :=
  let a := getByPath h st part in
  if negb (nullish a) then Some a
  else match autoResolve df h root part with
       | Ok c => if negb (nullish c) then Some c
                 else Some (eval_value ev h part st root)
       | _ => None
       end.

(** ** Example inputs

    Query texts are given with the query object [parseQuery] compiles them
    to. *)

Definition dir_nested (q : query) : directive query :=
  mkDirective None None None (Some q) None VUndef None None None.

Definition dir_path (p : string) : directive query :=
  mkDirective (Some p) None None None None VUndef None None None.

(** [{ user: {} }] with the query text [x: user.name]. *)
Definition h_user_empty : heap := heap_of [OObj [("user", VRef 1)]; OObj []].
Definition q_user_name_expr : query :=
  Query [("x", FClosure "user.name" (VRef 0))] None.

(** [data = { name: "root", self: data }] *)
Definition h_cyclic : heap := heap_of [OObj [("name", VStr "root"); ("self", VRef 0)]].
(** The query object [{ name: "name", self: { name: "name" } }]. *)
Definition q_name_self : query :=
  Query [("name", FStr "name"); ("self", FObj (Query [("name", FStr "name")] None))] None.
(** The query text [x]. *)
Definition q_x : query := Query [("x", FStr "x")] None.

(** [{ items: [{ v: 1 }] }] with the query object
    [{ items: { filter: "v", skip: 0, limit: 5 } }]. *)
Definition h_items : heap :=
  heap_of [OObj [("items", VRef 1)]; OArr [VRef 2] []; OObj [("v", VNum 1)]].
Definition dir_items : directive query :=
  mkDirective None None None None (Some "v") VUndef None (Some 5%Z) (Some 0%Z).
Definition q_items : query := Query [("items", FDir dir_items)] None.

(** [{ items: [{ v: 1 }, { v: 0 }, { v: 2 }, { v: 3 }, { v: 4 }] }] with the
    query object [{ items: { filter: "v", skip: 1, limit: 2 } }]. *)
Definition h_items5 : heap :=
  heap_of [OObj [("items", VRef 1)]; OArr [VRef 2; VRef 3; VRef 4; VRef 5; VRef 6] [];
           OObj [("v", VNum 1)]; OObj [("v", VNum 0)]; OObj [("v", VNum 2)];
           OObj [("v", VNum 3)]; OObj [("v", VNum 4)]].
Definition dir_items5 : directive query :=
  mkDirective None None None None (Some "v") VUndef None (Some 2%Z) (Some 1%Z).

(** [{ user: { name: "J" }, name: "R" }] with the query text
    [user { name }] (one field per line). *)
Definition h_user_shadow : heap :=
  heap_of [OObj [("user", VRef 1); ("name", VStr "R")]; OObj [("name", VStr "J")]].
Definition q_user_block : query :=
  Query [("user", FDir (dir_nested (Query [("name", FStr "name")] None)))] None.

(** [{ a: { b: { c: 1 } } }] with the query text [a { b { x: b.c } }]
    (one item per line). *)
Definition h_abc : heap :=
  heap_of [OObj [("a", VRef 1)]; OObj [("b", VRef 2)]; OObj [("c", VNum 1)]].
Definition q_abc : query :=
  Query [("a", FDir (dir_nested
     (Query [("b", FDir (dir_nested
        (Query [("x", FClosure "b.c" (VRef 0))] None)))] None)))] None.

(** [{ user: "John" }] *)
Definition h_user_scalar : heap := heap_of [OObj [("user", VStr "John")]].

(** [{ a: { b: 1 }, c: { "a.b": 2 } }] with the query object
    [{ c: { nested: { v: { path: "a.b" } } } }]. *)
Definition h_dotted : heap :=
  heap_of [OObj [("a", VRef 1); ("c", VRef 2)]; OObj [("b", VNum 1)];
           OObj [("a.b", VNum 2)]].
Definition q_dotted : query :=
  Query [("c", FDir (dir_nested (Query [("v", FDir (dir_path "a.b"))] None)))] None.

(** [{ a: null, b: undefined }] with the query text [x: a || b || "X"]. *)
Definition h_ab : heap := heap_of [OObj [("a", VNull); ("b", VUndef)]].
Definition q_chain : query :=
  Query [("x", FDir (dir_path
    (String.append "a || b || " (String quote (String "X" (String quote EmptyString))))))] None.

(** [{ profile: { info: { email: "x@y.com" } } }] with the query text [email]. *)
Definition h_email : heap :=
  heap_of [OObj [("profile", VRef 1)]; OObj [("info", VRef 2)];
           OObj [("email", VStr "x@y.com")]].
Definition q_email : query := Query [("email", FStr "email")] None.

(** ** Regular expressions

    The regular expressions of [parseQuery] are matched by a backtracking
    matcher written in the continuation-passing style of the ECMAScript
    specification (RegExp pattern semantics, 22.2.2): a matcher takes the
    input, a position, the captures so far and a continuation, and the first
    success in the order the specification tries alternatives wins.  The
    features used by the code are modelled: character classes, sequences,
    alternatives, greedy [*] and [?] (with [+] as [a a*]), capture groups and
    the anchors [^] and [$] without the [m] flag. *)

Inductive regex : Type :=
| REmpty
| RClass (p : ascii -> bool)
| RSeq (a b : regex)
| RAlt (a b : regex)
| RStar (a : regex)
| ROpt (a : regex)
| RGroup (n : nat) (a : regex)
| RBol
| REol.

(** Captures: group number, start and end position (innermost last set
    first). *)
Definition caps := list (nat * (nat * nat)).

Fixpoint groups (r : regex) : list nat :=
  match r with
  | RSeq a b | RAlt a b => groups a ++ groups b
  | RStar a | ROpt a => groups a
  | RGroup n a => n :: groups a
  | _ => []
  end.

(** The captures of the groups of a quantified atom are reset to
    [undefined] before each iteration. *)
Definition reset (ns : list nat) (c : caps) : caps :=
  List.filter (fun e => negb (existsb (Nat.eqb (fst e)) ns)) c.

Definition cont := nat -> caps -> option (nat * caps).

(** The loop of a greedy star [a*]: an iteration of [a] that ends where it
    started fails (RepeatMatcher); otherwise the loop goes on, and when [a]
    fails the continuation is tried at the current position.  The loop is
    entered at position [i] with [S (length s - i)] steps; every iteration
    that goes on advances the position, which never exceeds [length s], so
    the count never runs out before the loop ends. *)
Fixpoint star_loop (ma : cont -> nat -> caps -> option (nat * caps)) (ga : list nat)
  (k : cont) (fuel i : nat) (c : caps) : option (nat * caps) :=
  match fuel with
  | 0 => None
  | S f =>
      match ma (fun j c' => if Nat.ltb i j then star_loop ma ga k f j c' else None)
              i (reset ga c) with
      | Some x => Some x
      | None => k i c
      end
  end.

Fixpoint rm (s : string) (r : regex) (k : cont) (i : nat) (c : caps) {struct r}
  : option (nat * caps) :=
  match r with
  | REmpty => k i c
  | RClass p =>
      match String.get i s with
      | Some ch => if p ch then k (S i) c else None
      | None => None
      end
  | RSeq a b => rm s a (fun j c' => rm s b k j c') i c
  | RAlt a b =>
      match rm s a k i c with
      | Some x => Some x
      | None => rm s b k i c
      end
  | RStar a => star_loop (rm s a) (groups a) k (S (String.length s - i)) i c
  | ROpt a =>
      match rm s a (fun j c' => if Nat.ltb i j then k j c' else None)
              i (reset (groups a) c) with
      | Some x => Some x
      | None => k i c
      end
  | RGroup n a => rm s a (fun j c' => k j ((n, (i, j)) :: c')) i c
  | RBol => if Nat.eqb i 0 then k i c else None
  | REol => if Nat.eqb i (String.length s) then k i c else None
  end.

Definition rseq (rs : list regex) : regex := fold_right RSeq REmpty rs.
Definition RPlus (a : regex) : regex := RSeq a (RStar a).
Definition chr (c : ascii) : regex := RClass (fun x => Ascii.eqb x c).
Definition notc (c : ascii) : regex := RClass (fun x => negb (Ascii.eqb x c)).
Fixpoint lit (s : string) : regex :=
  match s with
  | EmptyString => REmpty
  | String c s' => RSeq (chr c) (lit s')
  end.

(** [\w] *)
Definition is_word (c : ascii) : bool :=
  let n := nat_of_ascii c in
  is_digit c || (Nat.leb 65 n && Nat.leb n 90) || (Nat.leb 97 n && Nat.leb n 122)
  || Nat.eqb n 95.
Definition word : regex := RClass is_word.
(** [\s] *)
Definition space : regex := RClass is_ws.
(** [.]: any character but a line terminator. *)
Definition is_dot (c : ascii) : bool :=
  negb (Nat.eqb (nat_of_ascii c) 10 || Nat.eqb (nat_of_ascii c) 13).
Definition dot : regex := RClass is_dot.

(** A successful match: start, end and captures. *)
Record rmatch : Type := mkMatch { m_start : nat; m_end : nat; m_caps : caps }.

Fixpoint search_from (s : string) (r : regex) (fuel i : nat) : option rmatch :=
  match fuel with
  | 0 => None
  | S f =>
      if Nat.ltb (String.length s) i then None
      else match rm s r (fun j c => Some (j, c)) i [] with
           | Some (j, c) => Some (mkMatch i j c)
           | None => search_from s r f (S i)
           end
  end.

(** [s.match(r)] for [r] without the [g] flag ([RegExpBuiltinExec] from
    [lastIndex] 0): the leftmost match. *)
Definition exec (r : regex) (s : string) : option rmatch :=
  search_from s r (S (String.length s)) 0.

(** [m[0]] *)
Definition m_text (s : string) (m : rmatch) : string :=
  substring (m_start m) (m_end m - m_start m) s.

Fixpoint cap_lookup (n : nat) (c : caps) : option (nat * nat) :=
  match c with
  | [] => None
  | (n', ij) :: c' => if Nat.eqb n n' then Some ij else cap_lookup n c'
  end.

(** [m[n]]: [None] for a group that did not take part in the match. *)
Definition m_group (s : string) (m : rmatch) (n : nat) : option string :=
  match cap_lookup n (m_caps m) with
  | Some (i, j) => Some (substring i (j - i) s)
  | None => None
  end.

(** [m[n]] for a group that takes part in every match of its expression. *)
Definition m_grp (s : string) (m : rmatch) (n : nat) : string :=
  match m_group s m n with Some x => x | None => "" end.

(** [s.match(r)] for [r] with the [g] flag: the texts of the successive
    matches ([lastIndex] moves to the end of a match, one further after an
    empty one); no match gives [null], read as [[]] by [?? []]. *)
Fixpoint match_all_from (s : string) (r : regex) (fuel i : nat) : list string :=
  match fuel with
  | 0 => []
  | S f =>
      match search_from s r (S (String.length s - i)) i with
      | Some m =>
          m_text s m ::
          match_all_from s r f (if Nat.eqb (m_end m) (m_start m) then S (m_end m) else m_end m)
      | None => []
      end
  end.

Definition match_all (r : regex) (s : string) : list string :=
  match_all_from s r (S (S (String.length s))) 0.

(** ** The string methods used by [parseQuery] *)

Definition starts_with (p s : string) : bool := String.prefix p s.

Definition ends_with (p s : string) : bool :=
  Nat.leb (String.length p) (String.length s)
  && String.eqb (substring (String.length s - String.length p) (String.length p) s) p.

Definition includes (p s : string) : bool :=
  match String.index 0 p s with Some _ => true | None => false end.

(** [s.slice(n)] *)
Definition slice_from (n : nat) (s : string) : string :=
  substring n (String.length s - n) s.

(** [s.slice(n, -1)] *)
Definition slice_drop_last (n : nat) (s : string) : string :=
  substring n (String.length s - 1 - n) s.

(** [s.replace(p, "")] for a string [p]: the first occurrence is removed. *)
Definition replace_first (p s : string) : string :=
  match String.index 0 p s with
  | Some i => substring 0 i s ++ substring (i + String.length p) (String.length s - (i + String.length p)) s
  | None => s
  end.

(** [line.replace(/,$/, "")]: [$] (no [m] flag) matches at the end only. *)
Definition drop_comma (s : string) : string :=
  if ends_with "," s then substring 0 (String.length s - 1) s else s.

(** ** The regular expressions of [parseQuery]

    Each is given above its definition as in the source, with a space
    between a star and a closing parenthesis. *)

Definition dq : ascii := ascii_of_nat 34.

(** [/(\w+)\s+@skip\(if:\s*"(.* )"\)/] *)
Definition re_skip : regex :=
  rseq [RGroup 1 (RPlus word); RPlus space; lit "@skip(if:"; RStar space; chr dq;
       RGroup 2 (RStar dot); chr dq; chr ")"].

(** [/(\w+)\s+@include\(if:\s*"(.* )"\)/] *)
Definition re_include : regex :=
  rseq [RGroup 1 (RPlus word); RPlus space; lit "@include(if:"; RStar space; chr dq;
       RGroup 2 (RStar dot); chr dq; chr ")"].

(** [/@default\(value:\s*["'](.* )["']\)/] *)
Definition re_default : regex :=
  rseq [lit "@default(value:"; RStar space; RClass is_quote; RGroup 1 (RStar dot);
       RClass is_quote; chr ")"].

(** [/^(\w+)\s*:\s*(\w+)\s+@transform\(fn:\s*"(.* )"\)/] *)
Definition re_transform : regex :=
  rseq [RBol; RGroup 1 (RPlus word); RStar space; chr ":"; RStar space;
       RGroup 2 (RPlus word); RPlus space; lit "@transform(fn:"; RStar space; chr dq;
       RGroup 3 (RStar dot); chr dq; chr ")"].

(** [/^(\w+)(\([^)]*\))?\s*\{\s*([^}]* )\s*\}$/] *)
Definition re_inline : regex :=
  rseq [RBol; RGroup 1 (RPlus word);
       ROpt (RGroup 2 (rseq [chr "("; RStar (notc ")"); chr ")"]));
       RStar space; chr "{"; RStar space; RGroup 3 (RStar (notc "}")); RStar space;
       chr "}"; REol].

(** [/(\.\.\.\w+|\w+\s*:\s*[\w.@\[\]]+|\w+)/g] *)
Definition re_field : regex :=
  RGroup 1 (RAlt (rseq [lit "..."; RPlus word])
             (RAlt (rseq [RPlus word; RStar space; chr ":"; RStar space;
                         RPlus (RClass (fun c => is_word c || Ascii.eqb c "." || Ascii.eqb c "@"
                                                 || Ascii.eqb c "[" || Ascii.eqb c "]"))])
                   (RPlus word))).

(** [/^(\w+)\s*:\s*(.+)$/] *)
Definition re_alias : regex :=
  rseq [RBol; RGroup 1 (RPlus word); RStar space; chr ":"; RStar space;
       RGroup 2 (RPlus dot); REol].

(** [/@skip\(if:\s*"(.* )"\)/] *)
Definition re_hskip : regex :=
  rseq [lit "@skip(if:"; RStar space; chr dq; RGroup 1 (RStar dot); chr dq; chr ")"].

(** [/@include\(if:\s*"(.* )"\)/] *)
Definition re_hinclude : regex :=
  rseq [lit "@include(if:"; RStar space; chr dq; RGroup 1 (RStar dot); chr dq; chr ")"].

(** [/^(\w+)\((.* )\)/] *)
Definition re_paren : regex :=
  rseq [RBol; RGroup 1 (RPlus word); chr "("; RGroup 2 (RStar dot); chr ")"].

(** ** [parseQuery]

    The object under construction is a property list of values [pval].  A
    block [k {] attaches [current[k] = directive], where [directive.nested]
    is the object pushed on the stack, and later lines fill that object until
    its [}].  No line changes an object below the top of the stack, so the
    stack is kept as a zipper: each frame holds the parent's properties, the
    key and the directive, whose [nested] is the placeholder [PHole] until
    the frame is closed (by its [}] or at the end of the text) and the filled
    object is assigned to the key (a property keeps the position of its first
    assignment, so assigning at closing time gives the same key order). *)

Inductive pval : Type :=
| PStr (s : string)
| PNum (n : option Z)
| PFunIn (expr : string)
| PFunTop (expr : string) (rootData : val)
| PArr (items : list string)
| PObj (props : list (string * pval))
| PHole.

Definition pprops := list (string * pval).

(** [!!v] for the values met by [current.__fragments || []]. *)
Definition ptruthy (v : pval) : bool :=
  match v with
  | PStr s => negb (String.eqb s "")
  | PNum (Some z) => negb (Z.eqb z 0)
  | PNum None => false
  | _ => true
  end.

(** [current.__fragments = current.__fragments || []; current.__fragments.push(name)] *)
Definition push_frag (name : string) (cur : pprops) : res pprops :=
  let fr := match assoc "__fragments" cur with
            | Some v => if ptruthy v then v else PArr []
            | None => PArr []
            end in
  match fr with
  | PArr l => Ok (assoc_set "__fragments" (PArr (l ++ [name])) cur)
  | _ => Throw TypeErrorNotFunction
  end.

Definition pval_of_arg (a : argval) : pval :=
  match a with ANum n => PNum n | AStr s => PStr s end.

(** [Object.assign(directive, args)] *)
Definition assign_args (args : list (string * argval)) (d : pprops) : pprops :=
  fold_left (fun d kv => assoc_set (fst kv) (pval_of_arg (snd kv)) d) args d.

Definition has_dot_or_bracket (e : string) : bool := includes "." e || includes "[" e.

(** The [matches.forEach] of an inline block, on the [nested] object. *)
Definition inner_field (nested : pprops) (f : string) : res pprops :=
  if starts_with "..." f then push_frag (slice_from 3 f) nested
  else match exec re_alias f with
       | Some m =>
           let alias := m_grp f m 1 in
           let expr := m_grp f m 2 in
           if has_dot_or_bracket expr then Ok (assoc_set alias (PFunIn expr) nested)
           else Ok (assoc_set alias (PObj [("path", PStr expr)]) nested)
       | None => Ok (assoc_set (js_trim f) (PStr (js_trim f)) nested)
       end.

Fixpoint fold_res {A B} (f : A -> B -> res A) (xs : list B) (a : A) : res A :=
  match xs with
  | [] => Ok a
  | x :: xs' => match f a x with
                | Ok a' => fold_res f xs' a'
                | Throw e => Throw e
                | NoFuel => NoFuel
                end
  end.

Definition inner_fields (innerFields : string) : res pprops :=
  if String.eqb (js_trim innerFields) "" then Ok []
  else fold_res inner_field (match_all re_field innerFields) [].

Record pframe : Type := mkFrame {
  fr_parent : pprops;
  fr_key : string;
  fr_directive : pprops
}.

Definition pstate : Type := pprops * list pframe.

Definition fill (child : pprops) (d : pprops) : pprops :=
  map (fun kv => (fst kv, match snd kv with PHole => PObj child | x => x end)) d.

Definition close (child : pprops) (fr : pframe) : pprops :=
  assoc_set (fr_key fr) (PObj (fill child (fr_directive fr))) (fr_parent fr).

Definition res_map {A B} (f : A -> B) (r : res A) : res B :=
  match r with Ok a => Ok (f a) | Throw e => Throw e | NoFuel => NoFuel end.

Definition res_bind {A B} (r : res A) (f : A -> res B) : res B :=
  match r with Ok a => f a | Throw e => Throw e | NoFuel => NoFuel end.

(** The line-by-line steps after the inline directives: blocks, fragment
    spreads, [}] and plain fields. *)
Definition step_rest (rootData : val) (line : string) (cur : pprops) (ctx : list pframe)
  : res pstate :=
  match exec re_inline line with
  | Some m =>
      let key := m_grp line m 1 in
      let argsPart := m_group line m 2 in
      let innerFields := m_grp line m 3 in
      res_bind (match argsPart with
                | Some a => if String.eqb a "" then Ok []
                            else parseArgs (js_trim (slice_drop_last 1 a))
                | None => Ok []
                end) (fun args =>
      res_bind (inner_fields innerFields) (fun nested =>
      Ok (assoc_set key (PObj (assign_args args [("nested", PObj nested)])) cur, ctx)))
  | None =>
  if starts_with "..." line then
    res_map (fun cur' => (cur', ctx)) (push_frag (js_trim (slice_from 3 line)) cur)
  else if ends_with "{" line then
    let header := js_trim (slice_drop_last 0 line) in
    let directive := [("nested", PHole)] in
    let '(directive, header) :=
      match exec re_hskip header with
      | Some m => (assoc_set "skipIf" (PStr (m_grp header m 1)) directive,
                   js_trim (replace_first (m_text header m) header))
      | None => (directive, header)
      end in
    let '(directive, header) :=
      match exec re_hinclude header with
      | Some m => (assoc_set "includeIf" (PStr (m_grp header m 1)) directive,
                   js_trim (replace_first (m_text header m) header))
      | None => (directive, header)
      end in
    res_bind (match exec re_paren header with
              | Some m =>
                  res_map (fun args => (js_trim (m_grp header m 1), assign_args args directive))
                    (parseArgs (js_trim (m_grp header m 2)))
              | None => Ok (header, directive)
              end) (fun kd =>
    Ok ([], mkFrame cur (fst kd) (snd kd) :: ctx))
  else if String.eqb line "}" then
    match ctx with
    | [] => Ok (cur, ctx)
    | fr :: ctx' => Ok (close cur fr, ctx')
    end
  else
    let normal :=
      match exec re_alias line with
      | Some m =>
          let alias := m_grp line m 1 in
          let expr := m_grp line m 2 in
          if has_dot_or_bracket expr then Ok (assoc_set alias (PFunTop expr rootData) cur, ctx)
          else Ok (assoc_set alias (PObj [("path", PStr expr)]) cur, ctx)
      | None => Ok (assoc_set line (PStr line) cur, ctx)
      end in
    if includes "{" line then
      match exec re_inline line with
      | Some m =>
          res_bind (inner_fields (m_grp line m 3)) (fun nested =>
          Ok (assoc_set (m_grp line m 1) (PObj [("nested", PObj nested)]) cur, ctx))
      | None => normal
      end
    else normal
  end.

(** One line of the loop [for (let line of lines)]. *)
Definition step (rootData : val) (st : pstate) (line0 : string) : res pstate :=
  let line := js_trim (drop_comma line0) in
  let '(cur, ctx) := st in
  match exec re_skip line with
  | Some m => Ok (assoc_set (m_grp line m 1) (PObj [("skipIf", PStr (m_grp line m 2))]) cur, ctx)
  | None =>
  match exec re_include line with
  | Some m => Ok (assoc_set (m_grp line m 1) (PObj [("includeIf", PStr (m_grp line m 2))]) cur, ctx)
  | None =>
  match exec re_default line with
  | Some m =>
      let line' := js_trim (replace_first (m_text line m) line) in
      Ok (assoc_set line' (PObj [("default", PStr (m_grp line m 1))]) cur, ctx)
  | None =>
  match exec re_transform line with
  | Some m =>
      Ok (assoc_set (m_grp line m 1)
            (PObj [("path", PStr (m_grp line m 2)); ("transform", PStr (m_grp line m 3))]) cur, ctx)
  | None => step_rest rootData line cur ctx
  end end end end.

(** The objects left on the stack at the end are attached where they were
    pushed. *)
Fixpoint close_all (cur : pprops) (ctx : list pframe) : pprops :=
  match ctx with
  | [] => cur
  | fr :: ctx' => close_all (close cur fr) ctx'
  end.

(** [queryStr.split("\n").map((l) => l.trim()).filter((l) => l && !l.startsWith("#"))] *)
Definition query_lines (queryStr : string) : list string :=
  List.filter (fun l => negb (String.eqb l "") && negb (starts_with "#" l))
    (map js_trim (js_split (String (ascii_of_nat 10) EmptyString) queryStr)).

Definition parse_lines (rootData : val) (lines : list string) (st : pstate) : res pstate :=
  fold_res (step rootData) lines st.

(** [parseQuery(queryStr, rootData)] *)
Definition parseQuery (queryStr : string) (rootData : val) : res pprops :=
  res_map (fun st => close_all (fst st) (snd st))
    (parse_lines rootData (query_lines queryStr) ([], [])).

(** ** Definitions used by the statements below *)

Definition all_ascii : list ascii := map ascii_of_nat (List.seq 0 256).

(** [needs q r]: every match of [r] consumes a character satisfying [q]. *)
Fixpoint needs (q : ascii -> bool) (r : regex) : bool :=
  match r with
  | RClass p => forallb (fun ch => negb (p ch) || q ch) all_ascii
  | RSeq a b => needs q a || needs q b
  | RAlt a b => needs q a && needs q b
  | RGroup _ a => needs q a
  | _ => false
  end.

(** [s.split(d)] for a one-character separator, read character by
    character. *)
Fixpoint split1 (d : ascii) (s cur : string) : list string :=
  match s with
  | EmptyString => [cur]
  | String c s' => if Ascii.eqb c d then cur :: split1 d s' "" else split1 d s' (cur ++ String c "")
  end.

(** [s] does not contain the character [c]. *)
Definition no_char (c : ascii) (s : string) : bool :=
  all_chars (fun ch => negb (Ascii.eqb ch c)) s.

Definition nl : string := String (ascii_of_nat 10) EmptyString.

(** A line that [parseQuery] reads as a plain field: trimmed, not empty,
    not a comment, without a trailing comma, without the characters [@], [:],
    [{] and a line break, not a fragment spread and not [}]. *)
Definition plain_line (l : string) : bool :=
  String.eqb (js_trim l) l && negb (String.eqb l "") && negb (ends_with "," l)
  && no_char "@" l && no_char ":" l && no_char "{" l && no_char (ascii_of_nat 10) l
  && negb (starts_with "..." l) && negb (starts_with "#" l) && negb (String.eqb l "}").

(** A one-character string of a double quote. *)
Definition dqs : string := String dq EmptyString.

(** The line [k @skip(if: "cond")] followed by [rest]. *)
Definition skip_line (k cond rest : string) : string :=
  String.append k (String.append " @skip(if: "
    (String.append dqs (String.append cond (String.append dqs (String.append ")" rest))))).

(** The value [parseArgs] gives to the key [k] for the text [v]. *)
Definition arg_value (k v : string) : argval :=
  if String.eqb k "limit" || String.eqb k "skip" then ANum (parse_int (Some v)) else AStr v.

(** [k1: v1, k2: v2, ...] *)
Definition args_text (kvs : list (string * string)) : string :=
  String.concat ", " (map (fun kv => String.append (fst kv) (String.append ": " (snd kv))) kvs).

(** A character of an unquoted argument value: no quote, comma or colon. *)
Definition plain_value_char (c : ascii) : bool :=
  negb (is_quote c) && negb (Ascii.eqb c ",") && negb (Ascii.eqb c ":").

(** An argument with a word as key and a trimmed value of
    [plain_value_char]s. *)
Definition plain_arg (kv : string * string) : bool :=
  all_chars is_word (fst kv) && negb (String.eqb (fst kv) "")
  && all_chars plain_value_char (snd kv) && String.eqb (js_trim (snd kv)) (snd kv).

(** ** Helpers for the statements about the matcher, [mergeDeep] and [shape] *)

(** The characters [s[i..e)] all satisfy [p]. *)
Definition run_of (p : ascii -> bool) (s : string) (i e : nat) : Prop :=
  forall j, i <= j < e -> exists ch, String.get j s = Some ch /\ p ch = true.

(** The character at [e], if any, does not satisfy [p]. *)
Definition stops (p : ascii -> bool) (s : string) (e : nat) : Prop :=
  match String.get e s with Some ch => p ch = false | None => True end.

(** [target] after [mergeDeep(target, source)] when every value of [source]
    is assigned as is: [target[k] = source[k]] for each key [k] in turn,
    [__fragments] skipped. *)
Definition merge_prims (h : heap) (source : val) (ks : list string) (ps : list (string * val)) :=
  fold_left (fun ps k => if String.eqb k "__fragments" then ps
                         else assoc_set k (get_own h source k) ps) ks ps.

(** The same directive without its [skipIf] (resp. [includeIf]) attribute. *)
Definition drop_skipIf {Q} (d : directive Q) : directive Q :=
  mkDirective (path d) None (includeIf d) (nested d) (filter d) (default d)
    (transform d) (limit d) (skip d).

Definition drop_includeIf {Q} (d : directive Q) : directive Q :=
  mkDirective (path d) (skipIf d) None (nested d) (filter d) (default d)
    (transform d) (limit d) (skip d).

(** * Properties *)

(** ** Helper lemmas *)

Lemma autoResolve_cyclic_x (f : nat) (h : heap) :
  hstore h 0 = OObj [("name", VStr "root"); ("self", VRef 0)] ->
  autoResolve f h (VRef 0) "x" = NoFuel.
Proof.
  intros Hh. induction f as [|f IH]; [reflexivity|].
  simpl. rewrite Hh. simpl. rewrite Hh. simpl. rewrite IH. reflexivity.
Qed.

Lemma shape_frags_contextKey df (rec : rec_t) data reg names :
  (forall d q' c1 c2, rec d q' c1 = rec d q' c2) ->
  forall c1 c2 result,
    shape_frags df rec data reg c1 names result
    = shape_frags df rec data reg c2 names result.
Proof.
  intros Hrec c1 c2. induction names as [|nm ns IH]; intros result; [reflexivity|].
  simpl. destruct (assoc nm reg) as [fq|]; [|apply IH].
  rewrite (Hrec data fq c1 c2). unfold bind.
  apply functional_extensionality; intros h.
  destruct (rec data fq c2 h) as [[h1 r]| |]; [|reflexivity|reflexivity].
  destruct (merge_into_result df result r h1) as [[h2 r2]| |]; [apply (f_equal (fun m => m h2)), IH|reflexivity|reflexivity].
Qed.

(** ** C1 *)

(** C1 (shape mirroring).  A computed field whose expression evaluates to
    [undefined] is stored as [undefined], not [null]: with data
    [{ user: {} }] and the query text [x: user.name] the result is
    [{ x: undefined }]. *)
Theorem computed_field_unresolved_is_undefined :
  result_json (shape_top js_eval_paths 5 5 (VRef 0) q_user_name_expr h_user_empty)
  = Some (JObj [("x", JUndef)]).
Proof. vm_compute. reflexivity. Qed.

(** ** C2 *)

(** C2 (never raises).  [parseArgs] throws a [TypeError] on an argument with
    no colon whose key is not [limit] or [skip] ([v.replace] on
    [undefined]), while the same shape of argument with key [limit] is
    accepted. *)
Theorem parseArgs_key_without_value_throws :
  parseArgs "foo" = Throw TypeErrorNull /\
  parseArgs "limit" = Ok [("limit", ANum None)].
Proof. split; vm_compute; reflexivity. Qed.

(** ** C3 *)

(** On the cyclic data [{ name: "root", self: data }] the query text [x]
    (a key found nowhere) never returns, whatever the budgets:
    [autoResolve] walks [self] forever. *)
Lemma shape_cyclic_missing_key (df qf : nat) :
  shape_top js_eval_paths df qf (VRef 0) q_x h_cyclic = NoFuel.
Proof.
  destruct qf as [|qf]; [reflexivity|].
  cbv -[autoResolve].
  rewrite autoResolve_cyclic_x by reflexivity. reflexivity.
Qed.

(** ** Recursion of [shape] follows the query *)

Lemma list_max_In (n : nat) (l : list nat) : In n l -> n <= list_max l.
Proof.
  intros Hin. pose proof (proj1 (list_max_le l (list_max l)) (le_n _)) as Hf.
  rewrite Forall_forall in Hf. exact (Hf n Hin).
Qed.

Lemma qdepth_sub (fs : list (string * field)) fr k fld q' :
  In (k, fld) fs -> field_sub fld = Some q' -> qdepth q' < qdepth (Query fs fr).
Proof.
  intros Hin Hs. simpl. apply le_n_S, list_max_In, in_map_iff.
  exists (k, fld). split; [|exact Hin].
  destruct fld as [e|e rd|d|q0|s|v]; simpl in Hs; try discriminate.
  - destruct d as [p si ii [n0|] fi de tr li sk]; simpl in Hs; inversion Hs; reflexivity.
  - inversion Hs; reflexivity.
Qed.

Lemma shape_field_sub ev df (rec : rec_t) key fld st root q' :
  field_sub fld = Some q' ->
  shape_field ev df rec key fld st root
  = shape_field ev df (fun x _ ck => rec x q' ck) key fld st root.
Proof.
  destruct fld as [e|e rd|d|q0|s|v]; simpl; intros Hs; try discriminate.
  - destruct d as [p si ii [n0|] fi de tr li sk]; simpl in Hs; inversion Hs; subst.
    reflexivity.
  - inversion Hs; subst. reflexivity.
Qed.

Lemma shape_field_nosub ev df (rec1 rec2 : rec_t) key fld st root :
  field_sub fld = None ->
  shape_field ev df rec1 key fld st root = shape_field ev df rec2 key fld st root.
Proof.
  destruct fld as [e|e rd|d|q0|s|v]; simpl; intros Hs; try discriminate; try reflexivity.
  destruct d as [p si ii [n0|] fi de tr li sk]; simpl in Hs; [discriminate|].
  reflexivity.
Qed.

Lemma shape_fields_ext ev df (rec1 rec2 : rec_t) data root fs :
  (forall k fld q', In (k, fld) fs -> field_sub fld = Some q' ->
     forall d ck, rec1 d q' ck = rec2 d q' ck) ->
  forall result,
    shape_fields ev df rec1 data root fs result
    = shape_fields ev df rec2 data root fs result.
Proof.
  induction fs as [|[k fld] fs IH]; intros Hr result; [reflexivity|].
  simpl. destruct (String.eqb k "__fragments").
  { apply IH. intros k' fld' q' Hin. apply (Hr k' fld' q'). right; exact Hin. }
  assert (E : forall st, shape_field ev df rec1 k fld st root
                         = shape_field ev df rec2 k fld st root).
  { intros st. destruct (field_sub fld) as [q'|] eqn:Es.
    - rewrite (shape_field_sub ev df rec1 k fld st root q' Es),
              (shape_field_sub ev df rec2 k fld st root q' Es).
      f_equal. apply functional_extensionality; intros x.
      apply functional_extensionality; intros y.
      apply functional_extensionality; intros ck.
      apply (Hr k fld q'); [left; reflexivity | exact Es].
    - apply shape_field_nosub. exact Es. }
  assert (IH' : forall result,
             shape_fields ev df rec1 data root fs result
             = shape_fields ev df rec2 data root fs result).
  { apply IH. intros k' fld' q' Hin. apply (Hr k' fld' q'). right; exact Hin. }
  unfold bind. apply functional_extensionality; intros h.
  destruct (safe_target data h) as [[h1 st]| |]; [|reflexivity|reflexivity].
  rewrite E. destruct (shape_field ev df rec2 k fld st root h1) as [[h2 v]| |];
    [|reflexivity|reflexivity].
  rewrite IH'. reflexivity.
Qed.

(** Without a fragment registry, [qdepth q] levels of [shape] recursion are
    enough: any larger budget gives the same computation. *)
Lemma shape_fuel_stable ev df :
  forall n q m data rd ck,
    qdepth q <= n ->
    shape ev df (n + m) data q None rd ck = shape ev df n data q None rd ck.
Proof.
  induction n as [|n IH]; intros q m data rd ck Hd.
  - destruct q; simpl in Hd; lia.
  - destruct q as [fs fr].
    assert (Hsub : forall k fld q', In (k, fld) fs -> field_sub fld = Some q' ->
                                    qdepth q' <= n).
    { intros k fld q' Hin Hs. pose proof (qdepth_sub fs fr k fld q' Hin Hs). lia. }
    change (S n + m) with (S (n + m)).
    cbn [shape q_frags q_fields].
    destruct fr as [names|]; cbn;
    f_equal; apply functional_extensionality; intros result;
    (rewrite (shape_fields_ext ev df
               (fun d q' ck0 => shape ev df (n + m) d q' None (coalesce rd data) ck0)
               (fun d q' ck0 => shape ev df n d q' None (coalesce rd data) ck0));
     [reflexivity|]);
    intros k fld q' Hin Hs d ck0; apply IH; exact (Hsub k fld q' Hin Hs).
Qed.

Lemma shape_contextKey_irrelevant ev df :
  forall n data q fr rd ck1 ck2,
    shape ev df n data q fr rd ck1 = shape ev df n data q fr rd ck2.
Proof.
  induction n as [|n IH]; intros data q fr rd ck1 ck2; [reflexivity|].
  cbn [shape]. destruct (q_frags q) as [names|]; destruct fr as [reg|]; try reflexivity.
  rewrite (shape_frags_contextKey df
             (fun d q' ck => shape ev df n d q' (Some reg) (coalesce rd data) ck)
             data reg names (fun d q' c1 c2 => IH d q' (Some reg) (coalesce rd data) c1 c2)
             ck1 ck2).
  reflexivity.
Qed.

(** C3 (cyclic data).  Without a fragment registry the recursion of
    [shape] itself is bounded by the nesting depth of the query: with
    [qdepth q] levels or more the computation is the same, whatever the
    data; on data [{ name: "root", self: data }] the query
    [{ name: "name", self: { name: "name" } }] returns
    [{ name: "root", self: { name: "root" } }] for every budget of at least
    its depth 2.  The recursion of [autoResolve] is driven by the data and
    has no visited set: on the same data the query text [x] never returns. *)
Theorem shape_cyclic_data_recursion :
  (forall ev df q n m data rd ck,
     qdepth q <= n ->
     shape ev df (n + m) data q None rd ck = shape ev df n data q None rd ck) /\
  (forall df n,
     2 <= n ->
     result_json (shape_top js_eval_paths df n (VRef 0) q_name_self h_cyclic)
     = Some (JObj [("name", JStr "root"); ("self", JObj [("name", JStr "root")])])) /\
  (forall df qf, shape_top js_eval_paths df qf (VRef 0) q_x h_cyclic = NoFuel).
Proof.
  split; [|split].
  - intros ev df q n m data rd ck Hd. apply shape_fuel_stable. exact Hd.
  - intros df n Hn. replace n with (2 + (n - 2)) by lia. unfold shape_top.
    rewrite shape_fuel_stable by (vm_compute; lia).
    vm_compute. reflexivity.
  - exact shape_cyclic_missing_key.
Qed.

Lemma shape_cyclic_data_recursion_witness :
  2 <= 4 /\
  result_json (shape_top js_eval_paths 3 4 (VRef 0) q_name_self h_cyclic)
  = Some (JObj [("name", JStr "root"); ("self", JObj [("name", JStr "root")])]).
Proof.
  split; [lia|].
  apply (proj1 (proj2 shape_cyclic_data_recursion) 3 4). lia.
Defined.

(** ** C6 *)

(** C6 (parent key), code bug.  [shape] passes the key that introduced
    each recursion level down as [contextKey] but never reads it: its result
    does not depend on it, and expressions see only the root, the current
    data and the parameters [data] and [root].  With data
    [{ a: { b: { c: 1 } } }] the query text [a { b { x: b.c } }] therefore
    gives [x = null], where the spec binds the parent key [b] to the
    current data; with that binding the same expression gives [1]. *)
Theorem shape_contextKey_unused :
  (forall ev df n data q fr rd ck1 ck2,
     shape ev df n data q fr rd ck1 = shape ev df n data q fr rd ck2) /\
  result_json (shape_top js_eval_paths 5 5 (VRef 0) q_abc h_abc)
  = Some (JObj [("a", JObj [("b", JObj [("x", JNull)])])]) /\
  snd (js_eval_paths h_abc
         [FParams [("b", VRef 2)]; FWith (VRef 0); FWith (VRef 2);
          FParams [("data", VRef 2); ("root", VRef 0)]] "b.c")
  = Some (VNum 1).
Proof.
  split; [intros; apply shape_contextKey_irrelevant|].
  split; vm_compute; reflexivity.
Qed.

(** ** The array pipeline *)

Lemma bind_Ok {A B} (m : M A) (k : A -> M B) h h' a :
  m h = Ok (h', a) -> bind m k h = k a h'.
Proof. intros E. unfold bind. rewrite E. reflexivity. Qed.

Lemma evalNestedField_pure ev e data root h :
  (forall h0 sc e0, fst (ev h0 sc e0) = h0) ->
  evalNestedField ev e data root h = Ok (h, eval_value ev h e data root).
Proof.
  intros Hp. unfold evalNestedField, eval_value.
  pose proof (Hp h [FWith root; FWith data; FParams [("data", data); ("root", root)]] e) as E.
  destruct (ev h _ e) as [h' r]. simpl in E. subst h'. reflexivity.
Qed.

Lemma filterM_pure {A} (p : A -> M bool) (g : A -> bool) xs h :
  (forall x, p x h = Ok (h, g x)) ->
  filterM p xs h = Ok (h, List.filter g xs).
Proof.
  intros Hp. induction xs as [|x xs IH]; [reflexivity|].
  simpl. unfold bind. rewrite Hp, IH. simpl. destruct (g x); reflexivity.
Qed.

Lemma js_slice_from (its : list val) (s : Z) :
  (0 <= s)%Z -> js_slice its s None = skipn (Z.to_nat s) its.
Proof.
  intros Hs. unfold js_slice, slice_bound.
  destruct (Z.ltb_spec s 0) as [H|H]; [lia|].
  rewrite firstn_all2 by (rewrite length_skipn; lia).
  destruct (Nat.le_gt_cases (length its) (Z.to_nat s)) as [Hle|Hgt].
  - rewrite !skipn_all2; [reflexivity|lia|lia].
  - f_equal. lia.
Qed.

Lemma js_slice_upto (its : list val) (n : Z) :
  (0 <= n)%Z -> js_slice its 0 (Some n) = firstn (Z.to_nat n) its.
Proof.
  intros Hn. unfold js_slice, slice_bound. simpl.
  destruct (Z.ltb_spec n 0) as [H|H]; [lia|].
  rewrite (Z.min_l 0) by lia. simpl. rewrite Nat.sub_0_r.
  destruct (Nat.le_gt_cases (length its) (Z.to_nat n)) as [Hle|Hgt].
  - rewrite !firstn_all2; [reflexivity|lia|lia].
  - f_equal. lia.
Qed.

(** ** C4 *)

(** C4, counterexample.  With data [{ items: [{ v: 1 }] }] and the query
    object [{ items: { filter: "v", skip: 0, limit: 5 } }] the item is kept:
    its filter value is [1], which is not [true]. *)
Lemma filter_keeps_truthy_items :
  result_json (shape_top js_eval_paths 5 5 (VRef 0) q_items h_items)
  = Some (JObj [("items", JArr [JObj [("v", JNum 1)]])]) /\
  strict_true (eval_value js_eval_paths h_items "v" (VRef 2) (VRef 0)) = false.
Proof. split; vm_compute; reflexivity. Qed.

Lemma filterM_select ev f root (p : val -> M bool) items :
  (forall it h, p it h =
     let '(h1, r) := ev h [FWith root; FWith it; FParams [("data", it); ("root", root)]] f in
     Ok (h1, truthy (match r with Some v => v | None => VNull end))) ->
  forall h, filterM p items h = Ok (select_items ev h f root items).
Proof.
  intros Hp. induction items as [|it its IH]; intros h; [reflexivity|].
  cbn [filterM select_items]. unfold bind. rewrite Hp.
  destruct (ev h _ f) as [h1 r]. rewrite IH.
  destruct (select_items ev h1 f root its) as [h2 kept]. reflexivity.
Qed.

(** C4 (pipeline order), amended.  For an array value and a directive with
    [filter], [skip] and [limit] (both non-negative), the array produced is
    [take(drop(select(array, pred), skip), limit)], where [pred] keeps the
    items whose filter value is truthy ([!!]), the expression being
    evaluated on each item in array order with the root and the item in
    scope ([select_items], for any evaluator, effects on the heap
    included).  ([nested], if set, then maps [shape] over this array.) *)
Theorem array_pipeline_filter_skip_limit ev (d : directive query) root value h f s n :
  set_str (filter d) = Some f -> skip d = Some s -> limit d = Some n ->
  (0 <= s)%Z -> (0 <= n)%Z ->
  match array_pipeline ev d root value h with
  | Ok (h', v) =>
      array_items h' v
      = firstn (Z.to_nat n) (skipn (Z.to_nat s)
          (snd (select_items ev h f root (array_items h value))))
  | _ => False
  end.
Proof.
  intros Hf Hs Hl Hs0 Hn0.
  unfold array_pipeline. rewrite Hf, Hs, Hl.
  unfold bind, get_heap, fresh. cbv beta iota.
  rewrite (filterM_select ev f root)
    by (intros it h0; unfold evalNestedField; destruct (ev h0 _ f); reflexivity).
  destruct (select_items ev h f root (array_items h value)) as [h2 kept].
  cbn -[js_slice]. rewrite !Nat.eqb_refl. cbn -[js_slice].
  rewrite js_slice_from, js_slice_upto by assumption. reflexivity.
Qed.

Lemma array_pipeline_filter_skip_limit_witness :
  match array_pipeline js_eval_paths dir_items5 (VRef 0) (VRef 1) h_items5 with
  | Ok (h', v) =>
      array_items h' v
      = firstn (Z.to_nat 2) (skipn (Z.to_nat 1)
          (snd (select_items js_eval_paths h_items5 "v" (VRef 0) (array_items h_items5 (VRef 1)))))
  | _ => False
  end /\
  firstn (Z.to_nat 2) (skipn (Z.to_nat 1)
    (snd (select_items js_eval_paths h_items5 "v" (VRef 0) (array_items h_items5 (VRef 1)))))
  = [VRef 4; VRef 5] /\
  skipn (Z.to_nat 1) (firstn (Z.to_nat 2)
    (snd (select_items js_eval_paths h_items5 "v" (VRef 0) (array_items h_items5 (VRef 1)))))
  = [VRef 4].
Proof.
  split; [|split; vm_compute; reflexivity].
  apply (array_pipeline_filter_skip_limit js_eval_paths dir_items5 (VRef 0) (VRef 1)
           h_items5 "v" 1 2); (reflexivity || lia).
Defined.

(** ** C5 *)

(** C5, counterexample.  With data [{ user: { name: "J" }, name: "R" }] and
    the query text [user { name }], the leaf is ["R"]: the expression [name]
    is evaluated first, and the root, whose bindings come first in the
    scope, has a [name].  A path lookup on the current data gives ["J"]. *)
Lemma literal_field_evaluates_first :
  result_json (shape_top js_eval_paths 5 5 (VRef 0) q_user_block h_user_shadow)
  = Some (JObj [("user", JObj [("name", JStr "R")])]) /\
  getByPath h_user_shadow (VRef 1) "name" = VStr "J".
Proof. split; vm_compute; reflexivity. Qed.

(** C5 (Literal fields), amended.  A string field [s] is resolved by
    evaluating [s] as an expression (the root, then the current data in
    scope; an exception gives [null]); if that is [null] or [undefined], by a
    path lookup of [s] on the current data; if that is [null] too, by
    auto-resolve of [s] on the root; otherwise [null].  The root is never
    searched by path lookup. *)
Theorem literal_field_resolution ev df (rec : rec_t) key s st root h :
  shape_field ev df rec key (FStr s) st root h = literal_spec ev df s st root h.
Proof.
  unfold shape_field, literal_spec, evalNestedField, bind, get_heap, lift, ret.
  destruct (ev h _ s) as [h1 r]. cbv beta iota.
  destruct (negb (nullish _)); [reflexivity|].
  destruct (negb (nullish (getByPath h1 st s))); [reflexivity|].
  destruct (autoResolve df h1 root s); reflexivity.
Qed.

(** ** C7 *)

(** C7, counterexample.  With data [{ user: "John" }] and the query text
    [user { name }], the field [user] is ["John"], neither [null] nor an
    empty array. *)
Lemma scalar_under_nested_directive_kept :
  result_json (shape_top js_eval_paths 5 5 (VRef 0) q_user_block h_user_scalar)
  = Some (JObj [("user", JStr "John")]).
Proof. vm_compute. reflexivity. Qed.

(** C7 (structural mismatch), amended.  A mismatch between the shape the
    query expects and the data is neither converted nor reported.  For a
    directive without [skipIf]/[includeIf]/[path]/[transform] whose data
    value [v] is not [null]/[undefined], the field stores [v] itself, with
    no exception, when [v] is a scalar (with or without [nested]) and when
    [v] is an object or an array and the directive has no [nested] (and no
    [filter]/[skip]/[limit]). *)
Theorem directive_mismatch_value_passes_through ev df (rec : rec_t) key
  (d : directive query) st root h v :
  set_str (skipIf d) = None -> set_str (includeIf d) = None ->
  set_str (path d) = None -> set_str (transform d) = None ->
  nullish st = false -> get_own h st key = v -> nullish v = false ->
  is_object v = false \/
  (nested d = None /\ set_str (filter d) = None /\ skip d = None /\ limit d = None) ->
  shape_directive ev df rec key d st root h = Ok (h, v).
Proof.
  intros Hs Hi Hp Ht Hst Hv Hn Hcase.
  unfold shape_directive. rewrite Hs, Hi, Hp, Ht.
  unfold bind, get_heap, lift, ret, get_prop. rewrite Hst. cbv beta iota.
  cbv beta iota delta [negb]. rewrite Hv, Hn. cbv beta iota.
  rewrite Hn. cbn [andb]. cbv beta iota.
  destruct Hcase as [Ho | (Hne & Hf & Hk & Hl)].
  - destruct v as [| |b|z|str|l]; try discriminate; reflexivity.
  - destruct (is_array h v) eqn:Ea.
    + unfold shape_array, array_pipeline, bind, get_heap, ret.
      rewrite Hf, Hk, Hl, Hne. reflexivity.
    + destruct (is_object v); [rewrite Hne; reflexivity|].
      destruct v; try discriminate; reflexivity.
Qed.

Lemma directive_mismatch_value_passes_through_witness :
  shape_directive js_eval_paths 5 (fun _ _ _ => ret VNull) "user"
    (dir_nested (Query [("name", FStr "name")] None)) (VRef 0) (VRef 0)
    h_user_scalar
  = Ok (h_user_scalar, VStr "John") /\
  shape_directive js_eval_paths 5 (fun _ _ _ => ret VNull) "user"
    (dir0 : directive query) (VRef 0) (VRef 0) h_user_shadow
  = Ok (h_user_shadow, VRef 1).
Proof.
  split.
  - apply directive_mismatch_value_passes_through; try reflexivity. left. reflexivity.
  - apply directive_mismatch_value_passes_through; try reflexivity.
    right. repeat split.
Defined.

(** ** C8 *)

Lemma resolve_part_spec ev df p st root h :
  resolve_part ev df p st root h = alternative_spec ev df p st root h.
Proof.
  unfold resolve_part, alternative_spec, evalNestedField, bind, get_heap, lift, ret.
  cbv beta iota.
  destruct (negb (nullish (getByPath h st p))); [reflexivity|].
  destruct (negb (nullish (getByPath h root p))); [reflexivity|].
  destruct (autoResolve df h root p) as [c| |]; [|reflexivity|reflexivity].
  destruct (negb (nullish c)); [reflexivity|].
  destruct (ev h _ p); reflexivity.
Qed.

Lemma resolve_parts_spec ev df parts :
  forall value st root h,
    resolve_parts ev df parts value st root h = chain_spec ev df parts value st root h.
Proof.
  induction parts as [|p ps IH]; intros value st root h; [reflexivity|].
  simpl. unfold bind. rewrite resolve_part_spec.
  destruct (alternative_spec ev df p st root h) as [[h1 v]| |]; [|reflexivity|reflexivity].
  destruct (negb (nullish v)); [reflexivity|]. apply IH.
Qed.

(** C8, counterexample.  With data [{ a: { b: 1 }, c: { "a.b": 2 } }] and
    the query object [{ c: { nested: { v: { path: "a.b" } } } }], [v] is
    [1], found by a path lookup on the root; the order of the claim (path
    lookup on the current data, auto-resolve on the root, evaluation) gives
    [2]. *)
Lemma path_alternative_checks_root_path :
  result_json (shape_top js_eval_paths 5 5 (VRef 0) q_dotted h_dotted)
  = Some (JObj [("c", JObj [("v", JNum 1)])]) /\
  claimed_alternative js_eval_paths 5 "a.b" (VRef 2) (VRef 0) h_dotted = Some (VNum 2).
Proof. split; vm_compute; reflexivity. Qed.

(** C8 (fallback chain), amended.  A [path] is split on [||] and each
    alternative trimmed; the alternatives are tried left to right, each by
    path lookup on the current data, then path lookup on the root, then
    auto-resolve on the root, then evaluation as an expression (a quoted
    literal is found by this last step); the first value that is not
    [null]/[undefined] is taken, else the value of the last alternative.
    [path: a || b || "X"] on [{ a: null, b: undefined }] gives ["X"]. *)
Theorem path_chain_resolution :
  (forall ev df p st root h,
     resolve_path ev df p st root h
     = chain_spec ev df (map js_trim (js_split "||" p)) VNull st root h) /\
  result_json (shape_top js_eval_paths 5 5 (VRef 0) q_chain h_ab)
  = Some (JObj [("x", JStr "X")]).
Proof.
  split.
  - intros. unfold resolve_path. apply resolve_parts_spec.
  - vm_compute. reflexivity.
Qed.

(** ** C9 *)

Lemma first_non_null_app (a b : list val) :
  first_non_null (a ++ b)
  = if is_null (first_non_null a) then first_non_null b else first_non_null a.
Proof.
  unfold first_non_null. induction a as [|x a IH]; simpl; [reflexivity|].
  destruct (is_null x) eqn:E; simpl; [exact IH|]. rewrite E. reflexivity.
Qed.

Lemma autoResolve_keys_hits (rec : val -> res val) (hrec : val -> res (list val))
  h o ks :
  (forall v L, hrec v = Ok L -> rec v = Ok (first_non_null L)) ->
  forall L, hits_keys hrec h o ks = Ok L ->
  autoResolve_keys rec h o ks = Ok (first_non_null L).
Proof.
  intros Hrec. induction ks as [|k ks IH]; intros L H; simpl in *.
  - inversion H; subst. reflexivity.
  - destruct (is_object (get_own h o k)); [|apply IH; exact H].
    destruct (hrec (get_own h o k)) as [a| |] eqn:Ea;
      destruct (hits_keys hrec h o ks) as [b| |] eqn:Eb; try discriminate.
    inversion H; subst L.
    rewrite (Hrec _ _ Ea), first_non_null_app.
    destruct (is_null (first_non_null a)); [apply IH; reflexivity|reflexivity].
Qed.

Lemma autoResolve_hits :
  forall fuel h o key L,
    hits fuel h o key = Ok L -> autoResolve fuel h o key = Ok (first_non_null L).
Proof.
  induction fuel as [|f IH]; intros h o key L H; [discriminate|].
  simpl in *. destruct (nullish o); [inversion H; reflexivity|].
  destruct (is_undef (get_own h o key)) eqn:Eu; simpl in *.
  - apply (autoResolve_keys_hits _ (fun v => hits f h v key)); [|exact H].
    intros v L' Hv. apply IH. exact Hv.
  - inversion H; subst L. unfold first_non_null. simpl.
    destruct (get_own h o key); try reflexivity; discriminate.
Qed.

(** C9 (auto-resolve).  Whenever the search fits the budget, [autoResolve]
    returns the first non-[null] value among those met by a pre-order walk
    that tests [node[key]] first and otherwise descends into the object and
    array values of the node in key order ([null] when there is none).  With
    data [{ profile: { info: { email: "x@y.com" } } }] the query text [email]
    gives ["x@y.com"]. *)
Theorem autoResolve_first_non_null_preorder :
  (forall fuel h o key L,
     hits fuel h o key = Ok L -> autoResolve fuel h o key = Ok (first_non_null L)) /\
  result_json (shape_top js_eval_paths 5 5 (VRef 0) q_email h_email)
  = Some (JObj [("email", JStr "x@y.com")]).
Proof.
  split; [exact autoResolve_hits|]. vm_compute. reflexivity.
Qed.

Lemma autoResolve_first_non_null_preorder_witness :
  hits 5 h_email (VRef 0) "email" = Ok [VStr "x@y.com"] /\
  autoResolve 5 h_email (VRef 0) "email" = Ok (first_non_null [VStr "x@y.com"]).
Proof.
  split; [vm_compute; reflexivity|].
  apply (proj1 autoResolve_first_non_null_preorder). vm_compute. reflexivity.
Defined.

(** ** No property read on [null]/[undefined] *)

(** [m] never throws the [TypeError] of a property access on [null] or
    [undefined], and its results satisfy [P]. *)
Definition safe {A} (P : A -> Prop) (m : M A) : Prop :=
  forall h, match m h with
            | Ok (_, a) => P a
            | Throw e => e <> TypeErrorNull
            | NoFuel => True
            end.

Definition no_null_read {A} (m : M A) : Prop := safe (fun _ => True) m.

Lemma safe_ret {A} (P : A -> Prop) (a : A) : P a -> safe P (ret a).
Proof. intros Ha h. exact Ha. Qed.

Lemma safe_bind {A B} (P : A -> Prop) (Q : B -> Prop) (m : M A) (k : A -> M B) :
  safe P m -> (forall a, P a -> safe Q (k a)) -> safe Q (bind m k).
Proof.
  intros Hm Hk h. unfold bind. specialize (Hm h).
  destruct (m h) as [[h' a]|e|]; [exact (Hk a Hm h')|exact Hm|exact I].
Qed.

Lemma safe_weaken {A} (P Q : A -> Prop) (m : M A) :
  safe P m -> (forall a, P a -> Q a) -> safe Q m.
Proof.
  intros Hm HPQ h. specialize (Hm h).
  destruct (m h) as [[h' a]|e|]; [exact (HPQ a Hm)|exact Hm|exact I].
Qed.

Lemma safe_get_heap : no_null_read get_heap.
Proof. intros h. exact I. Qed.

Lemma safe_fresh (o : obj) : safe (fun v => nullish v = false) (fresh o).
Proof. intros h. reflexivity. Qed.

Lemma safe_out_of_fuel {A} (P : A -> Prop) : safe P out_of_fuel.
Proof. intros h. exact I. Qed.

Lemma safe_lift_get_prop h x k : nullish x = false -> no_null_read (lift (get_prop h x k)).
Proof. intros Hx h0. unfold lift, get_prop. rewrite Hx. exact I. Qed.

Lemma autoResolve_keys_no_throw rec h o ks e :
  (forall v, rec v <> Throw e) -> autoResolve_keys rec h o ks <> Throw e.
Proof.
  intros Hrec. induction ks as [|k ks IH]; simpl; [discriminate|].
  destruct (is_object (get_own h o k)); [|exact IH].
  specialize (Hrec (get_own h o k)).
  destruct (rec (get_own h o k)) as [found|e'|]; [|exact Hrec|discriminate].
  destruct (is_null found); [exact IH|discriminate].
Qed.

Lemma autoResolve_no_throw f h o k e : autoResolve f h o k <> Throw e.
Proof.
  revert h o. induction f as [|f IH]; intros h o; simpl; [discriminate|].
  destruct (nullish o); [discriminate|].
  destruct (negb (is_undef (get_own h o k))); [discriminate|].
  apply autoResolve_keys_no_throw. intros v. apply IH.
Qed.

Lemma safe_lift_autoResolve f h0 o k : no_null_read (lift (autoResolve f h0 o k)).
Proof.
  intros h. unfold lift. pose proof (autoResolve_no_throw f h0 o k TypeErrorNull) as Hn.
  destruct (autoResolve f h0 o k) as [a|e|]; [exact I| |exact I].
  intros He. subst e. exact (Hn eq_refl).
Qed.

Lemma safe_evalNestedField ev e d r : no_null_read (evalNestedField ev e d r).
Proof. intros h. unfold evalNestedField. destruct (ev h _ e). exact I. Qed.

Lemma safe_apply_transform ev t v st : no_null_read (apply_transform ev t v st).
Proof. intros h. unfold apply_transform. destruct (ev h _ t). exact I. Qed.

Lemma set_prop_not_null_error h v k x e :
  nullish v = false -> set_prop h v k x = Throw e -> e <> TypeErrorNull.
Proof.
  intros Hv Hs. destruct v; simpl in *; try discriminate;
    try (inversion Hs; discriminate).
  destruct (hstore h l); [discriminate|]. destruct (index_of k); discriminate.
Qed.

Lemma safe_assign v k x : nullish v = false -> no_null_read (assign v k x).
Proof.
  intros Hv h. unfold assign. destruct (set_prop h v k x) as [h'|e|] eqn:E;
    [exact I| |exact I].
  exact (set_prop_not_null_error h v k x e Hv E).
Qed.

Lemma safe_filterM {A} (p : A -> M bool) xs :
  (forall x, no_null_read (p x)) -> no_null_read (filterM p xs).
Proof.
  intros Hp. induction xs as [|x xs IH]; simpl; [apply safe_ret; exact I|].
  apply (safe_bind (fun _ => True)); [apply Hp|]. intros b _.
  apply (safe_bind (fun _ => True)); [exact IH|]. intros ys _. apply safe_ret. exact I.
Qed.

Lemma safe_mapM {A B} (f : A -> M B) xs :
  (forall x, no_null_read (f x)) -> no_null_read (mapM f xs).
Proof.
  intros Hf. induction xs as [|x xs IH]; simpl; [apply safe_ret; exact I|].
  apply (safe_bind (fun _ => True)); [apply Hf|]. intros y _.
  apply (safe_bind (fun _ => True)); [exact IH|]. intros ys _. apply safe_ret. exact I.
Qed.

Ltac safe_seq := apply (safe_bind (fun _ => True)).
Ltac safe_done := apply safe_ret; exact I.

Lemma safe_resolve_part ev df p st root : no_null_read (resolve_part ev df p st root).
Proof.
  unfold resolve_part. safe_seq; [apply safe_get_heap|]. intros h _. cbv zeta.
  destruct (negb (nullish (getByPath h st p))); [safe_done|].
  destruct (negb (nullish (getByPath h root p))); [safe_done|].
  safe_seq; [apply safe_lift_autoResolve|]. intros c _.
  destruct (negb (nullish c)); [safe_done|apply safe_evalNestedField].
Qed.

Lemma safe_resolve_path ev df p st root : no_null_read (resolve_path ev df p st root).
Proof.
  unfold resolve_path. generalize VNull as value.
  induction (map js_trim (js_split "||" p)) as [|part ps IH]; intros value; simpl;
    [safe_done|].
  safe_seq; [apply safe_resolve_part|]. intros v _.
  destruct (negb (nullish v)); [safe_done|apply IH].
Qed.

Lemma safe_array_pipeline ev d root value : no_null_read (array_pipeline ev d root value).
Proof.
  unfold array_pipeline. safe_seq; [apply safe_get_heap|]. intros h _.
  safe_seq.
  { destruct (set_str (filter d)) as [f|]; [|safe_done].
    safe_seq.
    - apply safe_filterM. intros x. safe_seq; [apply safe_evalNestedField|].
      intros v _. safe_done.
    - intros kept _. apply (safe_weaken _ _ _ (safe_fresh _)). auto. }
  intros arr1 _. safe_seq.
  { destruct (skip d) as [n|]; [|safe_done].
    safe_seq; [apply safe_get_heap|]. intros h1 _.
    apply (safe_weaken _ _ _ (safe_fresh _)). auto. }
  intros arr2 _. destruct (limit d) as [n|]; [|safe_done].
  safe_seq; [apply safe_get_heap|]. intros h2 _.
  apply (safe_weaken _ _ _ (safe_fresh _)). auto.
Qed.

Lemma safe_shape_array ev (rec : rec_t) key d root value :
  (forall x q ck, no_null_read (rec x q ck)) ->
  no_null_read (shape_array ev rec key d root value).
Proof.
  intros Hrec. unfold shape_array. safe_seq; [apply safe_array_pipeline|].
  intros arrData _. destruct (nested d) as [q'|]; [|safe_done].
  safe_seq; [apply safe_get_heap|]. intros h3 _.
  safe_seq; [apply safe_mapM; intros x; apply Hrec|]. intros outs _.
  apply (safe_weaken _ _ _ (safe_fresh _)). auto.
Qed.

Lemma safe_shape_directive ev df (rec : rec_t) key d st root :
  (forall x q ck, no_null_read (rec x q ck)) -> nullish st = false ->
  no_null_read (shape_directive ev df rec key d st root).
Proof.
  intros Hrec Hst. unfold shape_directive.
  safe_seq.
  { destruct (set_str (skipIf d)); [|safe_done].
    safe_seq; [apply safe_evalNestedField|]. intros v _. safe_done. }
  intros skipped _. destruct skipped; [safe_done|].
  safe_seq.
  { destruct (set_str (includeIf d)); [|safe_done].
    safe_seq; [apply safe_evalNestedField|]. intros v _. safe_done. }
  intros included _. destruct (negb included); [safe_done|].
  safe_seq.
  { destruct (set_str (path d)) as [p|]; [apply safe_resolve_path|].
    safe_seq; [apply safe_get_heap|]. intros h _.
    safe_seq; [apply safe_lift_get_prop; exact Hst|]. intros x _.
    destruct (nullish x); [apply safe_lift_autoResolve|safe_done]. }
  intros value _. cbv beta zeta.
  safe_seq.
  { destruct (set_str (transform d)); [|safe_done].
    match goal with
    | |- safe _ (if nullish ?x then _ else _) => destruct (nullish x)
    end; [safe_done|apply safe_apply_transform]. }
  intros value' _. safe_seq; [apply safe_get_heap|]. intros h _.
  destruct (is_array h value'); [apply safe_shape_array; exact Hrec|].
  destruct (is_object value'); [|safe_done].
  destruct (nested d); [apply Hrec|safe_done].
Qed.

Lemma safe_shape_field ev df (rec : rec_t) key fld st root :
  (forall x q ck, no_null_read (rec x q ck)) -> nullish st = false ->
  no_null_read (shape_field ev df rec key fld st root).
Proof.
  intros Hrec Hst. destruct fld as [e|e rd|d|q'|s|v]; simpl.
  - apply safe_evalNestedField.
  - apply safe_evalNestedField.
  - apply safe_shape_directive; assumption.
  - safe_seq; [apply safe_get_heap|]. intros h _.
    safe_seq; [apply safe_lift_get_prop; exact Hst|]. intros x _.
    safe_seq.
    + destruct (nullish x); [|safe_done].
      apply (safe_weaken _ _ _ (safe_fresh _)). auto.
    + intros nv _. apply Hrec.
  - safe_seq; [apply safe_evalNestedField|]. intros v1 _.
    destruct (negb (nullish v1)); [safe_done|].
    safe_seq; [apply safe_get_heap|]. intros h _. cbv zeta.
    destruct (negb (nullish (getByPath h st s))); [safe_done|].
    safe_seq; [apply safe_lift_autoResolve|]. intros v3 _. safe_done.
  - safe_seq; [apply safe_get_heap|]. intros h _.
    safe_seq; [apply safe_lift_get_prop; exact Hst|]. intros x _. safe_done.
Qed.

Lemma safe_safe_target data : safe (fun st => nullish st = false) (safe_target data).
Proof.
  unfold safe_target. destruct (nullish data) eqn:E; [apply safe_fresh|].
  apply safe_ret. exact E.
Qed.

Lemma assoc_assoc_set_same {A} k (v : A) r : assoc k (assoc_set k v r) = Some v.
Proof.
  induction r as [|[k1 v1] r IH]; simpl; [rewrite String.eqb_refl; reflexivity|].
  destruct (String.eqb_spec k k1) as [E|E]; simpl.
  - subst. rewrite String.eqb_refl. reflexivity.
  - destruct (String.eqb_spec k k1); [contradiction|exact IH].
Qed.

Lemma assoc_set_preserves {A} k k' (v : A) r :
  assoc k r <> None -> assoc k (assoc_set k' v r) <> None.
Proof.
  induction r as [|[k1 v1] r IH]; simpl; intros H; [contradiction|].
  destruct (String.eqb k' k1); simpl; destruct (String.eqb k k1); auto; discriminate.
Qed.

(** Every key of [result0], and every field key of [fs], is in [r]. *)
Definition covers (result0 : props) (fs : list (string * field)) (r : props) : Prop :=
  (forall k, assoc k result0 <> None -> assoc k r <> None) /\
  (forall k fld, In (k, fld) fs -> k <> "__fragments" -> assoc k r <> None).

Lemma safe_shape_fields ev df (rec : rec_t) data root fs :
  (forall x q ck, no_null_read (rec x q ck)) ->
  forall result0, safe (covers result0 fs) (shape_fields ev df rec data root fs result0).
Proof.
  intros Hrec. induction fs as [|[k fld] fs IH]; intros result0; simpl.
  - apply safe_ret. split; [auto|]. intros k fld [].
  - destruct (String.eqb_spec k "__fragments") as [Ek|Ek].
    + apply (safe_weaken _ _ _ (IH result0)). intros r [H1 H2]. split; [exact H1|].
      intros k' fld' [E|Hin] Hk'.
      * inversion E; subst. contradiction.
      * exact (H2 k' fld' Hin Hk').
    + apply (safe_bind (fun st => nullish st = false)); [apply safe_safe_target|].
      intros st Hst. safe_seq; [apply safe_shape_field; assumption|]. intros v _.
      apply (safe_weaken _ _ _ (IH (assoc_set k v result0))). intros r [H1 H2]. split.
      * intros k' Hk'. apply H1. apply assoc_set_preserves. exact Hk'.
      * intros k' fld' [E|Hin] Hk'.
        -- inversion E; subst. apply H1. rewrite assoc_assoc_set_same. discriminate.
        -- exact (H2 k' fld' Hin Hk').
Qed.

Lemma truthy_not_nullish v : truthy v = true -> nullish v = false.
Proof. destruct v; simpl; congruence. Qed.

Lemma nth_upd (xs : list val) i x : i < length xs -> nth i (upd xs i x) VUndef = x.
Proof.
  revert i. induction xs as [|y xs IH]; intros i Hi; simpl in *; [lia|].
  destruct i; [reflexivity|]. apply IH. lia.
Qed.

Lemma nth_set_item (its : list val) i x : nth i (set_item its i x) VUndef = x.
Proof.
  unfold set_item. destruct (Nat.ltb_spec i (length its)) as [H|H].
  - apply nth_upd. exact H.
  - rewrite app_nth2 by lia. rewrite app_nth2 by (rewrite repeat_length; lia).
    rewrite repeat_length. replace (i - length its - (i - length its)) with 0 by lia.
    reflexivity.
Qed.

Lemma set_prop_get_own h v k x h' :
  set_prop h v k x = Ok h' -> nullish x = false -> nullish (get_own h' v k) = false.
Proof.
  destruct v as [| |b|z|s|l]; simpl; try discriminate.
  destruct (hstore h l) as [ps|its ps] eqn:Eh; intros E Hx.
  - inversion E; subst. simpl. rewrite Nat.eqb_refl, assoc_assoc_set_same. exact Hx.
  - destruct (index_of k) as [i|] eqn:Ei; inversion E; subst; simpl; rewrite Nat.eqb_refl;
      (destruct (String.eqb k "length"); [reflexivity|]); try rewrite Ei.
    + rewrite nth_set_item. exact Hx.
    + rewrite assoc_assoc_set_same. exact Hx.
Qed.

Lemma safe_mergeDeep_keys (rec : val -> val -> M val) target source ks :
  (forall t s, nullish t = false -> no_null_read (rec t s)) ->
  nullish target = false -> nullish source = false ->
  no_null_read (mergeDeep_keys rec target source ks).
Proof.
  intros Hrec Ht Hs. induction ks as [|key ks IH]; simpl; [safe_done|].
  destruct (String.eqb key "__fragments"); [exact IH|].
  intros h. unfold bind, get_heap, lift, get_prop, ret, fresh, assign.
  rewrite Hs, Ht. cbv beta iota.
  destruct (truthy (get_own h source key) && is_object (get_own h source key) &&
            negb (is_array h (get_own h source key))).
  - destruct (truthy (get_own h target key)) eqn:Etv.
    + pose proof (Hrec (get_own h target key) (get_own h source key)
                    (truthy_not_nullish _ Etv) h) as Hr.
      destruct (rec (get_own h target key) (get_own h source key) h) as [[h3 u]|e|];
        [exact (IH h3)|exact Hr|exact I].
    + unfold alloc. cbv beta iota zeta.
      set (h1 := mkHeap _ _).
      destruct (set_prop h1 target key (VRef (hnext h))) as [h2|e|] eqn:Es.
      * pose proof (set_prop_get_own _ _ _ _ _ Es eq_refl) as Hn.
        pose proof (Hrec (get_own h2 target key) (get_own h source key) Hn h2) as Hr.
        destruct (rec (get_own h2 target key) (get_own h source key) h2) as [[h3 u]|e|];
          [exact (IH h3)|exact Hr|exact I].
      * exact (set_prop_not_null_error _ _ _ _ _ Ht Es).
      * exact I.
  - destruct (set_prop h target key (get_own h source key)) as [h2|e|] eqn:Es.
    + exact (IH h2).
    + exact (set_prop_not_null_error _ _ _ _ _ Ht Es).
    + exact I.
Qed.

Lemma own_keys_nullish h v : nullish v = true -> own_keys h v = [].
Proof. destruct v; simpl; congruence. Qed.

Lemma safe_mergeDeep f : forall target source,
  nullish target = false -> no_null_read (mergeDeep f target source).
Proof.
  induction f as [|f IH]; intros target source Ht; simpl; [apply safe_out_of_fuel|].
  safe_seq; [apply safe_get_heap|]. intros h0 _.
  safe_seq; [|intros; safe_done].
  destruct (nullish source) eqn:Es.
  - rewrite own_keys_nullish by exact Es. simpl. safe_done.
  - apply safe_mergeDeep_keys; [|exact Ht|exact Es]. intros t s Htn. apply IH. exact Htn.
Qed.

Lemma safe_merge_result_keys (rec : val -> val -> M val) source ks :
  (forall t s, nullish t = false -> no_null_read (rec t s)) ->
  nullish source = false ->
  forall result, no_null_read (merge_result_keys rec source ks result).
Proof.
  intros Hrec Hs. induction ks as [|key ks IH]; intros result; simpl; [safe_done|].
  destruct (String.eqb key "__fragments"); [apply IH|].
  safe_seq; [apply safe_get_heap|]. intros h _.
  safe_seq; [apply safe_lift_get_prop; exact Hs|]. intros sv _.
  destruct (truthy sv && is_object sv && negb (is_array h sv)); [|apply IH].
  cbv zeta.
  apply (safe_bind (fun r => nullish (match assoc key r with Some x => x | None => VUndef end)
                             = false)).
  - destruct (truthy (match assoc key result with Some x => x | None => VUndef end)) eqn:Etv.
    + apply safe_ret. apply truthy_not_nullish. exact Etv.
    + apply (safe_bind (fun o => nullish o = false)); [apply safe_fresh|].
      intros o Ho. apply safe_ret. rewrite assoc_assoc_set_same. exact Ho.
  - intros result' Hn. safe_seq; [apply Hrec; exact Hn|]. intros u _. apply IH.
Qed.

Lemma safe_merge_into_result f result source :
  no_null_read (merge_into_result f result source).
Proof.
  destruct f as [|f]; simpl; [apply safe_out_of_fuel|].
  safe_seq; [apply safe_get_heap|]. intros h0 _.
  destruct (nullish source) eqn:Es.
  - rewrite own_keys_nullish by exact Es. simpl. safe_done.
  - apply safe_merge_result_keys; [|exact Es].
    intros t s Ht. apply safe_mergeDeep. exact Ht.
Qed.

Lemma safe_shape_frags df (rec : rec_t) data reg ck names :
  (forall x q c, no_null_read (rec x q c)) ->
  forall result, no_null_read (shape_frags df rec data reg ck names result).
Proof.
  intros Hrec. induction names as [|nm ns IH]; intros result; simpl; [safe_done|].
  destruct (assoc nm reg) as [fq|]; [|apply IH].
  safe_seq; [apply Hrec|]. intros r _.
  safe_seq; [apply safe_merge_into_result|]. intros r' _. apply IH.
Qed.

Lemma safe_shape ev df :
  forall n data q fr rd ck, no_null_read (shape ev df n data q fr rd ck).
Proof.
  induction n as [|n IH]; intros data q fr rd ck; simpl; [apply safe_out_of_fuel|].
  safe_seq.
  { destruct (q_frags q) as [names|]; destruct fr as [reg|]; try safe_done.
    apply safe_shape_frags. intros x q' c. apply IH. }
  intros result _. safe_seq.
  - apply (safe_weaken _ _ _ (safe_shape_fields ev df _ data _ (q_fields q)
                                 (fun x q' c => IH x q' fr _ c) result)).
    auto.
  - intros r _. apply (safe_weaken _ _ _ (safe_fresh _)). auto.
Qed.

(** ** C10 *)

(** C10 (null data).  For any data, in particular [null] and [undefined],
    and any query object and fragment registry, [shape] never throws the
    [TypeError] of reading or writing a property of [null]/[undefined]
    (the lookup target is [data ?? {}], a missing nested object is replaced
    by [{}]), and when it returns, its result is an object holding every key
    of the query object. *)
Theorem shape_total_on_missing_data ev df n data q fr rd ck h :
  shape ev df n data q fr rd ck h <> Throw TypeErrorNull /\
  (forall h' v,
     shape ev df n data q fr rd ck h = Ok (h', v) ->
     exists l ps, v = VRef l /\ hstore h' l = OObj ps /\
       forall k fld, In (k, fld) (q_fields q) -> k <> "__fragments" -> assoc k ps <> None).
Proof.
  split.
  - pose proof (safe_shape ev df n data q fr rd ck h) as H.
    destruct (shape ev df n data q fr rd ck h) as [[h' v]|e|]; try discriminate.
    intros E. inversion E; subst. exact (H eq_refl).
  - intros h' v E. destruct n as [|n]; [discriminate|].
    cbn [shape] in E. unfold bind at 1 in E.
    set (rec := fun d q' ck0 => shape ev df n d q' fr (coalesce rd data) ck0) in E.
    set (frags := match q_frags q, fr with
                  | Some names, Some reg => shape_frags df rec data reg ck names []
                  | _, _ => ret []
                  end) in E.
    destruct (frags h) as [[h1 r]|e|]; try discriminate.
    pose proof (safe_shape_fields ev df rec data (coalesce rd data) (q_fields q)
                  (fun x q' c => safe_shape ev df n x q' fr (coalesce rd data) c) r h1) as Hc.
    unfold bind in E.
    destruct (shape_fields ev df rec data (coalesce rd data) (q_fields q) r h1)
      as [[h2 r']|e|]; try discriminate.
    unfold fresh, alloc in E. inversion E; subst.
    exists (hnext h2), r'. split; [reflexivity|]. split.
    + simpl. rewrite Nat.eqb_refl. reflexivity.
    + exact (proj2 Hc).
Qed.

Lemma shape_total_on_missing_data_witness :
  exists h' v,
    shape_top js_eval_paths 5 5 VNull q_email (heap_of []) = Ok (h', v) /\
    exists l ps, v = VRef l /\ hstore h' l = OObj ps /\
      forall k fld, In (k, fld) (q_fields q_email) -> k <> "__fragments" ->
                    assoc k ps <> None.
Proof.
  destruct (shape_top js_eval_paths 5 5 VNull q_email (heap_of [])) as [[h' v]|e|] eqn:E;
    [|vm_compute in E; discriminate|vm_compute in E; discriminate].
  exists h', v. split; [reflexivity|].
  apply (proj2 (shape_total_on_missing_data js_eval_paths 5 5 VNull q_email None VUndef None
                  (heap_of []))).
  exact E.
Defined.

(** * Further properties of the code *)

(** ** [parseQuery] *)

Lemma in_all_ascii ch : In ch all_ascii.
Proof.
  unfold all_ascii. rewrite <- (ascii_nat_embedding ch). apply in_map.
  apply in_seq. pose proof (nat_ascii_bounded ch). lia.
Qed.

Lemma rm_none_k s r : forall k i c,
  (forall j c', i <= j -> k j c' = None) -> rm s r k i c = None.
Proof.
  induction r as [| p | a IHa b IHb | a IHa b IHb | a IHa | a IHa | n a IHa | |];
    intros k i c Hk; cbn [rm].
  - apply Hk; lia.
  - destruct (String.get i s); [|reflexivity]. destruct (p a); [apply Hk; lia|reflexivity].
  - apply IHa. intros j c' Hj. apply IHb. intros j' c'' Hj'. apply Hk; lia.
  - rewrite IHa by exact Hk. apply IHb; exact Hk.
  - generalize (S (String.length s - i)) as fuel. intros fuel. revert i c Hk.
    induction fuel as [|f IHf]; intros i c Hk; simpl; [reflexivity|].
    rewrite IHa; [apply Hk; lia|].
    intros j c' Hj. destruct (Nat.ltb i j) eqn:E; [|reflexivity].
    apply IHf. intros j' c'' Hj'. apply Hk. lia.
  - rewrite IHa; [apply Hk; lia|].
    intros j c' Hj. destruct (Nat.ltb i j); [apply Hk; lia|reflexivity].
  - apply IHa. intros j c' Hj. apply Hk; lia.
  - destruct (Nat.eqb i 0); [apply Hk; lia|reflexivity].
  - destruct (Nat.eqb i (String.length s)); [apply Hk; lia|reflexivity].
Qed.

Lemma rm_needs s q r : forall k i c,
  (forall j ch, i <= j -> String.get j s = Some ch -> q ch = false) ->
  needs q r = true -> rm s r k i c = None.
Proof.
  induction r as [| p | a IHa b IHb | a IHa b IHb | a IHa | a IHa | n a IHa | |];
    intros k i c Hq Hn; cbn [rm needs] in *; try discriminate.
  - destruct (String.get i s) as [ch|] eqn:E; [|reflexivity].
    assert (Hf := proj1 (forallb_forall _ _) Hn ch (in_all_ascii ch)). cbv beta in Hf.
    rewrite (Hq i ch (le_n _) E) in Hf. rewrite orb_false_r in Hf.
    apply negb_true_iff in Hf. rewrite Hf. reflexivity.
  - apply orb_true_iff in Hn as [Hn|Hn].
    + apply IHa; assumption.
    + apply rm_none_k. intros j c' Hj. apply IHb; [|exact Hn].
      intros j' ch Hj'. apply Hq. lia.
  - apply andb_true_iff in Hn as [Ha Hb]. rewrite IHa by assumption. apply IHb; assumption.
  - apply IHa; assumption.
Qed.

Lemma all_chars_get p s j ch :
  all_chars p s = true -> String.get j s = Some ch -> p ch = true.
Proof.
  revert j. induction s as [|c s IH]; intros j H E; [discriminate|].
  simpl in H. apply andb_true_iff in H as [H1 H2].
  destruct j as [|j]; simpl in E; [injection E as <-; exact H1|exact (IH j H2 E)].
Qed.

Lemma search_from_needs s q r fuel i :
  all_chars (fun ch => negb (q ch)) s = true -> needs q r = true ->
  search_from s r fuel i = None.
Proof.
  intros Hs Hn. revert i. induction fuel as [|f IH]; intros i; simpl; [reflexivity|].
  destruct (Nat.ltb (String.length s) i); [reflexivity|].
  rewrite rm_needs with (q := q); [apply IH| |exact Hn].
  intros j ch _ E. apply negb_true_iff. exact (all_chars_get _ _ _ _ Hs E).
Qed.

Lemma exec_needs s q r :
  all_chars (fun ch => negb (q ch)) s = true -> needs q r = true -> exec r s = None.
Proof. intros. apply (search_from_needs s q); assumption. Qed.

Lemma substring_0_length s : substring 0 (String.length s) s = s.
Proof. induction s as [|c s IH]; simpl; [reflexivity|now rewrite IH]. Qed.

Lemma split_aux_1 d : forall fuel s cur, String.length s < fuel ->
  split_aux (String d EmptyString) fuel s cur = split1 d s cur.
Proof.
  induction fuel as [|f IH]; intros s cur Hl; [lia|].
  destruct s as [|c s']; simpl; [reflexivity|].
  simpl in Hl.
  destruct (ascii_dec d c) as [<-|Hne].
  - rewrite Ascii.eqb_refl.
    assert (Hp : prefix "" s' = true) by (destruct s'; reflexivity). rewrite Hp.
    rewrite Nat.sub_0_r, substring_0_length.
    f_equal. apply IH. lia.
  - replace (Ascii.eqb c d) with false
      by (symmetry; apply Ascii.eqb_neq; intros ->; apply Hne; reflexivity).
    apply IH. lia.
Qed.

Lemma js_split_1 d s : js_split (String d EmptyString) s = split1 d s "".
Proof. unfold js_split. apply split_aux_1. lia. Qed.

Lemma split1_app d a b cur :
  split1 d (a ++ String d b) cur = split1 d a cur ++ split1 d b "".
Proof.
  revert cur. induction a as [|c a IH]; intros cur; simpl.
  - rewrite Ascii.eqb_refl. reflexivity.
  - destruct (Ascii.eqb c d); [rewrite IH; reflexivity|apply IH].
Qed.

Lemma str_app_nil_r (s : string) : String.append s EmptyString = s.
Proof. induction s as [|c s IH]; simpl; [reflexivity|now rewrite IH]. Qed.

Lemma str_app_assoc (a b c : string) :
  String.append (String.append a b) c = String.append a (String.append b c).
Proof. induction a as [|x a IH]; simpl; [reflexivity|now rewrite IH]. Qed.

Lemma split1_no_sep d s cur :
  all_chars (fun ch => negb (Ascii.eqb ch d)) s = true ->
  split1 d s cur = [String.append cur s].
Proof.
  revert cur. induction s as [|c s IH]; intros cur H; simpl.
  - rewrite str_app_nil_r. reflexivity.
  - simpl in H. apply andb_true_iff in H as [H1 H2]. apply negb_true_iff in H1.
    rewrite H1, IH by exact H2. rewrite str_app_assoc. reflexivity.
Qed.

Lemma all_chars_impl (p q : ascii -> bool) s :
  (forall c, p c = true -> q c = true) -> all_chars p s = true -> all_chars q s = true.
Proof.
  intros Hpq. induction s as [|c s IH]; simpl; [reflexivity|].
  intros H. apply andb_true_iff in H as [H1 H2]. rewrite (Hpq c H1). simpl. exact (IH H2).
Qed.

Lemma all_chars_app p a b :
  all_chars p (String.append a b) = all_chars p a && all_chars p b.
Proof. induction a as [|c a IH]; simpl; [reflexivity|]. rewrite IH. apply andb_assoc. Qed.

Lemma all_chars_substring p s : forall n m,
  all_chars p s = true -> all_chars p (substring n m s) = true.
Proof.
  induction s as [|c s IH]; intros n m H; destruct n as [|n], m as [|m]; simpl in *;
    try reflexivity; try assumption.
  - apply andb_true_iff in H as [H1 H2]. rewrite H1. simpl. apply IH. exact H2.
  - apply andb_true_iff in H as [H1 H2]. apply IH. exact H2.
  - apply andb_true_iff in H as [H1 H2]. apply IH. exact H2.
Qed.

Lemma index_char_none c s :
  all_chars (fun ch => negb (Ascii.eqb ch c)) s = true -> String.index 0 (String c EmptyString) s = None.
Proof.
  induction s as [|b s IH]; intros H; simpl; [reflexivity|].
  simpl in H. apply andb_true_iff in H as [H1 H2]. apply negb_true_iff in H1.
  destruct (ascii_dec c b) as [<-|]; [rewrite Ascii.eqb_refl in H1; discriminate|].
  rewrite IH by exact H2. reflexivity.
Qed.

Lemma includes_char_false c s :
  all_chars (fun ch => negb (Ascii.eqb ch c)) s = true -> includes (String c EmptyString) s = false.
Proof. intros H. unfold includes. rewrite index_char_none by exact H. reflexivity. Qed.

Lemma ends_with_char_false c s :
  all_chars (fun ch => negb (Ascii.eqb ch c)) s = true -> ends_with (String c EmptyString) s = false.
Proof.
  intros H. unfold ends_with. simpl String.length at 1 3.
  destruct (Nat.leb 1 (String.length s)); [|reflexivity]. simpl.
  destruct (String.eqb (substring (String.length s - 1) 1 s) (String c EmptyString)) eqn:E;
    [|reflexivity].
  apply String.eqb_eq in E.
  pose proof (all_chars_substring _ s (String.length s - 1) 1 H) as Hs.
  rewrite E in Hs. simpl in Hs. rewrite Ascii.eqb_refl in Hs. discriminate.
Qed.

Lemma rev_string_app a b :
  rev_string (String.append a b) = String.append (rev_string b) (rev_string a).
Proof.
  induction a as [|c a IH]; simpl.
  - rewrite str_app_nil_r. reflexivity.
  - rewrite IH. apply str_app_assoc.
Qed.

Lemma rev_string_involutive s : rev_string (rev_string s) = s.
Proof.
  induction s as [|c s IH]; simpl; [reflexivity|].
  rewrite rev_string_app. simpl. rewrite IH. reflexivity.
Qed.

Lemma all_chars_rev p s : all_chars p (rev_string s) = all_chars p s.
Proof.
  induction s as [|c s IH]; simpl; [reflexivity|].
  rewrite all_chars_app, IH. simpl. rewrite andb_true_r. apply andb_comm.
Qed.


Lemma trim_left_id s :
  match s with String c _ => is_ws c = false | EmptyString => True end -> trim_left s = s.
Proof. destruct s as [|c s]; simpl; [reflexivity|]. intros H. rewrite H. reflexivity. Qed.

Lemma js_trim_no_ws s :
  all_chars (fun c => negb (is_ws c)) s = true -> js_trim s = s.
Proof.
  intros H. unfold js_trim.
  assert (Hl : forall t, all_chars (fun c => negb (is_ws c)) t = true -> trim_left t = t).
  { intros t Ht. apply trim_left_id. destruct t as [|c t]; [exact I|].
    simpl in Ht. apply andb_true_iff in Ht as [Ht _]. apply negb_true_iff in Ht. exact Ht. }
  rewrite (Hl s H), Hl by (rewrite all_chars_rev; exact H).
  apply rev_string_involutive.
Qed.

Lemma exec_no_char c r s : needs (fun ch => Ascii.eqb ch c) r = true ->
  no_char c s = true -> exec r s = None.
Proof. intros Hn Hs. apply (exec_needs s (fun ch => Ascii.eqb ch c)); assumption. Qed.

Lemma needs_facts :
  needs (fun ch => Ascii.eqb ch "@") re_skip = true /\
  needs (fun ch => Ascii.eqb ch "@") re_include = true /\
  needs (fun ch => Ascii.eqb ch "@") re_default = true /\
  needs (fun ch => Ascii.eqb ch "@") re_transform = true /\
  needs (fun ch => Ascii.eqb ch "{") re_inline = true /\
  needs (fun ch => Ascii.eqb ch "}") re_inline = true /\
  needs (fun ch => Ascii.eqb ch ":") re_alias = true /\
  needs (fun ch => Ascii.eqb ch "@") re_hskip = true /\
  needs (fun ch => Ascii.eqb ch "@") re_hinclude = true /\
  needs (fun ch => Ascii.eqb ch "(") re_paren = true.
Proof. vm_compute. repeat split. Qed.

Lemma step_plain rd cur ctx l :
  js_trim l = l -> ends_with "," l = false ->
  no_char "@" l = true -> no_char ":" l = true -> no_char "{" l = true ->
  starts_with "..." l = false -> l <> "}" ->
  step rd (cur, ctx) l = Ok (assoc_set l (PStr l) cur, ctx).
Proof.
  intros Ht Hc Ha Hcol Hb Hd Hr.
  destruct needs_facts as (N1 & N2 & N3 & N4 & N5 & _ & N7 & _).
  unfold step. unfold drop_comma. rewrite Hc, Ht.
  rewrite (exec_no_char _ _ _ N1 Ha), (exec_no_char _ _ _ N2 Ha),
    (exec_no_char _ _ _ N3 Ha), (exec_no_char _ _ _ N4 Ha).
  unfold step_rest. rewrite (exec_no_char _ _ _ N5 Hb), Hd.
  rewrite (ends_with_char_false _ _ Hb), (includes_char_false _ _ Hb).
  rewrite (exec_no_char _ _ _ N7 Hcol).
  destruct (String.eqb_spec l "}"); [contradiction|reflexivity].
Qed.

Lemma split1_concat d ls : ls <> [] ->
  Forall (fun l => no_char d l = true) ls ->
  split1 d (String.concat (String d EmptyString) ls) "" = ls.
Proof.
  induction ls as [|x ls IH]; intros Hne Hf; [contradiction|].
  inversion Hf as [|? ? Hx Hls]; subst.
  destruct ls as [|y ls'].
  - simpl. rewrite split1_no_sep by exact Hx. reflexivity.
  - change (String.concat (String d EmptyString) (x :: y :: ls'))
      with (String.append x (String d (String.concat (String d EmptyString) (y :: ls')))).
    rewrite split1_app, split1_no_sep by exact Hx. simpl String.append.
    rewrite IH by (discriminate || exact Hls). reflexivity.
Qed.

Lemma fold_res_app {A B} (f : A -> B -> res A) xs ys a :
  fold_res f (xs ++ ys) a = res_bind (fold_res f xs a) (fold_res f ys).
Proof.
  revert a. induction xs as [|x xs IH]; intros a; simpl; [reflexivity|].
  destruct (f a x); [apply IH|reflexivity|reflexivity].
Qed.

Lemma query_lines_app a b :
  query_lines (String.append a (String.append nl b)) = query_lines a ++ query_lines b.
Proof.
  unfold query_lines, nl. simpl String.append at 2.
  rewrite !js_split_1, split1_app, map_app, filter_app. reflexivity.
Qed.

Lemma query_lines_one l : no_char (ascii_of_nat 10) l = true ->
  query_lines l = if negb (String.eqb (js_trim l) "") && negb (starts_with "#" (js_trim l))
                  then [js_trim l] else [].
Proof.
  intros H. unfold query_lines. rewrite js_split_1, split1_no_sep by exact H.
  reflexivity.
Qed.

Lemma plain_line_spec l : plain_line l = true ->
  js_trim l = l /\ l <> "" /\ ends_with "," l = false /\ no_char "@" l = true /\
  no_char ":" l = true /\ no_char "{" l = true /\ no_char (ascii_of_nat 10) l = true /\
  starts_with "..." l = false /\ starts_with "#" l = false /\ l <> "}".
Proof.
  unfold plain_line. intros H. repeat rewrite andb_true_iff in H.
  destruct H as (((((((((H1 & H2) & H3) & H4) & H5) & H6) & H7) & H8) & H9) & H10).
  apply String.eqb_eq in H1. apply negb_true_iff, String.eqb_neq in H2.
  apply negb_true_iff in H3. apply negb_true_iff in H8. apply negb_true_iff in H9.
  apply negb_true_iff, String.eqb_neq in H10.
  repeat split; assumption.
Qed.

(** X1.  A query text made of plain field lines (each a trimmed, non-empty name
    without [:], [@], [{], comma ending, comment mark, spread or newline) is
    compiled to the object that maps each name to itself, in order; a
    repeated name keeps its first position. *)
Theorem parseQuery_plain_lines (ls : list string) (rd : val) :
  forallb plain_line ls = true ->
  parseQuery (String.concat nl ls) rd =
  Ok (fold_left (fun ps l => assoc_set l (PStr l) ps) ls []).
Proof.
  intros H. destruct ls as [|l0 ls0] eqn:Els; [reflexivity|]. rewrite <- Els in H |- *.
  assert (Hf : Forall (fun l => plain_line l = true) ls).
  { apply Forall_forall. intros x Hx. exact (proj1 (forallb_forall _ _) H x Hx). }
  assert (Hq : query_lines (String.concat nl ls) = ls).
  { unfold query_lines, nl. rewrite js_split_1, split1_concat.
    - clear Els H. induction Hf as [|x xs Hx Hxs IH]; [reflexivity|].
      destruct (plain_line_spec x Hx) as (Ht & Hne & _ & _ & _ & _ & _ & _ & Hh & _).
      simpl. rewrite Ht. apply String.eqb_neq in Hne. rewrite Hne, Hh. simpl. f_equal. exact IH.
    - rewrite Els. discriminate.
    - eapply Forall_impl; [|exact Hf]. intros x Hx. apply plain_line_spec in Hx. tauto. }
  unfold parseQuery. rewrite Hq. clear Hq Els H.
  unfold parse_lines. generalize (@nil (string * pval)) as cur.
  induction Hf as [|x xs Hx Hxs IH]; intros cur; [reflexivity|].
  destruct (plain_line_spec x Hx) as (Ht & Hne & Hc & Ha & Hcol & Hb & _ & Hd & _ & Hr).
  cbn [fold_res fold_left]. rewrite step_plain by assumption. apply IH.
Qed.

(** X2.  A line that is blank after trimming, or whose trimmed text starts with
    [#], is dropped: removing it from the query text does not change the
    result of [parseQuery]. *)
Theorem parseQuery_comment_line (a c b : string) (rd : val) :
  no_char (ascii_of_nat 10) c = true ->
  js_trim c = EmptyString \/ starts_with "#" (js_trim c) = true ->
  parseQuery (String.append a (String.append nl (String.append c (String.append nl b)))) rd =
  parseQuery (String.append a (String.append nl b)) rd.
Proof.
  intros Hc Hcm. unfold parseQuery.
  rewrite !query_lines_app, (query_lines_one c) by exact Hc.
  destruct Hcm as [E|E]; rewrite E; [reflexivity|]. rewrite andb_false_r. reflexivity.
Qed.

Lemma str_length_app (a b : string) :
  String.length (String.append a b) = String.length a + String.length b.
Proof. induction a as [|c a IH]; simpl; [destruct b; reflexivity|]. rewrite IH. reflexivity. Qed.

Lemma trim_left_suffix s : trim_left s = s \/ String.length (trim_left s) < String.length s.
Proof.
  induction s as [|c s IH]; simpl; [left; reflexivity|].
  destruct (is_ws c); [right; destruct IH as [->|H]; simpl; lia|left; reflexivity].
Qed.

Lemma trim_left_length s : String.length (trim_left s) <= String.length s.
Proof. destruct (trim_left_suffix s) as [->|H]; lia. Qed.

Lemma rev_string_length s : String.length (rev_string s) = String.length s.
Proof.
  induction s as [|c s IH]; simpl; [reflexivity|].
  rewrite str_length_app. simpl. lia.
Qed.

Lemma js_trim_fixed s : js_trim s = s -> trim_left s = s.
Proof.
  intros H. destruct (trim_left_suffix s) as [E|E]; [exact E|].
  exfalso. assert (Hl : String.length (js_trim s) <= String.length (trim_left s)).
  { unfold js_trim. rewrite rev_string_length. rewrite trim_left_length, rev_string_length. lia. }
  rewrite H in Hl. lia.
Qed.

Lemma trim_left_app a b : trim_left a <> EmptyString ->
  trim_left (String.append a b) = String.append (trim_left a) b.
Proof.
  induction a as [|c a IH]; simpl; [congruence|].
  destruct (is_ws c); [exact IH|reflexivity].
Qed.

Lemma js_trim_comma l : js_trim l = l -> l <> EmptyString ->
  js_trim (String.append l ",") = String.append l ",".
Proof.
  intros H Hne. pose proof (js_trim_fixed l H) as Hl.
  unfold js_trim. rewrite trim_left_app by congruence. rewrite Hl.
  rewrite rev_string_app. simpl. rewrite rev_string_involutive. reflexivity.
Qed.

Lemma substring_app_length (a b : string) n :
  substring (String.length a) n (String.append a b) = substring 0 n b.
Proof. induction a as [|c a IH]; simpl; [reflexivity|exact IH]. Qed.

Lemma ends_with_comma l : ends_with "," (String.append l ",") = true.
Proof.
  unfold ends_with. rewrite str_length_app. simpl String.length.
  replace (String.length l + 1 - 1) with (String.length l) by lia.
  assert (Hn : Nat.leb 1 (String.length l + 1) = true) by (apply Nat.leb_le; lia).
  rewrite Hn, substring_app_length. reflexivity.
Qed.

Lemma substring_0_app (a b : string) :
  substring 0 (String.length a) (String.append a b) = a.
Proof. induction a as [|c a IH]; simpl; [destruct b; reflexivity|]. rewrite IH. reflexivity. Qed.

Lemma drop_comma_comma l : drop_comma (String.append l ",") = l.
Proof.
  unfold drop_comma. rewrite ends_with_comma, str_length_app. simpl String.length.
  replace (String.length l + 1 - 1) with (String.length l) by lia.
  apply substring_0_app.
Qed.

Lemma step_comma rd st l : ends_with "," l = false ->
  step rd st (String.append l ",") = step rd st l.
Proof.
  intros H. assert (E : drop_comma l = l) by (unfold drop_comma; rewrite H; reflexivity).
  unfold step. rewrite drop_comma_comma, E. reflexivity.
Qed.

Lemma starts_with_hash_app l x : l <> EmptyString ->
  starts_with "#" (String.append l x) = starts_with "#" l.
Proof.
  destruct l as [|c l]; [congruence|]. intros _. unfold starts_with.
  cbn [String.prefix String.append]. destruct (Ascii.ascii_dec "#" c); [|reflexivity].
  destruct (String.append l x), l; reflexivity.
Qed.

Lemma no_char_app c a b : no_char c (String.append a b) = no_char c a && no_char c b.
Proof. apply all_chars_app. Qed.

(** X3.  One trailing comma on a line is ignored: the line [l,] compiles like
    [l] (for a trimmed, non-empty [l] that does not already end in a comma). *)
Theorem parseQuery_trailing_comma (a l b : string) (rd : val) :
  js_trim l = l -> l <> EmptyString -> ends_with "," l = false ->
  no_char (ascii_of_nat 10) l = true ->
  parseQuery (String.append a (String.append nl (String.append (String.append l ",")
                (String.append nl b)))) rd =
  parseQuery (String.append a (String.append nl (String.append l (String.append nl b)))) rd.
Proof.
  intros Ht Hne He Hn. unfold parseQuery.
  rewrite !query_lines_app, (query_lines_one l) by exact Hn.
  rewrite (query_lines_one (String.append l ",")) by (rewrite no_char_app, Hn; reflexivity).
  rewrite js_trim_comma by assumption. rewrite Ht.
  rewrite starts_with_hash_app by exact Hne.
  assert (E1 : String.eqb (String.append l ",") "" = false)
    by (destruct l; [congruence|reflexivity]).
  assert (E2 : String.eqb l "" = false) by (apply String.eqb_neq; exact Hne).
  rewrite E1, E2. destruct (starts_with "#" l); [reflexivity|]. simpl.
  unfold parse_lines. rewrite !fold_res_app.
  destruct (fold_res (step rd) (query_lines a) ([], [])) as [st| |]; [|reflexivity|reflexivity].
  cbn [fold_res res_bind]. rewrite step_comma by exact He. reflexivity.
Qed.

Lemma query_lines_concat ls :
  Forall (fun l => js_trim l = l /\ l <> EmptyString /\ no_char (ascii_of_nat 10) l = true
                   /\ starts_with "#" l = false) ls ->
  query_lines (String.concat nl ls) = ls.
Proof.
  intros Hf. destruct ls as [|l0 ls0]; [reflexivity|].
  unfold query_lines, nl. rewrite js_split_1, split1_concat.
  - induction Hf as [|x xs Hx Hxs IH]; [reflexivity|].
    destruct Hx as (Ht & Hne & _ & Hh).
    simpl. rewrite Ht. apply String.eqb_neq in Hne. rewrite Hne, Hh. simpl. f_equal. exact IH.
  - discriminate.
  - eapply Forall_impl; [|exact Hf]. intros x (_ & _ & Hn & _). exact Hn.
Qed.

Lemma step_brace rd cur ctx :
  step rd (cur, ctx) "}" =
  Ok (match ctx with [] => (cur, []) | fr :: ctx' => (close cur fr, ctx') end).
Proof.
  assert (E : js_trim (drop_comma "}") = "}") by reflexivity.
  assert (E1 : exec re_skip "}" = None) by (vm_compute; reflexivity).
  assert (E2 : exec re_include "}" = None) by (vm_compute; reflexivity).
  assert (E3 : exec re_default "}" = None) by (vm_compute; reflexivity).
  assert (E4 : exec re_transform "}" = None) by (vm_compute; reflexivity).
  assert (E5 : exec re_inline "}" = None) by (vm_compute; reflexivity).
  unfold step. rewrite E, E1, E2, E3, E4. unfold step_rest. rewrite E5.
  destruct ctx; reflexivity.
Qed.

Lemma query_lines_brace : query_lines "}" = ["}"].
Proof. reflexivity. Qed.

(** X4.  A closing brace on a last line of its own changes nothing: it either
    closes the innermost open block or, with no block open, is ignored, and
    [parseQuery] returns the top-level object in both cases. *)
Theorem parseQuery_trailing_brace (a : string) (rd : val) :
  parseQuery (String.append a (String.append nl "}")) rd = parseQuery a rd.
Proof.
  unfold parseQuery, parse_lines. rewrite query_lines_app, query_lines_brace, fold_res_app.
  destruct (fold_res (step rd) (query_lines a) ([], [])) as [[cur ctx]| |]; [|reflexivity..].
  cbn [res_bind fold_res]. rewrite step_brace. destruct ctx; reflexivity.
Qed.

(** X5.  A line [}] met when no block is open (the lines before it leave the
    stack at the top level) is ignored: removing it does not change the
    result. *)
Theorem parseQuery_stray_brace (a b : string) (rd : val) (cur : pprops) :
  parse_lines rd (query_lines a) ([], []) = Ok (cur, []) ->
  parseQuery (String.append a (String.append nl (String.append "}" (String.append nl b)))) rd =
  parseQuery (String.append a (String.append nl b)) rd.
Proof.
  intros H. unfold parseQuery.
  rewrite !query_lines_app, query_lines_brace. unfold parse_lines in *.
  rewrite !fold_res_app, H. cbn [res_bind fold_res app]. rewrite step_brace. reflexivity.
Qed.

Lemma word_not_ws c : is_word c = true -> is_ws c = false.
Proof.
  intros H.
  assert (A : forallb (fun c => negb (is_word c && is_ws c)) all_ascii = true)
    by (vm_compute; reflexivity).
  pose proof (proj1 (forallb_forall _ _) A c (in_all_ascii c)) as B. cbv beta in B.
  rewrite H in B. destruct (is_ws c); [discriminate|reflexivity].
Qed.

Lemma word_no_char d k : is_word d = false -> all_chars is_word k = true -> no_char d k = true.
Proof.
  intros Hd. apply all_chars_impl. intros c Hc.
  destruct (Ascii.eqb_spec c d) as [->|]; [congruence|reflexivity].
Qed.

Lemma word_no_ws k : all_chars is_word k = true -> all_chars (fun c => negb (is_ws c)) k = true.
Proof. apply all_chars_impl. intros c Hc. rewrite (word_not_ws c Hc). reflexivity. Qed.

Lemma trim_left_no_ws t : all_chars (fun c => negb (is_ws c)) t = true -> trim_left t = t.
Proof.
  intros Ht. apply trim_left_id. destruct t as [|c t]; [exact I|].
  simpl in Ht. apply andb_true_iff in Ht as [Ht _]. apply negb_true_iff in Ht. exact Ht.
Qed.

Lemma trim_left_word_app k x : all_chars is_word k = true -> k <> EmptyString ->
  trim_left (String.append k x) = String.append k x.
Proof.
  destruct k as [|c k]; [congruence|]. intros H _. simpl in H.
  apply andb_true_iff in H as [H _]. simpl. rewrite (word_not_ws c H). reflexivity.
Qed.

Lemma js_trim_word_sp k : all_chars is_word k = true -> k <> EmptyString ->
  js_trim (String.append k " ") = k.
Proof.
  intros H Hne. unfold js_trim. rewrite trim_left_word_app by assumption.
  rewrite rev_string_app. simpl. rewrite trim_left_no_ws.
  - apply rev_string_involutive.
  - rewrite all_chars_rev. apply word_no_ws. exact H.
Qed.

Lemma js_trim_word_brace k : all_chars is_word k = true -> k <> EmptyString ->
  js_trim (String.append k " {") = String.append k " {".
Proof.
  intros H Hne. unfold js_trim. rewrite trim_left_word_app by assumption.
  rewrite rev_string_app. change (rev_string " {") with (String "{" (String " " EmptyString)).
  cbn [String.append trim_left]. change (is_ws "{") with false. cbv iota.
  replace (String "{" (String " " (rev_string k))) with (rev_string (String.append k " {"))
    by (rewrite rev_string_app; reflexivity).
  apply rev_string_involutive.
Qed.

Lemma ends_with_last l ch : ends_with (String ch EmptyString) (String.append l (String ch EmptyString)) = true.
Proof.
  unfold ends_with. rewrite str_length_app. simpl String.length.
  replace (String.length l + 1 - 1) with (String.length l) by lia.
  assert (Hn : Nat.leb 1 (String.length l + 1) = true) by (apply Nat.leb_le; lia).
  rewrite Hn, substring_app_length. simpl. rewrite Ascii.eqb_refl. reflexivity.
Qed.

Lemma starts_with_word p k x : all_chars is_word k = true -> k <> EmptyString ->
  match p with String d _ => is_word d = false | EmptyString => False end ->
  starts_with p (String.append k x) = false.
Proof.
  destruct k as [|c k]; [congruence|]. destruct p as [|d p]; [contradiction|].
  intros H _ Hd. simpl in H. apply andb_true_iff in H as [H _]. unfold starts_with.
  cbn [String.append String.prefix]. destruct (Ascii.ascii_dec d c) as [->|]; [congruence|reflexivity].
Qed.

Lemma step_open rd cur ctx k : all_chars is_word k = true -> k <> EmptyString ->
  step rd (cur, ctx) (String.append k " {") = Ok ([], mkFrame cur k [("nested", PHole)] :: ctx).
Proof.
  intros H Hne.
  destruct needs_facts as (N1 & N2 & N3 & N4 & _ & N6 & _ & N8 & N9 & N10).
  set (line := String.append k " {").
  assert (Ec : drop_comma line = line).
  { unfold drop_comma, line. replace " {" with (String.append " " "{") by reflexivity.
    rewrite <- str_app_assoc. rewrite ends_with_char_false; [reflexivity|].
    change (no_char "," (String.append (String.append k " ") "{") = true).
    rewrite !no_char_app, word_no_char; reflexivity || exact H. }
  assert (Ht : js_trim line = line) by (apply js_trim_word_brace; assumption).
  assert (Ha : no_char "@" line = true)
    by (unfold line; rewrite no_char_app, word_no_char; reflexivity || exact H).
  assert (Hb : no_char "}" line = true)
    by (unfold line; rewrite no_char_app, word_no_char; reflexivity || exact H).
  assert (Hka : no_char "@" k = true) by (apply word_no_char; reflexivity || exact H).
  assert (Hkp : no_char "(" k = true) by (apply word_no_char; reflexivity || exact H).
  assert (Hd : starts_with "..." line = false) by (apply starts_with_word; simpl; auto).
  assert (He : ends_with "{" line = true).
  { unfold line. replace " {" with (String.append " " "{") by reflexivity.
    rewrite <- str_app_assoc. apply ends_with_last. }
  assert (Hh : js_trim (slice_drop_last 0 line) = k).
  { unfold slice_drop_last, line. replace " {" with (String.append " " "{") by reflexivity.
    rewrite <- str_app_assoc, str_length_app. simpl String.length.
    replace (String.length (String.append k " ") + 1 - 1 - 0) with (String.length (String.append k " ")) by lia.
    rewrite substring_0_app. apply js_trim_word_sp; assumption. }
  unfold step. rewrite Ec, Ht.
  rewrite (exec_no_char _ _ _ N1 Ha), (exec_no_char _ _ _ N2 Ha),
    (exec_no_char _ _ _ N3 Ha), (exec_no_char _ _ _ N4 Ha).
  unfold step_rest. rewrite (exec_no_char _ _ _ N6 Hb), Hd, He, Hh.
  rewrite (exec_no_char _ _ _ N8 Hka), (exec_no_char _ _ _ N9 Hka), (exec_no_char _ _ _ N10 Hkp).
  reflexivity.
Qed.

Lemma parse_plain rd ls : Forall (fun l => plain_line l = true) ls -> forall cur ctx,
  parse_lines rd ls (cur, ctx) = Ok (fold_left (fun ps l => assoc_set l (PStr l) ps) ls cur, ctx).
Proof.
  unfold parse_lines. induction 1 as [|x xs Hx Hxs IH]; intros cur ctx; [reflexivity|].
  destruct (plain_line_spec x Hx) as (Ht & Hne & Hc & Ha & Hcol & Hb & _ & Hd & _ & Hr).
  cbn [fold_res fold_left]. rewrite step_plain by assumption. apply IH.
Qed.

Lemma forallb_Forall {A} (p : A -> bool) l : forallb p l = true -> Forall (fun x => p x = true) l.
Proof. intros H. apply Forall_forall. intros x Hx. exact (proj1 (forallb_forall _ _) H x Hx). Qed.

(** X6.  A block [k {], followed by plain field lines and a closing [}], compiles
    to [{ k: { nested: { f: "f", ... } } }]: the fields of the block land in
    the [nested] query of a directive stored under [k]. *)
Theorem parseQuery_block (k : string) (body : list string) (rd : val) :
  all_chars is_word k = true -> k <> EmptyString -> forallb plain_line body = true ->
  parseQuery (String.concat nl (String.append k " {" :: body ++ ["}"])) rd =
  Ok [(k, PObj [("nested", PObj (fold_left (fun ps l => assoc_set l (PStr l) ps) body []))])].
Proof.
  intros Hk Hne Hb. apply forallb_Forall in Hb.
  unfold parseQuery. rewrite query_lines_concat.
  - unfold parse_lines. cbn [fold_res]. rewrite step_open by assumption.
    rewrite fold_res_app. fold (parse_lines rd body ([], [mkFrame [] k [("nested", PHole)]])).
    rewrite parse_plain by exact Hb. cbn [res_bind fold_res]. rewrite step_brace. reflexivity.
  - constructor.
    + repeat split.
      * apply js_trim_word_brace; assumption.
      * destruct k; [congruence|discriminate].
      * rewrite no_char_app, word_no_char; reflexivity || exact Hk.
      * apply starts_with_word; simpl; auto.
    + apply Forall_app. split; [|constructor; [repeat split; (reflexivity || discriminate)|constructor]].
      eapply Forall_impl; [|exact Hb]. intros x Hx.
      destruct (plain_line_spec x Hx) as (Ht & Hn & _ & _ & _ & _ & Hnl & _ & Hh & _). auto.
Qed.

Lemma assoc_assoc_set_other {A} k k' (v : A) r : k <> k' ->
  assoc k (assoc_set k' v r) = assoc k r.
Proof.
  intros Hk. induction r as [|[k1 v1] r IH]; simpl.
  - destruct (String.eqb_spec k k'); [contradiction|reflexivity].
  - destruct (String.eqb_spec k' k1) as [->|]; simpl.
    + destruct (String.eqb_spec k k1); [contradiction|reflexivity].
    + destruct (String.eqb k k1); [reflexivity|exact IH].
Qed.

Lemma no_char_pre_word d p n : no_char d p = true -> is_word d = false ->
  all_chars is_word n = true -> no_char d (String.append p n) = true.
Proof. intros Hp Hd Hn. rewrite no_char_app, Hp, word_no_char by assumption. reflexivity. Qed.

Lemma step_spread rd cur ctx n : all_chars is_word n = true -> n <> EmptyString ->
  step rd (cur, ctx) (String.append "..." n) = res_map (fun c => (c, ctx)) (push_frag n cur).
Proof.
  intros H Hne.
  destruct needs_facts as (N1 & N2 & N3 & N4 & N5 & _).
  set (line := String.append "..." n).
  assert (Hw : all_chars (fun c => negb (is_ws c)) line = true)
    by (unfold line; rewrite all_chars_app, (word_no_ws n H); reflexivity).
  assert (Ec : drop_comma line = line).
  { unfold drop_comma. rewrite ends_with_char_false; [reflexivity|].
    change (no_char "," line = true). apply no_char_pre_word; reflexivity || exact H. }
  assert (Ht : js_trim line = line) by (apply js_trim_no_ws; exact Hw).
  assert (Ha : no_char "@" line = true)
    by (apply no_char_pre_word; reflexivity || exact H).
  assert (Hb : no_char "{" line = true)
    by (apply no_char_pre_word; reflexivity || exact H).
  assert (Hd : starts_with "..." line = true) by (unfold line; destruct n; [congruence|reflexivity]).
  assert (Hs : js_trim (slice_from 3 line) = n).
  { unfold slice_from, line. rewrite str_length_app.
    replace (String.length "..." + String.length n - 3) with (String.length n) by (simpl; lia).
    change 3 with (String.length "..."). rewrite substring_app_length, substring_0_length.
    apply js_trim_no_ws, word_no_ws, H. }
  unfold step. rewrite Ec, Ht.
  rewrite (exec_no_char _ _ _ N1 Ha), (exec_no_char _ _ _ N2 Ha),
    (exec_no_char _ _ _ N3 Ha), (exec_no_char _ _ _ N4 Ha).
  unfold step_rest. rewrite (exec_no_char _ _ _ N5 Hb), Hd, Hs. reflexivity.
Qed.

Lemma spreads_loop rd names : Forall (fun n => all_chars is_word n = true /\ n <> EmptyString) names ->
  forall l, parse_lines rd (map (String.append "...") names) ([("__fragments", PArr l)], []) =
  Ok ([("__fragments", PArr (l ++ names))], []).
Proof.
  unfold parse_lines. induction 1 as [|n ns [Hn Hne] Hns IH]; intros l.
  - rewrite app_nil_r. reflexivity.
  - cbn [map fold_res]. rewrite step_spread by assumption. cbn. rewrite IH, <- app_assoc. reflexivity.
Qed.

(** X7.  A query text made only of spread lines [...name] compiles to
    [{ __fragments: [name, ...] }], the names in order. *)
Theorem parseQuery_fragment_spreads (names : list string) (rd : val) :
  names <> [] -> forallb (fun n => all_chars is_word n && negb (String.eqb n "")) names = true ->
  parseQuery (String.concat nl (map (String.append "...") names)) rd =
  Ok [("__fragments", PArr names)].
Proof.
  intros Hne Hf. apply forallb_Forall in Hf.
  assert (Hf' : Forall (fun n => all_chars is_word n = true /\ n <> EmptyString) names).
  { eapply Forall_impl; [|exact Hf]. intros x Hx. apply andb_true_iff in Hx as [H1 H2].
    apply negb_true_iff, String.eqb_neq in H2. auto. }
  unfold parseQuery. rewrite query_lines_concat.
  - destruct Hf' as [|n ns [Hn Hn'] Hns]; [contradiction|].
    unfold parse_lines. cbn [map fold_res]. rewrite step_spread by assumption. cbn.
    change (fold_res (step rd) (map (fun s2 => String "." (String "." (String "." s2))) ns)
      ([("__fragments", PArr [n])], []))
      with (parse_lines rd (map (String.append "...") ns) ([("__fragments", PArr [n])], [])).
    rewrite spreads_loop by exact Hns. reflexivity.
  - apply Forall_map. eapply Forall_impl; [|exact Hf']. intros n [Hn Hn'].
    repeat split.
    + apply js_trim_no_ws. rewrite all_chars_app, (word_no_ws n Hn). reflexivity.
    + discriminate.
    + apply no_char_pre_word; reflexivity || exact Hn.
Qed.

Lemma assoc_plain_fold k ls : forall cur,
  In k ls \/ assoc k cur = Some (PStr k) ->
  assoc k (fold_left (fun ps l => assoc_set l (PStr l) ps) ls cur) = Some (PStr k).
Proof.
  induction ls as [|x xs IH]; intros cur H; simpl.
  - destruct H as [[]|H]; exact H.
  - apply IH. destruct (String.eqb_spec k x) as [->|Hk].
    + right. apply assoc_assoc_set_same.
    + destruct H as [[->|H]|H]; [contradiction|left; exact H|].
      right. rewrite assoc_assoc_set_other by exact Hk. exact H.
Qed.

(** X8.  When a plain field line [__fragments] comes before a spread line,
    [current.__fragments] is the string ["__fragments"], so the spread calls
    [push] on a string and [parseQuery] throws a [TypeError]. *)
Theorem parseQuery_fragments_after_field (ls : list string) (n : string) (rd : val) :
  forallb plain_line ls = true -> In "__fragments" ls ->
  all_chars is_word n = true -> n <> EmptyString ->
  parseQuery (String.concat nl (ls ++ [String.append "..." n])) rd = Throw TypeErrorNotFunction.
Proof.
  intros Hl Hin Hn Hne. apply forallb_Forall in Hl.
  unfold parseQuery. rewrite query_lines_concat.
  - unfold parse_lines. rewrite fold_res_app. fold (parse_lines rd ls ([], [])).
    rewrite parse_plain by exact Hl. cbn [res_bind fold_res].
    rewrite step_spread by assumption. unfold push_frag.
    rewrite assoc_plain_fold by (left; exact Hin). reflexivity.
  - apply Forall_app. split.
    + eapply Forall_impl; [|exact Hl]. intros x Hx.
      destruct (plain_line_spec x Hx) as (Ht & Hn' & _ & _ & _ & _ & Hnl & _ & Hh & _). auto.
    + constructor; [|constructor]. repeat split.
      * apply js_trim_no_ws. rewrite all_chars_app, (word_no_ws n Hn). reflexivity.
      * discriminate.
      * apply no_char_pre_word; reflexivity || exact Hn.
Qed.

(** Positive matching. *)


Lemma reset_nil c : reset [] c = c.
Proof. induction c as [|x c IH]; simpl; [reflexivity|]. rewrite IH. reflexivity. Qed.

Lemma rm_class_eq s p k i c :
  rm s (RClass p) k i c =
  match String.get i s with Some ch => if p ch then k (S i) c else None | None => None end.
Proof. reflexivity. Qed.

Lemma star_loop_class s p : forall fuel i e k c x,
  i <= e -> e - i < fuel -> run_of p s i e -> stops p s e -> k e c = Some x ->
  star_loop (rm s (RClass p)) [] k fuel i c = Some x.
Proof.
  induction fuel as [|f IH]; intros i e k c x Hie Hf Hrun Hstop Hk; [lia|].
  cbn [star_loop]. rewrite reset_nil, rm_class_eq.
  destruct (Nat.eq_dec i e) as [->|Hne].
  - unfold stops in Hstop. destruct (String.get e s) as [ch|]; [rewrite Hstop|]; exact Hk.
  - destruct (Hrun i ltac:(lia)) as (ch & Hg & Hp). rewrite Hg, Hp.
    assert (Hl : Nat.ltb i (S i) = true) by (apply Nat.ltb_lt; lia). rewrite Hl.
    rewrite (IH (S i) e k c x) by (lia || (intros j Hj; apply Hrun; lia) || assumption).
    reflexivity.
Qed.

Lemma rm_star_class s p k i e c x :
  i <= e -> e <= String.length s -> run_of p s i e -> stops p s e -> k e c = Some x ->
  rm s (RStar (RClass p)) k i c = Some x.
Proof. intros. cbn [rm groups]. eapply star_loop_class; eauto. lia. Qed.

Lemma rm_plus_class s p k i e c x :
  i < e -> e <= String.length s -> run_of p s i e -> stops p s e -> k e c = Some x ->
  rm s (RPlus (RClass p)) k i c = Some x.
Proof.
  intros Hie He Hrun Hstop Hk. unfold RPlus. cbn [rm].
  destruct (Hrun i ltac:(lia)) as (ch & Hg & Hp). rewrite Hg, Hp.
  apply (rm_star_class s p k (S i) e c x); try assumption; try lia.
  intros j Hj. apply Hrun. lia.
Qed.

Lemma rm_seq_intro s a b k i c x :
  rm s a (fun j c' => rm s b k j c') i c = Some x -> rm s (RSeq a b) k i c = Some x.
Proof. exact (fun H => H). Qed.

Lemma rm_group_intro s n a k i c x :
  rm s a (fun j c' => k j ((n, (i, j)) :: c')) i c = Some x -> rm s (RGroup n a) k i c = Some x.
Proof. exact (fun H => H). Qed.

Lemma rm_class_intro s p k i c x ch :
  String.get i s = Some ch -> p ch = true -> k (S i) c = Some x -> rm s (RClass p) k i c = Some x.
Proof. intros Hg Hp Hk. cbn [rm]. rewrite Hg, Hp. exact Hk. Qed.

Lemma rm_bol_intro s k c x : k 0 c = Some x -> rm s RBol k 0 c = Some x.
Proof. exact (fun H => H). Qed.

Lemma rm_eol_intro s k c x : k (String.length s) c = Some x -> rm s REol k (String.length s) c = Some x.
Proof. intros H. cbn [rm]. rewrite Nat.eqb_refl. exact H. Qed.

Lemma rm_empty_intro s k i c x : k i c = Some x -> rm s REmpty k i c = Some x.
Proof. exact (fun H => H). Qed.

Lemma exec_at_0 r s e c :
  rm s r (fun j c => Some (j, c)) 0 [] = Some (e, c) -> exec r s = Some (mkMatch 0 e c).
Proof.
  intros H. unfold exec. cbn [search_from].
  assert (L : Nat.ltb (String.length s) 0 = false) by (apply Nat.ltb_ge; lia).
  rewrite L, H. reflexivity.
Qed.

Lemma get_app_l (a b : string) j : j < String.length a ->
  String.get j (String.append a b) = String.get j a.
Proof. intros H. symmetry. apply String.append_correct1. exact H. Qed.

Lemma get_app_r (a b : string) j :
  String.get (String.length a + j) (String.append a b) = String.get j b.
Proof. rewrite Nat.add_comm. symmetry. apply String.append_correct2. Qed.

Lemma run_all_chars p s : all_chars p s = true -> run_of p s 0 (String.length s).
Proof.
  intros H j Hj. destruct (String.get j s) as [ch|] eqn:E.
  - exists ch. split; [reflexivity|]. exact (all_chars_get _ _ _ _ H E).
  - exfalso. revert j Hj E. induction s as [|c s IH]; intros j Hj E; simpl in *; [lia|].
    destruct j as [|j]; [discriminate|]. simpl in H. apply andb_true_iff in H as [_ H].
    exact (IH H j ltac:(lia) E).
Qed.

Lemma run_shift p a b i e :
  run_of p b i e -> run_of p (String.append a b) (String.length a + i) (String.length a + e).
Proof.
  intros H j Hj. destruct (H (j - String.length a) ltac:(lia)) as (ch & Hg & Hp).
  exists ch. split; [|exact Hp]. replace j with (String.length a + (j - String.length a)) by lia.
  rewrite get_app_r. exact Hg.
Qed.

Lemma run_prefix p a b i e : e <= String.length a ->
  run_of p a i e -> run_of p (String.append a b) i e.
Proof.
  intros Hl H j Hj. destruct (H j Hj) as (ch & Hg & Hp). exists ch.
  rewrite get_app_l by lia. auto.
Qed.

Lemma get_length_none s : String.get (String.length s) s = None.
Proof. induction s as [|c s IH]; simpl; [reflexivity|exact IH]. Qed.

Lemma substring_app_shift (a b : string) k n :
  substring (String.length a + k) n (String.append a b) = substring k n b.
Proof. induction a as [|c a IH]; simpl; [reflexivity|exact IH]. Qed.

Lemma trim_left_head c p : trim_left (String c p) = String c p -> is_ws c = false.
Proof.
  simpl. destruct (is_ws c) eqn:E; [|reflexivity]. intros H.
  pose proof (trim_left_length p) as L. rewrite H in L. simpl in L. lia.
Qed.

Lemma exec_alias a p :
  all_chars is_word a = true -> a <> EmptyString -> p <> EmptyString ->
  all_chars is_dot p = true -> trim_left p = p ->
  exec re_alias (String.append (String.append a ": ") p) =
  Some (mkMatch 0 (String.length a + 2 + String.length p)
          [(2, (String.length a + 2, String.length a + 2 + String.length p));
           (1, (0, String.length a))]).
Proof.
  intros Ha Hne Hp Hd Ht.
  set (q := String.append a ": ").
  set (na := String.length a).
  assert (Lq : String.length q = na + 2) by (unfold q, na; rewrite str_length_app; reflexivity).
  set (line := String.append q p).
  assert (Ll : String.length line = na + 2 + String.length p)
    by (unfold line; rewrite str_length_app, Lq; reflexivity).
  assert (G0 : String.get na line = Some ":"%char).
  { unfold line. rewrite get_app_l by lia. unfold q, na. rewrite <- (Nat.add_0_r (String.length a)).
    rewrite get_app_r. reflexivity. }
  assert (G1 : String.get (S na) line = Some " "%char).
  { unfold line. rewrite get_app_l by lia. unfold q, na.
    replace (S (String.length a)) with (String.length a + 1) by lia. rewrite get_app_r. reflexivity. }
  assert (G2 : exists c, String.get (na + 2) line = Some c /\ is_ws c = false).
  { unfold line. rewrite <- Lq, <- (Nat.add_0_r (String.length q)), get_app_r.
    destruct p as [|c p']; [congruence|]. exists c. split; [reflexivity|].
    apply trim_left_head with (p := p'). exact Ht. }
  destruct G2 as (c & G2 & Hc).
  apply exec_at_0. unfold re_alias, rseq. cbn [fold_right]. fold line.
  apply rm_seq_intro. apply rm_bol_intro. cbv beta.
  apply rm_seq_intro. apply rm_group_intro. unfold word.
  apply (rm_plus_class _ is_word _ 0 na).
  { unfold na. destruct a; [congruence|simpl; lia]. }
  { lia. }
  { apply run_prefix; [unfold q; rewrite str_length_app; lia|].
    apply run_prefix; [lia|]. apply run_all_chars. exact Ha. }
  { unfold stops. rewrite G0. reflexivity. }
  cbv beta. apply rm_seq_intro. unfold space.
  apply (rm_star_class _ is_ws _ na na); [lia|lia|intros j Hj; lia|unfold stops; rewrite G0; reflexivity|].
  cbv beta. apply rm_seq_intro. apply (rm_class_intro _ _ _ _ _ _ ":"%char G0 (Ascii.eqb_refl _)).
  cbv beta. apply rm_seq_intro.
  apply (rm_star_class _ is_ws _ (S na) (na + 2)); [lia|lia| |unfold stops; rewrite G2; exact Hc|].
  { intros j Hj. replace j with (S na) by lia. exists " "%char. split; [exact G1|reflexivity]. }
  cbv beta. apply rm_seq_intro. apply rm_group_intro. unfold dot.
  apply (rm_plus_class _ is_dot _ (na + 2) (String.length line)).
  { rewrite Ll. destruct p; [congruence|simpl; lia]. }
  { lia. }
  { rewrite Ll, <- Lq. unfold line. rewrite <- (Nat.add_0_r (String.length q)) at 1.
    apply run_shift. apply run_all_chars. exact Hd. }
  { unfold stops. rewrite get_length_none. exact I. }
  cbv beta. apply rm_seq_intro. apply rm_eol_intro. cbv beta. apply rm_empty_intro.
  rewrite Ll. reflexivity.
Qed.

Lemma ends_with_app_char c x p : p <> EmptyString ->
  ends_with (String c EmptyString) (String.append x p) = ends_with (String c EmptyString) p.
Proof.
  intros Hp. unfold ends_with. rewrite str_length_app. simpl String.length.
  assert (Lp : 1 <= String.length p) by (destruct p; [congruence|simpl; lia]).
  assert (E1 : Nat.leb 1 (String.length x + String.length p) = true) by (apply Nat.leb_le; lia).
  assert (E2 : Nat.leb 1 (String.length p) = true) by (apply Nat.leb_le; lia).
  rewrite E1, E2. replace (String.length x + String.length p - 1)
    with (String.length x + (String.length p - 1)) by lia.
  rewrite substring_app_shift. reflexivity.
Qed.

Lemma js_trim_fixed_rev p : js_trim p = p -> trim_left (rev_string p) = rev_string p.
Proof.
  intros H. pose proof (js_trim_fixed p H) as H1. unfold js_trim in H. rewrite H1 in H.
  rewrite <- H at 2. rewrite rev_string_involutive. reflexivity.
Qed.

Lemma js_trim_word_app a x p : all_chars is_word a = true -> a <> EmptyString ->
  p <> EmptyString -> js_trim p = p ->
  js_trim (String.append (String.append a x) p) = String.append (String.append a x) p.
Proof.
  intros Ha Hne Hp Ht. unfold js_trim.
  assert (T1 : trim_left (String.append (String.append a x) p) = String.append (String.append a x) p).
  { rewrite str_app_assoc. apply trim_left_word_app; assumption. }
  assert (T2 : trim_left (rev_string p) = rev_string p) by (apply js_trim_fixed_rev; exact Ht).
  assert (T3 : trim_left (rev_string p) <> EmptyString).
  { rewrite T2. intros E. apply (f_equal String.length) in E. rewrite rev_string_length in E.
    destruct p; [congruence|discriminate]. }
  rewrite T1, rev_string_app, (trim_left_app _ _ T3), T2, <- rev_string_app.
  apply rev_string_involutive.
Qed.

Lemma no_char_word_app d a x p : is_word d = false -> all_chars is_word a = true ->
  no_char d x = true -> no_char d p = true -> no_char d (String.append (String.append a x) p) = true.
Proof.
  intros Hd Ha Hx Hp. rewrite !no_char_app, Hx, Hp, word_no_char by assumption. reflexivity.
Qed.

Lemma step_alias rd cur ctx a p :
  all_chars is_word a = true -> a <> EmptyString -> p <> EmptyString ->
  js_trim p = p -> all_chars is_dot p = true -> ends_with "," p = false ->
  no_char "@" p = true -> no_char "{" p = true ->
  step rd (cur, ctx) (String.append a (String.append ": " p)) =
  Ok (assoc_set a (if has_dot_or_bracket p then PFunTop p rd else PObj [("path", PStr p)]) cur, ctx).
Proof.
  intros Ha Hne Hp Ht Hd Hc Hat Hb.
  destruct needs_facts as (N1 & N2 & N3 & N4 & N5 & _).
  rewrite <- str_app_assoc. set (line := String.append (String.append a ": ") p).
  assert (Ec : drop_comma line = line).
  { unfold drop_comma, line. rewrite ends_with_app_char, Hc by exact Hp. reflexivity. }
  assert (Et : js_trim line = line) by (apply js_trim_word_app; assumption).
  assert (Ha' : no_char "@" line = true) by (apply no_char_word_app; reflexivity || assumption).
  assert (Hb' : no_char "{" line = true) by (apply no_char_word_app; reflexivity || assumption).
  assert (Hd' : starts_with "..." line = false).
  { unfold line. rewrite str_app_assoc. apply starts_with_word; simpl; auto. }
  assert (Hr : String.eqb line "}" = false).
  { apply String.eqb_neq. intros E. apply (f_equal String.length) in E.
    unfold line in E. rewrite !str_length_app in E. simpl in E. lia. }
  assert (Ex := exec_alias a p Ha Hne Hp Hd (js_trim_fixed p Ht)). fold line in Ex.
  assert (G1 : m_grp line (mkMatch 0 (String.length a + 2 + String.length p)
          [(2, (String.length a + 2, String.length a + 2 + String.length p));
           (1, (0, String.length a))]) 1 = a).
  { unfold m_grp, m_group. cbn [m_caps cap_lookup Nat.eqb]. rewrite Nat.sub_0_r.
    unfold line. rewrite str_app_assoc. apply substring_0_app. }
  assert (G2 : m_grp line (mkMatch 0 (String.length a + 2 + String.length p)
          [(2, (String.length a + 2, String.length a + 2 + String.length p));
           (1, (0, String.length a))]) 2 = p).
  { unfold m_grp, m_group. cbn [m_caps cap_lookup Nat.eqb].
    replace (String.length a + 2 + String.length p - (String.length a + 2)) with (String.length p) by lia.
    unfold line. replace (String.length a + 2) with (String.length (String.append a ": ") + 0)
      by (rewrite str_length_app; simpl; lia).
    rewrite substring_app_shift. apply substring_0_length. }
  unfold step. rewrite Ec, Et.
  rewrite (exec_no_char _ _ _ N1 Ha'), (exec_no_char _ _ _ N2 Ha'),
    (exec_no_char _ _ _ N3 Ha'), (exec_no_char _ _ _ N4 Ha').
  unfold step_rest. rewrite (exec_no_char _ _ _ N5 Hb'), Hd', Hr.
  rewrite (ends_with_char_false _ _ Hb'), (includes_char_false _ _ Hb'), Ex, G1, G2.
  destruct (has_dot_or_bracket p); reflexivity.
Qed.

(** X9.  An alias line [a: p] compiles to a function field evaluating [p] (with
    [rootData ?? data] as root) when [p] contains a dot or an opening
    bracket, and to the directive [{ path: p }] otherwise. *)
Theorem parseQuery_alias_line (a p : string) (rd : val) :
  all_chars is_word a = true -> a <> EmptyString -> p <> EmptyString ->
  js_trim p = p -> all_chars is_dot p = true -> ends_with "," p = false ->
  no_char "@" p = true -> no_char "{" p = true ->
  parseQuery (String.append a (String.append ": " p)) rd =
  Ok [(a, if has_dot_or_bracket p then PFunTop p rd else PObj [("path", PStr p)])].
Proof.
  intros Ha Hne Hp Ht Hd Hc Hat Hb.
  assert (Hnl : no_char (ascii_of_nat 10) (String.append a (String.append ": " p)) = true).
  { rewrite <- str_app_assoc. apply no_char_word_app; try reflexivity; try assumption.
    eapply all_chars_impl; [|exact Hd]. intros ch Hch. unfold is_dot in Hch.
    apply negb_true_iff, orb_false_iff in Hch as [Hch _].
    destruct (Ascii.eqb_spec ch (ascii_of_nat 10)) as [->|]; [discriminate|reflexivity]. }
  unfold parseQuery. rewrite query_lines_one by exact Hnl.
  rewrite <- str_app_assoc, js_trim_word_app by assumption.
  assert (E1 : String.eqb (String.append (String.append a ": ") p) "" = false)
    by (destruct a; [congruence|reflexivity]).
  assert (E2 : starts_with "#" (String.append (String.append a ": ") p) = false).
  { rewrite str_app_assoc. apply starts_with_word; simpl; auto. }
  rewrite E1, E2. cbn [negb andb]. unfold parse_lines. cbn [fold_res].
  rewrite str_app_assoc, step_alias by assumption. reflexivity.
Qed.

Lemma star_loop_class_none s p : forall fuel i e k c,
  i <= e -> run_of p s i e -> stops p s e -> (forall j, i <= j <= e -> k j c = None) ->
  star_loop (rm s (RClass p)) [] k fuel i c = None.
Proof.
  induction fuel as [|f IH]; intros i e k c Hie Hrun Hstop Hk; [reflexivity|].
  cbn [star_loop]. rewrite reset_nil, rm_class_eq.
  destruct (Nat.eq_dec i e) as [->|Hne].
  - unfold stops in Hstop. destruct (String.get e s) as [ch|]; [rewrite Hstop|]; apply Hk; lia.
  - destruct (Hrun i ltac:(lia)) as (ch & Hg & Hp). rewrite Hg, Hp.
    assert (Hl : Nat.ltb i (S i) = true) by (apply Nat.ltb_lt; lia). rewrite Hl.
    rewrite (IH (S i) e k c) by (lia || (intros j Hj; apply Hrun; lia) || assumption
                                 || (intros j Hj; apply Hk; lia)).
    apply Hk; lia.
Qed.

Lemma star_loop_class_back s p : forall fuel i e' e k c x,
  i <= e' <= e -> e - i < fuel -> run_of p s i e -> stops p s e ->
  (forall j, e' < j <= e -> k j c = None) -> k e' c = Some x ->
  star_loop (rm s (RClass p)) [] k fuel i c = Some x.
Proof.
  induction fuel as [|f IH]; intros i e' e k c x Hie Hf Hrun Hstop Hn Hk; [lia|].
  cbn [star_loop]. rewrite reset_nil, rm_class_eq.
  destruct (Nat.eq_dec i e) as [->|Hne].
  - replace e' with e in Hk by lia.
    unfold stops in Hstop. destruct (String.get e s) as [ch|]; [rewrite Hstop|]; exact Hk.
  - destruct (Hrun i ltac:(lia)) as (ch & Hg & Hp). rewrite Hg, Hp.
    assert (Hl : Nat.ltb i (S i) = true) by (apply Nat.ltb_lt; lia). rewrite Hl.
    destruct (Nat.eq_dec i e') as [<-|Hne'].
    + rewrite (star_loop_class_none s p f (S i) e k c)
        by (lia || (intros j Hj; apply Hrun; lia) || assumption || (intros j Hj; apply Hn; lia)).
      exact Hk.
    + rewrite (IH (S i) e' e k c x) by (lia || (intros j Hj; apply Hrun; lia) || assumption).
      reflexivity.
Qed.

Lemma rm_star_class_back s p k i e' e c x :
  i <= e' <= e -> e <= String.length s -> run_of p s i e -> stops p s e ->
  (forall j, e' < j <= e -> k j c = None) -> k e' c = Some x ->
  rm s (RStar (RClass p)) k i c = Some x.
Proof. intros. cbn [rm groups]. eapply star_loop_class_back; eauto. lia. Qed.

Lemma exec_paren k args :
  all_chars is_word k = true -> k <> EmptyString -> all_chars is_dot args = true ->
  exec re_paren (String.append (String.append k "(") (String.append args ")")) =
  Some (mkMatch 0 (String.length k + 2 + String.length args)
          [(2, (String.length k + 1, String.length k + 1 + String.length args));
           (1, (0, String.length k))]).
Proof.
  intros Hk Hne Hd.
  set (q := String.append k "(").
  set (na := String.length k).
  set (nb := String.length args).
  assert (Lq : String.length q = na + 1) by (unfold q, na; rewrite str_length_app; reflexivity).
  set (h := String.append q (String.append args ")")).
  assert (Lh : String.length h = na + 2 + nb)
    by (unfold h; rewrite !str_length_app, Lq; simpl; unfold nb; lia).
  assert (G0 : String.get na h = Some "("%char).
  { unfold h. rewrite get_app_l by lia. unfold q, na. rewrite <- (Nat.add_0_r (String.length k)).
    rewrite get_app_r. reflexivity. }
  assert (G1 : String.get (na + 1 + nb) h = Some ")"%char).
  { unfold h. rewrite <- Lq, get_app_r. unfold nb. rewrite <- (Nat.add_0_r (String.length args)).
    rewrite get_app_r. reflexivity. }
  assert (G2 : String.get (na + 2 + nb) h = None) by (rewrite <- Lh; apply get_length_none).
  apply exec_at_0. unfold re_paren, rseq. cbn [fold_right]. fold h.
  apply rm_seq_intro. apply rm_bol_intro. cbv beta.
  apply rm_seq_intro. apply rm_group_intro. unfold word.
  apply (rm_plus_class _ is_word _ 0 na).
  { unfold na. destruct k; [congruence|simpl; lia]. }
  { lia. }
  { apply run_prefix; [unfold q; rewrite str_length_app; lia|].
    apply run_prefix; [lia|]. apply run_all_chars. exact Hk. }
  { unfold stops. rewrite G0. reflexivity. }
  cbv beta. apply rm_seq_intro. apply (rm_class_intro _ _ _ _ _ _ "("%char G0 (Ascii.eqb_refl _)).
  cbv beta. apply rm_seq_intro. apply rm_group_intro. unfold dot.
  apply (rm_star_class_back _ is_dot _ (S na) (na + 1 + nb) (na + 2 + nb)).
  { lia. }
  { lia. }
  { replace (S na) with (String.length q + 0) by lia.
    replace (na + 2 + nb) with (String.length q + String.length (String.append args ")"))
      by (rewrite str_length_app, Lq; simpl; unfold nb; lia).
    apply run_shift. apply run_all_chars. rewrite all_chars_app, Hd. reflexivity. }
  { unfold stops. rewrite G2. exact I. }
  { intros j Hj. replace j with (na + 2 + nb) by lia. cbv beta. cbn [rm]. unfold chr. rewrite rm_class_eq, G2. reflexivity. }
  cbv beta. apply rm_seq_intro. apply (rm_class_intro _ _ _ _ _ _ ")"%char G1 (Ascii.eqb_refl _)).
  cbv beta. apply rm_empty_intro. replace (S (na + 1 + nb)) with (na + 2 + nb) by lia.
  replace (S na) with (na + 1) by lia. reflexivity.
Qed.

Lemma trim_left_all_ws s y : trim_left s = EmptyString ->
  trim_left (String.append s y) = trim_left y.
Proof.
  induction s as [|c s IH]; simpl; [reflexivity|].
  destruct (is_ws c); [exact IH|discriminate].
Qed.

Lemma js_trim_sp s : js_trim (String.append s " ") = js_trim s.
Proof.
  unfold js_trim. destruct (trim_left s) eqn:E.
  - rewrite trim_left_all_ws by exact E. reflexivity.
  - rewrite trim_left_app by (rewrite E; discriminate). rewrite E, rev_string_app. reflexivity.
Qed.

Lemma js_trim_word_last k x d : all_chars is_word k = true -> k <> EmptyString -> is_ws d = false ->
  js_trim (String.append k (String.append x (String d EmptyString))) =
  String.append k (String.append x (String d EmptyString)).
Proof.
  intros Hk Hne Hd. unfold js_trim. rewrite trim_left_word_app by assumption.
  assert (R : rev_string (String.append k (String.append x (String d EmptyString))) =
              String d (String.append (rev_string x) (rev_string k))).
  { rewrite !rev_string_app. reflexivity. }
  rewrite R. cbn [trim_left]. rewrite Hd. rewrite <- R. apply rev_string_involutive.
Qed.

Lemma no_char_single d c : no_char d (String c EmptyString) = negb (Ascii.eqb c d).
Proof. unfold no_char. simpl. apply andb_true_r. Qed.

Lemma step_header_args rd cur ctx k args :
  all_chars is_word k = true -> k <> EmptyString -> all_chars is_dot args = true ->
  no_char "@" args = true -> no_char "}" args = true ->
  step rd (cur, ctx) (String.append k (String.append "(" (String.append args ") {"))) =
  res_map (fun a => ([], mkFrame cur k (assign_args a [("nested", PHole)]) :: ctx))
    (parseArgs (js_trim args)).
Proof.
  intros Hk Hne Hd Ha Hb.
  destruct needs_facts as (N1 & N2 & N3 & N4 & _ & N6 & _ & N8 & N9 & _).
  set (Y := String.append "(" (String.append args ") ")).
  set (Z := String.append "(" args).
  set (H := String.append k (String.append Z ")")).
  assert (EL : String.append k (String.append "(" (String.append args ") {")) =
               String.append (String.append k Y) "{").
  { unfold Y. rewrite !str_app_assoc. reflexivity. }
  assert (EX : String.append k Y = String.append H " ")
    by (unfold Y, H, Z; rewrite !str_app_assoc; reflexivity).
  rewrite EL. set (line := String.append (String.append k Y) "{").
  assert (Ec : drop_comma line = line).
  { unfold drop_comma, line. rewrite ends_with_app_char by discriminate. reflexivity. }
  assert (Et : js_trim line = line).
  { unfold line. rewrite str_app_assoc. apply js_trim_word_last; auto. }
  assert (Nx : forall d, is_word d = false -> no_char d args = true ->
                 Ascii.eqb d "(" = false -> Ascii.eqb d ")" = false -> Ascii.eqb d " " = false ->
                 Ascii.eqb d "{" = false -> no_char d line = true /\ no_char d H = true).
  { intros d Hw Hn H1 H2 H3 H4. unfold line. rewrite EX. unfold H, Z.
    rewrite !no_char_app, Hn, word_no_char by assumption.
    rewrite !no_char_single, !(Ascii.eqb_sym _ d), H1, H2, H3, H4. split; reflexivity. }
  destruct (Nx "@"%char eq_refl Ha eq_refl eq_refl eq_refl eq_refl) as [Ha' Hha].
  destruct (Nx "}"%char eq_refl Hb eq_refl eq_refl eq_refl eq_refl) as [Hb' _].
  assert (Hs : starts_with "..." line = false).
  { unfold line. rewrite !str_app_assoc. apply starts_with_word; simpl; auto. }
  assert (He : ends_with "{" line = true) by apply ends_with_last.
  assert (Hh : js_trim (slice_drop_last 0 line) = H).
  { unfold slice_drop_last, line. rewrite str_length_app. simpl String.length.
    replace (String.length (String.append k Y) + 1 - 1 - 0) with (String.length (String.append k Y)) by lia.
    rewrite substring_0_app, EX, js_trim_sp. unfold H. apply js_trim_word_last; auto. }
  assert (Ep : exec re_paren H =
    Some (mkMatch 0 (String.length k + 2 + String.length args)
          [(2, (String.length k + 1, String.length k + 1 + String.length args));
           (1, (0, String.length k))])).
  { replace H with (String.append (String.append k "(") (String.append args ")"))
      by (unfold H, Z; rewrite !str_app_assoc; reflexivity).
    apply exec_paren; assumption. }
  set (m := mkMatch 0 (String.length k + 2 + String.length args)
          [(2, (String.length k + 1, String.length k + 1 + String.length args));
           (1, (0, String.length k))]) in Ep.
  assert (G1 : m_grp H m 1 = k).
  { unfold m_grp, m_group, m. cbn [m_caps cap_lookup Nat.eqb]. rewrite Nat.sub_0_r.
    unfold H. apply substring_0_app. }
  assert (G2 : m_grp H m 2 = args).
  { unfold m_grp, m_group, m. cbn [m_caps cap_lookup Nat.eqb].
    replace (String.length k + 1 + String.length args - (String.length k + 1))
      with (String.length args) by lia.
    replace H with (String.append (String.append k "(") (String.append args ")"))
      by (unfold H, Z; rewrite !str_app_assoc; reflexivity).
    replace (String.length k + 1) with (String.length (String.append k "(") + 0)
      by (rewrite str_length_app; simpl; lia).
    rewrite substring_app_shift. apply substring_0_app. }
  assert (Tk : js_trim k = k) by (apply js_trim_no_ws, word_no_ws, Hk).
  unfold step. rewrite Ec, Et.
  rewrite (exec_no_char _ _ _ N1 Ha'), (exec_no_char _ _ _ N2 Ha'),
    (exec_no_char _ _ _ N3 Ha'), (exec_no_char _ _ _ N4 Ha').
  unfold step_rest. rewrite (exec_no_char _ _ _ N6 Hb'), Hs, He, Hh.
  rewrite (exec_no_char _ _ _ N8 Hha), (exec_no_char _ _ _ N9 Hha), Ep.
  fold m. rewrite G1, G2, Tk.
  destruct (parseArgs (js_trim args)); reflexivity.
Qed.

Lemma fill_assign_args child a d :
  fill child (assign_args a d) = assign_args a (fill child d).
Proof.
  unfold assign_args. revert d. induction a as [|[key v] a IH]; intros d; simpl; [reflexivity|].
  rewrite IH. f_equal. clear IH. induction d as [|[k1 v1] d IHd]; simpl.
  - destruct v; reflexivity.
  - destruct (String.eqb key k1); simpl.
    + destruct v; reflexivity.
    + rewrite IHd. reflexivity.
Qed.

Lemma dot_no_nl s : all_chars is_dot s = true -> no_char (ascii_of_nat 10) s = true.
Proof.
  apply all_chars_impl. intros ch Hch. unfold is_dot in Hch.
  apply negb_true_iff, orb_false_iff in Hch as [Hch _].
  destruct (Ascii.eqb_spec ch (ascii_of_nat 10)) as [->|]; [discriminate|reflexivity].
Qed.

(** X10.  A block header [k(args) {] compiles to the directive [{ nested }] over
    which [Object.assign] copies [parseArgs(args.trim())]; the nested query
    holds the fields of the block, and an exception of [parseArgs]
    propagates out of [parseQuery]. *)
Theorem parseQuery_block_args (k args : string) (body : list string) (rd : val) :
  all_chars is_word k = true -> k <> EmptyString -> all_chars is_dot args = true ->
  no_char "@" args = true -> no_char "}" args = true -> forallb plain_line body = true ->
  parseQuery (String.concat nl
    (String.append k (String.append "(" (String.append args ") {")) :: body ++ ["}"])) rd =
  res_map (fun a => [(k, PObj (assign_args a
              [("nested", PObj (fold_left (fun ps l => assoc_set l (PStr l) ps) body []))]))])
    (parseArgs (js_trim args)).
Proof.
  intros Hk Hne Hd Ha Hb Hbody. apply forallb_Forall in Hbody.
  unfold parseQuery. rewrite query_lines_concat.
  - unfold parse_lines. cbn [fold_res]. rewrite step_header_args by assumption.
    destruct (parseArgs (js_trim args)) as [a| |]; [|reflexivity|reflexivity]. cbn [res_map].
    rewrite fold_res_app. fold (parse_lines rd body ([], [mkFrame [] k (assign_args a [("nested", PHole)])])).
    rewrite parse_plain by exact Hbody. cbn [res_bind fold_res]. rewrite step_brace.
    cbn [res_map fst snd close_all]. unfold close. cbn [fr_key fr_directive fr_parent].
    rewrite fill_assign_args. reflexivity.
  - constructor.
    + repeat split.
      * replace (String.append k (String.append "(" (String.append args ") {"))) with
          (String.append k (String.append (String.append "(" (String.append args ") ")) "{"))
          by (rewrite !str_app_assoc; reflexivity).
        apply js_trim_word_last; auto.
      * destruct k; [congruence|discriminate].
      * rewrite !no_char_app, (dot_no_nl args Hd), (word_no_char (ascii_of_nat 10) k eq_refl Hk). reflexivity.
      * apply starts_with_word; simpl; auto.
    + apply Forall_app. split; [|constructor; [repeat split; (reflexivity || discriminate)|constructor]].
      eapply Forall_impl; [|exact Hbody]. intros x Hx.
      destruct (plain_line_spec x Hx) as (Ht & Hn & _ & _ & _ & _ & Hnl & _ & Hh & _). auto.
Qed.

Lemma substring_get s : forall i n a t,
  substring i (S n) s = String a t -> String.get i s = Some a /\ substring (S i) n s = t.
Proof.
  induction s as [|c s IH]; intros i n a t H.
  - destruct i; discriminate.
  - destruct i as [|i]; simpl in H.
    + injection H as <- <-. split; [reflexivity|]. simpl. destruct n; [destruct s|]; reflexivity.
    + apply IH in H. exact H.
Qed.

Lemma rm_lit_intro s w : forall k i c x,
  substring i (String.length w) s = w -> k (i + String.length w) c = Some x ->
  rm s (lit w) k i c = Some x.
Proof.
  induction w as [|a w IH]; intros k i c x Hs Hk; simpl in *.
  - rewrite Nat.add_0_r in Hk. exact Hk.
  - apply substring_get in Hs as [Hg Hs].
    rewrite Hg, Ascii.eqb_refl.
    apply IH; [exact Hs|]. rewrite <- Hk. f_equal. lia.
Qed.

Lemma get_tail_not (x t : string) d j ch : no_char d t = true ->
  String.length x <= j -> String.get j (String.append x t) = Some ch -> ch <> d.
Proof.
  intros Ht Hj Hg. replace j with (String.length x + (j - String.length x)) in Hg by lia.
  rewrite get_app_r in Hg. pose proof (all_chars_get _ _ _ _ Ht Hg) as H.
  cbv beta in H. intros ->. rewrite Ascii.eqb_refl in H. discriminate.
Qed.

Lemma exec_skip k cond rest :
  all_chars is_word k = true -> k <> EmptyString -> all_chars is_dot cond = true ->
  all_chars is_dot rest = true -> no_char dq rest = true ->
  exec re_skip (skip_line k cond rest) =
  Some (mkMatch 0 (String.length k + 14 + String.length cond)
          [(2, (String.length k + 12, String.length k + 12 + String.length cond));
           (1, (0, String.length k))]).
Proof.
  intros Hk Hne Hc Hr Hq.
  set (na := String.length k). set (nc := String.length cond).
  set (T := String.append " @skip(if: "
    (String.append dqs (String.append cond (String.append dqs (String.append ")" rest))))).
  set (P := String.append k (String.append " @skip(if: " dqs)).
  set (R := String.append dqs (String.append ")" rest)).
  assert (LP : String.length P = na + 12) by (unfold P; rewrite str_length_app; reflexivity).
  assert (EL : skip_line k cond rest = String.append P (String.append cond R))
    by (unfold skip_line, P, R; rewrite !str_app_assoc; reflexivity).
  assert (EL' : skip_line k cond rest = String.append k T) by reflexivity.
  assert (LL : String.length (skip_line k cond rest) = na + 14 + nc + String.length rest).
  { rewrite EL, !str_length_app, LP. unfold R. rewrite str_length_app. simpl. unfold nc. lia. }
  assert (GT : forall j, String.get (na + j) (skip_line k cond rest) = String.get j T)
    by (intros j; rewrite EL'; apply get_app_r).
  assert (GQ : forall j, String.get (na + 12 + j) (skip_line k cond rest) =
                         String.get j (String.append cond R))
    by (intros j; rewrite EL, <- LP; apply get_app_r).
  set (line := skip_line k cond rest) in *.
  apply exec_at_0. unfold re_skip, rseq. cbn [fold_right].
  apply rm_seq_intro. apply rm_group_intro. unfold word.
  apply (rm_plus_class _ is_word _ 0 na).
  { unfold na. destruct k; [congruence|simpl; lia]. }
  { lia. }
  { rewrite EL'. apply run_prefix; [lia|]. apply run_all_chars. exact Hk. }
  { unfold stops. rewrite <- (Nat.add_0_r na), GT. reflexivity. }
  cbv beta. apply rm_seq_intro. unfold space.
  apply (rm_plus_class _ is_ws _ na (na + 1)); [lia|lia| | |].
  { intros j Hj. replace j with (na + 0) by lia. rewrite GT. exists " "%char. split; reflexivity. }
  { unfold stops. rewrite GT. reflexivity. }
  cbv beta. apply rm_seq_intro. apply rm_lit_intro.
  { rewrite EL'. replace (na + 1) with (String.length k + 1) by reflexivity.
    rewrite substring_app_shift. reflexivity. }
  cbv beta. apply rm_seq_intro. simpl String.length. replace (na + 1 + 9) with (na + 10) by lia.
  apply (rm_star_class _ is_ws _ (na + 10) (na + 11)); [lia|lia| | |].
  { intros j Hj. replace j with (na + 10) by lia. rewrite GT. exists " "%char. split; reflexivity. }
  { unfold stops. rewrite GT. reflexivity. }
  cbv beta. apply rm_seq_intro. unfold chr.
  apply (rm_class_intro _ _ _ _ _ _ dq); [rewrite GT; reflexivity|apply Ascii.eqb_refl|].
  cbv beta. apply rm_seq_intro. apply rm_group_intro. unfold dot.
  apply (rm_star_class_back _ is_dot _ (S (na + 11)) (na + 12 + nc) (na + 14 + nc + String.length rest)).
  { lia. }
  { lia. }
  { replace (S (na + 11)) with (na + 12 + 0) by lia.
    replace (na + 14 + nc + String.length rest) with (na + 12 + String.length (String.append cond R))
      by (unfold R, nc; rewrite !str_length_app; simpl; lia).
    intros j Hj. replace j with (na + 12 + (j - (na + 12))) by lia. rewrite GQ.
    apply run_all_chars; [|lia].
    unfold R. rewrite !all_chars_app, Hc, Hr. reflexivity. }
  { unfold stops. rewrite <- LL. rewrite get_length_none. exact I. }
  { intros j Hj. cbv beta. cbn [rm].
    destruct (String.get j line) as [ch|] eqn:G; [|reflexivity].
    assert (Hn : ch <> dq).
    { rewrite EL in G. apply (get_tail_not (String.append P (String.append cond dqs))
        (String.append ")" rest) dq j ch).
      - rewrite no_char_app, Hq. reflexivity.
      - rewrite !str_length_app, LP. simpl. unfold nc in Hj. lia.
      - rewrite <- G. f_equal. unfold R. rewrite !str_app_assoc. reflexivity. }
    destruct (Ascii.eqb_spec ch dq); [contradiction|reflexivity]. }
  cbv beta. apply rm_seq_intro.
  apply (rm_class_intro _ _ _ _ _ _ dq); [|apply Ascii.eqb_refl|].
  { unfold nc. rewrite GQ. unfold R. rewrite <- (Nat.add_0_r (String.length cond)), get_app_r.
    reflexivity. }
  cbv beta. apply rm_seq_intro.
  apply (rm_class_intro _ _ _ _ _ _ ")"%char); [|apply Ascii.eqb_refl|].
  { replace (S (na + 12 + nc)) with (na + 12 + (String.length cond + 1)) by (unfold nc; lia).
    rewrite GQ. unfold R. rewrite get_app_r. reflexivity. }
  cbv beta. apply rm_empty_intro.
  replace (S (S (na + 12 + nc))) with (na + 14 + nc) by lia.
  replace (S (na + 11)) with (na + 12) by lia. reflexivity.
Qed.

Lemma step_skip_line rd cur ctx k cond rest :
  all_chars is_word k = true -> k <> EmptyString -> all_chars is_dot cond = true ->
  rest = EmptyString \/ rest = " {" ->
  step rd (cur, ctx) (skip_line k cond rest) =
  Ok (assoc_set k (PObj [("skipIf", PStr cond)]) cur, ctx).
Proof.
  intros Hk Hne Hc Hr.
  assert (Hr1 : all_chars is_dot rest = true) by (destruct Hr as [->| ->]; reflexivity).
  assert (Hr2 : no_char dq rest = true) by (destruct Hr as [->| ->]; reflexivity).
  assert (Ec : drop_comma (skip_line k cond rest) = skip_line k cond rest).
  { unfold drop_comma, skip_line.
    repeat rewrite ends_with_app_char by (unfold dqs; destruct Hr as [->| ->]; try destruct cond; discriminate).
    destruct Hr as [->| ->]; reflexivity. }
  assert (Et : js_trim (skip_line k cond rest) = skip_line k cond rest).
  { unfold skip_line. destruct Hr as [->| ->].
    - replace (String.append " @skip(if: " (String.append dqs (String.append cond
        (String.append dqs (String.append ")" EmptyString)))))
        with (String.append (String.append " @skip(if: " (String.append dqs (String.append cond dqs)))
               (String ")" EmptyString)) by (rewrite !str_app_assoc; reflexivity).
      apply js_trim_word_last; auto.
    - replace (String.append " @skip(if: " (String.append dqs (String.append cond
        (String.append dqs (String.append ")" " {")))))
        with (String.append (String.append " @skip(if: " (String.append dqs (String.append cond
               (String.append dqs ") ")))) (String "{" EmptyString)) by (rewrite !str_app_assoc; reflexivity).
      apply js_trim_word_last; auto. }
  pose proof (exec_skip k cond rest Hk Hne Hc Hr1 Hr2) as Ex.
  set (m := mkMatch 0 (String.length k + 14 + String.length cond)
          [(2, (String.length k + 12, String.length k + 12 + String.length cond));
           (1, (0, String.length k))]) in Ex.
  assert (G1 : m_grp (skip_line k cond rest) m 1 = k).
  { unfold m_grp, m_group, m. cbn [m_caps cap_lookup Nat.eqb]. rewrite Nat.sub_0_r.
    unfold skip_line. apply substring_0_app. }
  assert (G2 : m_grp (skip_line k cond rest) m 2 = cond).
  { unfold m_grp, m_group, m. cbn [m_caps cap_lookup Nat.eqb].
    replace (String.length k + 12 + String.length cond - (String.length k + 12))
      with (String.length cond) by lia.
    replace (skip_line k cond rest) with
      (String.append (String.append k (String.append " @skip(if: " dqs))
        (String.append cond (String.append dqs (String.append ")" rest))))
      by (unfold skip_line; rewrite !str_app_assoc; reflexivity).
    replace (String.length k + 12) with (String.length (String.append k (String.append " @skip(if: " dqs)) + 0)
      by (rewrite str_length_app; simpl; lia).
    rewrite substring_app_shift. apply substring_0_app. }
  unfold step. rewrite Ec, Et, Ex, G1, G2. reflexivity.
Qed.

(** X11.  The line [k @skip(if: "cond")] compiles to [{ k: { skipIf: "cond" } }]. *)
Theorem parseQuery_inline_skip (k cond : string) (rd : val) :
  all_chars is_word k = true -> k <> EmptyString -> all_chars is_dot cond = true ->
  parseQuery (skip_line k cond EmptyString) rd = Ok [(k, PObj [("skipIf", PStr cond)])].
Proof.
  intros Hk Hne Hc. unfold parseQuery.
  assert (Hnl : no_char (ascii_of_nat 10) (skip_line k cond EmptyString) = true).
  { unfold skip_line. rewrite !no_char_app, (dot_no_nl cond Hc), (word_no_char (ascii_of_nat 10) k eq_refl Hk).
    reflexivity. }
  rewrite query_lines_one by exact Hnl.
  assert (Et : js_trim (skip_line k cond EmptyString) = skip_line k cond EmptyString).
  { unfold skip_line.
    replace (String.append " @skip(if: " (String.append dqs (String.append cond
        (String.append dqs (String.append ")" EmptyString)))))
        with (String.append (String.append " @skip(if: " (String.append dqs (String.append cond dqs)))
               (String ")" EmptyString)) by (rewrite !str_app_assoc; reflexivity).
    apply js_trim_word_last; auto. }
  rewrite Et.
  assert (E1 : String.eqb (skip_line k cond EmptyString) "" = false)
    by (unfold skip_line; destruct k; [congruence|reflexivity]).
  assert (E2 : starts_with "#" (skip_line k cond EmptyString) = false)
    by (unfold skip_line; apply starts_with_word; simpl; auto).
  rewrite E1, E2. cbn [negb andb]. unfold parse_lines. cbn [fold_res].
  rewrite step_skip_line by auto. reflexivity.
Qed.

(** X12.  A block header [k @skip(if: "cond") {] is taken by the inline
    [@skip] branch before the block branch: it stores [{ skipIf: "cond" }]
    under [k] and opens no block, so the fields of the body land in the
    enclosing object and the closing [}] is ignored. *)
Theorem parseQuery_skip_header_not_block (k cond : string) (body : list string) (rd : val) :
  all_chars is_word k = true -> k <> EmptyString -> all_chars is_dot cond = true ->
  forallb plain_line body = true ->
  parseQuery (String.concat nl (skip_line k cond " {" :: body ++ ["}"])) rd =
  Ok (fold_left (fun ps l => assoc_set l (PStr l) ps) body [(k, PObj [("skipIf", PStr cond)])]).
Proof.
  intros Hk Hne Hc Hb. apply forallb_Forall in Hb.
  unfold parseQuery. rewrite query_lines_concat.
  - unfold parse_lines. cbn [fold_res]. rewrite step_skip_line by auto. cbn [assoc_set].
    rewrite fold_res_app. fold (parse_lines rd body ([(k, PObj [("skipIf", PStr cond)])], [])).
    rewrite parse_plain by exact Hb. cbn [res_bind fold_res]. rewrite step_brace. reflexivity.
  - constructor.
    + repeat split.
      * unfold skip_line.
        replace (String.append " @skip(if: " (String.append dqs (String.append cond
          (String.append dqs (String.append ")" " {")))))
          with (String.append (String.append " @skip(if: " (String.append dqs (String.append cond
                 (String.append dqs ") ")))) (String "{" EmptyString)) by (rewrite !str_app_assoc; reflexivity).
        apply js_trim_word_last; auto.
      * unfold skip_line. destruct k; [congruence|discriminate].
      * unfold skip_line. rewrite !no_char_app, (dot_no_nl cond Hc), (word_no_char (ascii_of_nat 10) k eq_refl Hk).
        reflexivity.
      * unfold skip_line. apply starts_with_word; simpl; auto.
    + apply Forall_app. split; [|constructor; [repeat split; (reflexivity || discriminate)|constructor]].
      eapply Forall_impl; [|exact Hb]. intros x Hx.
      destruct (plain_line_spec x Hx) as (Ht & Hn & _ & _ & _ & _ & Hnl & _ & Hh & _). auto.
Qed.

(** ** [parseArgs] *)

Lemma word_plain c : is_word c = true -> plain_value_char c = true /\ is_ws c = false.
Proof.
  intros H.
  assert (A : forallb (fun c => negb (is_word c) || (plain_value_char c && negb (is_ws c))) all_ascii = true)
    by (vm_compute; reflexivity).
  pose proof (proj1 (forallb_forall _ _) A c (in_all_ascii c)) as B. cbv beta in B.
  rewrite H in B. simpl in B. apply andb_true_iff in B as [B1 B2].
  split; [exact B1|]. destruct (is_ws c); [discriminate|reflexivity].
Qed.

Lemma js_trim_sp_l s : js_trim (String " " s) = js_trim s.
Proof. reflexivity. Qed.

Lemma js_trim_word k : all_chars is_word k = true -> js_trim k = k.
Proof. intros H. apply js_trim_no_ws, word_no_ws, H. Qed.

Lemma add_arg_kv sp k w rest args :
  sp = "" \/ sp = " " -> all_chars is_word k = true -> k <> EmptyString ->
  no_char ":" w = true -> (rest = "" \/ exists r, rest = String ":" r) ->
  add_arg (String.append sp (String.append k (String.append ": " (String.append w rest)))) args
  = Ok (assoc_set k (if String.eqb k "limit" || String.eqb k "skip"
                     then ANum (parse_int (Some (js_trim w)))
                     else AStr (strip_quotes (js_trim w))) args).
Proof.
  intros Hsp Hk Hne Hw Hrest. unfold add_arg. rewrite js_split_1.
  assert (E : String.append sp (String.append k (String.append ": " (String.append w rest)))
              = String.append (String.append sp k) (String ":" (String " " (String.append w rest))))
    by (rewrite str_app_assoc; reflexivity).
  rewrite E, split1_app.
  assert (Hk' : no_char ":" (String.append sp k) = true).
  { rewrite no_char_app. apply andb_true_iff. split.
    - destruct Hsp as [-> | ->]; reflexivity.
    - apply word_no_char; [reflexivity|exact Hk]. }
  rewrite (split1_no_sep _ _ _ Hk').
  assert (Hv : exists tl, split1 ":" (String " " (String.append w rest)) "" = String " " w :: tl).
  { destruct Hrest as [-> | [r ->]].
    - rewrite str_app_nil_r. exists []. apply split1_no_sep. exact Hw.
    - exists (split1 ":" r ""). change (String " " (String.append w (String ":" r)))
        with (String.append (String " " w) (String ":" r)).
      rewrite split1_app. rewrite split1_no_sep; [reflexivity|exact Hw]. }
  destruct Hv as [tl ->]. cbn [map app hd_error String.append]. change (js_trim (String " " w)) with (js_trim w).
  assert (Hkt : js_trim (String.append sp k) = k).
  { destruct Hsp as [-> | ->]; cbn [String.append]; [|rewrite js_trim_sp_l]; apply js_trim_word, Hk. }
  rewrite Hkt. destruct (String.eqb_spec k "") as [->|_]; [congruence|].
  destruct (String.eqb k "limit" || String.eqb k "skip"); reflexivity.
Qed.

Lemma loop_plain s t cur args :
  all_chars (fun c => negb (is_quote c) && negb (Ascii.eqb c ",")) s = true ->
  parse_args_loop (String.append s t) cur false None args
  = parse_args_loop t (String.append cur s) false None args.
Proof.
  revert cur. induction s as [|c s IH]; intros cur H.
  - simpl. rewrite str_app_nil_r. reflexivity.
  - simpl in H. apply andb_true_iff in H as [H1 H2]. apply andb_true_iff in H1 as [Hq Hc].
    apply negb_true_iff in Hq. apply negb_true_iff in Hc.
    cbn [String.append parse_args_loop]. rewrite Hq, Hc. simpl negb. rewrite !andb_false_r.
    rewrite IH by exact H2. rewrite str_app_assoc. reflexivity.
Qed.

Lemma loop_quoted q s t cur args :
  no_char q s = true ->
  parse_args_loop (String.append s t) cur true (Some q) args
  = parse_args_loop t (String.append cur s) true (Some q) args.
Proof.
  revert cur. induction s as [|c s IH]; intros cur H.
  - simpl. rewrite str_app_nil_r. reflexivity.
  - simpl in H. apply andb_true_iff in H as [H1 H2]. apply negb_true_iff in H1.
    cbn [String.append parse_args_loop]. rewrite H1. simpl negb. rewrite !andb_false_r.
    rewrite IH by exact H2. rewrite str_app_assoc. reflexivity.
Qed.

Lemma strip_quotes_plain v : all_chars (fun c => negb (is_quote c)) v = true -> strip_quotes v = v.
Proof.
  intros H. unfold strip_quotes. destruct v as [|c r]; [reflexivity|].
  pose proof H as H0. simpl in H0. apply andb_true_iff in H0 as [Hc _].
  apply negb_true_iff in Hc. rewrite Hc.
  rewrite <- (all_chars_rev _ (String c r)) in H.
  destruct (rev_string (String c r)) as [|c' r'] eqn:E.
  - rewrite <- (rev_string_involutive (String c r)), E. reflexivity.
  - simpl in H. apply andb_true_iff in H as [Hc' _]. apply negb_true_iff in Hc'.
    rewrite Hc', <- E. apply rev_string_involutive.
Qed.

Lemma js_trim_ends c x d : is_ws c = false -> is_ws d = false ->
  js_trim (String c (String.append x (String d EmptyString)))
  = String c (String.append x (String d EmptyString)).
Proof.
  intros Hc Hd. unfold js_trim. cbn [trim_left]. rewrite Hc.
  assert (E : trim_left (rev_string (String c (String.append x (String d EmptyString))))
              = rev_string (String c (String.append x (String d EmptyString)))).
  { change (String c (String.append x (String d EmptyString)))
      with (String.append (String c EmptyString) (String.append x (String d EmptyString))).
    rewrite !rev_string_app. cbn [rev_string String.append trim_left]. rewrite Hd. reflexivity. }
  rewrite E. apply rev_string_involutive.
Qed.

Lemma strip_quotes_dq v : strip_quotes (String dq (String.append v dqs)) = v.
Proof.
  assert (Q : is_quote dq = true) by reflexivity.
  unfold strip_quotes. cbv beta iota zeta. rewrite Q.
  unfold dqs. rewrite rev_string_app. cbn [rev_string String.append]. rewrite Q.
  apply rev_string_involutive.
Qed.

Lemma plain_char_noq c : plain_value_char c = true -> negb (is_quote c) && negb (Ascii.eqb c ",") = true.
Proof. unfold plain_value_char. intros H. apply andb_true_iff in H as [H _]. exact H. Qed.

Lemma plain_arg_facts k v : plain_arg (k, v) = true ->
  all_chars is_word k = true /\ k <> EmptyString /\ all_chars plain_value_char v = true /\ js_trim v = v.
Proof.
  unfold plain_arg. cbn [fst snd]. intros H.
  apply andb_true_iff in H as [H Ht]. apply andb_true_iff in H as [H Hv].
  apply andb_true_iff in H as [Hk Hne].
  repeat split; auto.
  - destruct (String.eqb_spec k ""); [discriminate|assumption].
  - apply String.eqb_eq, Ht.
Qed.

Lemma arg_chars k v : all_chars is_word k = true -> all_chars plain_value_char v = true ->
  all_chars (fun c => negb (is_quote c) && negb (Ascii.eqb c ","))
    (String.append k (String.append ": " v)) = true.
Proof.
  intros Hk Hv. rewrite !all_chars_app. rewrite (all_chars_impl _ _ v plain_char_noq Hv).
  rewrite (all_chars_impl is_word _ k); [reflexivity| |exact Hk].
  intros c Hc. apply plain_char_noq, (word_plain c Hc).
Qed.

Lemma add_arg_plain sp k v args : sp = "" \/ sp = " " -> plain_arg (k, v) = true ->
  add_arg (String.append sp (String.append k (String.append ": " v))) args
  = Ok (assoc_set k (arg_value k v) args).
Proof.
  intros Hsp H. destruct (plain_arg_facts k v H) as (Hk & Hne & Hv & Ht).
  rewrite <- (str_app_nil_r v) at 1. rewrite add_arg_kv; auto.
  - rewrite Ht. unfold arg_value. destruct (String.eqb k "limit" || String.eqb k "skip"); [reflexivity|].
    rewrite strip_quotes_plain; [reflexivity|].
    apply (all_chars_impl plain_value_char); [|exact Hv].
    intros c Hc. unfold plain_value_char in Hc. now apply andb_true_iff in Hc as [[Hc _]%andb_true_iff _].
  - apply (all_chars_impl plain_value_char); [|exact Hv].
    intros c Hc. unfold plain_value_char in Hc. now apply andb_true_iff in Hc as [_ Hc].
Qed.

Lemma loop_comma t cur args :
  parse_args_loop (String "," t) cur false None args
  = match add_arg cur args with
    | Ok a => parse_args_loop t "" false None a
    | Throw e => Throw e
    | NoFuel => NoFuel
    end.
Proof. reflexivity. Qed.

Lemma loop_space t cur args :
  parse_args_loop (String " " t) cur false None args
  = parse_args_loop t (String.append cur " ") false None args.
Proof. reflexivity. Qed.

Lemma args_text_cons kv kv2 r :
  args_text (kv :: kv2 :: r)
  = String.append (String.append (fst kv) (String.append ": " (snd kv)))
      (String.append ", " (args_text (kv2 :: r))).
Proof. reflexivity. Qed.

Lemma loop_args kvs : forall args sp, sp = "" \/ sp = " " ->
  forallb plain_arg kvs = true -> kvs <> [] ->
  parse_args_loop (args_text kvs) sp false None args
  = Ok (fold_left (fun a kv => assoc_set (fst kv) (arg_value (fst kv) (snd kv)) a) kvs args).
Proof.
  induction kvs as [|[k v] rest IH]; intros args sp Hsp H Hne; [congruence|].
  cbn [forallb] in H. apply andb_true_iff in H as [Hkv Hrest].
  destruct (plain_arg_facts k v Hkv) as (Hk & Hkne & Hv & _).
  destruct rest as [|kv2 rest'].
  - change (args_text [(k, v)]) with (String.append k (String.append ": " v)).
    rewrite <- (str_app_nil_r (String.append k (String.append ": " v))).
    rewrite loop_plain by (apply arg_chars; assumption).
    cbn [parse_args_loop].
    destruct k as [|c k']; [congruence|].
    replace (String.eqb (String.append sp (String.append (String c k') (String.append ": " v))) "") with false
      by (destruct Hsp as [-> | ->]; reflexivity).
    rewrite add_arg_plain by assumption. reflexivity.
  - rewrite args_text_cons. cbn [fst snd].
    rewrite loop_plain by (apply arg_chars; assumption).
    change (String.append ", " ?x) with (String "," (String " " x)).
    rewrite loop_comma, add_arg_plain by assumption. rewrite loop_space.
    apply IH; [right; reflexivity|exact Hrest|discriminate].
Qed.

(** X13.  [parseArgs("k1: v1, k2: v2, ...")], for word keys and trimmed values
    without quotes, commas or colons, assigns the pairs in order: [limit] and
    [skip] get [parseInt(v, 10)], every other key the string [v]; a repeated
    key keeps its first position and its last value. *)
Theorem parseArgs_plain_list (kvs : list (string * string)) :
  forallb plain_arg kvs = true ->
  parseArgs (args_text kvs)
  = Ok (fold_left (fun a kv => assoc_set (fst kv) (arg_value (fst kv) (snd kv)) a) kvs []).
Proof.
  intros H. destruct kvs as [|kv r]; [reflexivity|].
  apply loop_args; [left; reflexivity|exact H|discriminate].
Qed.

Lemma loop_open c t cur args : is_quote c = true ->
  parse_args_loop (String c t) cur false None args
  = parse_args_loop t (String.append cur (String c EmptyString)) true (Some c) args.
Proof. intros H. cbn [parse_args_loop]. rewrite H. reflexivity. Qed.

Lemma loop_close q t cur args :
  parse_args_loop (String q t) cur true (Some q) args
  = parse_args_loop t (String.append cur (String q EmptyString)) false (Some q) args.
Proof. cbn [parse_args_loop]. rewrite andb_false_r, Ascii.eqb_refl. reflexivity. Qed.

Lemma eqb_app_nonempty (k t : string) : k <> EmptyString -> String.eqb (String.append k t) "" = false.
Proof. destruct k; [congruence|reflexivity]. Qed.

(** X14.  A double-quoted value [k: "v"] (no double quote or colon inside [v])
    keeps its commas and loses its quotes; for [limit] and [skip] it is
    [parseInt] of the quoted text, that is NaN. *)
Theorem parseArgs_quoted_value (k v : string) :
  all_chars is_word k = true -> k <> EmptyString ->
  no_char dq v = true -> no_char ":" v = true ->
  parseArgs (String.append k (String.append ": " (String.append dqs (String.append v dqs))))
  = Ok [(k, if String.eqb k "limit" || String.eqb k "skip" then ANum None else AStr v)].
Proof.
  intros Hk Hne Hq Hc. unfold parseArgs.
  rewrite <- str_app_assoc, loop_plain.
  2:{ rewrite all_chars_app, (all_chars_impl is_word _ k); [reflexivity| |exact Hk].
      intros c Hc'. apply plain_char_noq, (word_plain c Hc'). }
  unfold dqs at 1. cbn [String.append]. rewrite loop_open by reflexivity.
  rewrite loop_quoted by exact Hq. unfold dqs. rewrite loop_close. cbn [parse_args_loop].
  rewrite !str_app_assoc, eqb_app_nonempty by exact Hne.
  rewrite <- (str_app_nil_r (String.append (String dq EmptyString) (String.append v (String dq EmptyString)))).
  change (String.append k (String.append ": " (String.append (String.append (String dq EmptyString)
            (String.append v (String dq EmptyString))) "")))
    with (String.append "" (String.append k (String.append ": " (String.append (String.append (String dq EmptyString)
            (String.append v (String dq EmptyString))) "")))).
  rewrite add_arg_kv; auto.
  - cbn [String.append]. rewrite js_trim_ends by reflexivity.
    destruct (String.eqb k "limit" || String.eqb k "skip"); [reflexivity|].
    rewrite strip_quotes_dq. reflexivity.
  - rewrite no_char_app. apply andb_true_iff. split; [reflexivity|].
    rewrite no_char_app, Hc. reflexivity.
Qed.

(** X15.  A value is cut at its first colon: [parseArgs("k: v1:v2")] gives [k]
    the value [v1] (a number for [limit] and [skip]); the text after the
    colon is dropped. *)
Theorem parseArgs_value_colon (k v1 v2 : string) :
  plain_arg (k, v1) = true ->
  all_chars (fun c => negb (is_quote c) && negb (Ascii.eqb c ",")) v2 = true ->
  parseArgs (String.append k (String.append ": " (String.append v1 (String.append ":" v2))))
  = Ok [(k, arg_value k v1)].
Proof.
  intros H Hv2. destruct (plain_arg_facts k v1 H) as (Hk & Hne & Hv & Ht). unfold parseArgs.
  rewrite <- (str_app_nil_r (String.append k _)), loop_plain.
  2:{ rewrite !all_chars_app, Hv2, (all_chars_impl _ _ v1 plain_char_noq Hv).
      rewrite (all_chars_impl is_word _ k); [reflexivity| |exact Hk].
      intros c Hc'. apply plain_char_noq, (word_plain c Hc'). }
  cbn [parse_args_loop]. change (String.append "" ?x) with x.
  rewrite (eqb_app_nonempty k) by exact Hne.
  change (String.append k (String.append ": " (String.append v1 (String.append ":" v2))))
    with (String.append "" (String.append k (String.append ": " (String.append v1 (String ":" v2))))).
  rewrite add_arg_kv; eauto.
  - rewrite Ht. unfold arg_value. destruct (String.eqb k "limit" || String.eqb k "skip"); [reflexivity|].
    rewrite strip_quotes_plain; [reflexivity|].
    apply (all_chars_impl plain_value_char); [|exact Hv].
    intros c Hc. unfold plain_value_char in Hc. now apply andb_true_iff in Hc as [[Hc _]%andb_true_iff _].
  - apply (all_chars_impl plain_value_char); [|exact Hv].
    intros c Hc. unfold plain_value_char in Hc. now apply andb_true_iff in Hc as [_ Hc].
Qed.

(** ** [getByPath], [autoResolve], [mergeDeep] and [shape] *)

Lemma path_fold_nullish h ks : forall a, nullish a = true ->
  nullish (fold_left (fun acc key => if nullish acc then VUndef else get_own h acc key) ks a) = true.
Proof.
  induction ks as [|k ks IH]; intros a Ha; simpl; [exact Ha|].
  rewrite Ha. apply IH. reflexivity.
Qed.

(** X16.  [getByPath] composes over the dot: looking up [p1.p2] is looking up [p2]
    on the result of looking up [p1] (a [null] or [undefined] met on the
    way gives [null] in both). *)
Theorem getByPath_compose h o p1 p2 :
  getByPath h o (String.append p1 (String "." p2)) = getByPath h (getByPath h o p1) p2.
Proof.
  unfold getByPath. rewrite !js_split_1, split1_app, fold_left_app.
  set (F := fun acc key => if nullish acc then VUndef else get_own h acc key).
  unfold coalesce at 2 3. destruct (nullish (fold_left F (split1 "." p1 "") o)) eqn:E.
  - unfold coalesce. rewrite (path_fold_nullish h _ VNull) by reflexivity.
    rewrite (path_fold_nullish h _ _ E). reflexivity.
  - reflexivity.
Qed.

Lemma autoResolve_keys_not_undef (rec : val -> res val) h o ks v :
  (forall x y, rec x = Ok y -> y <> VUndef) ->
  autoResolve_keys rec h o ks = Ok v -> v <> VUndef.
Proof.
  intros Hrec. induction ks as [|k ks IH]; simpl; intros E.
  - inversion E. discriminate.
  - destruct (is_object (get_own h o k)); [|exact (IH E)].
    destruct (rec (get_own h o k)) as [y| |] eqn:Ey; try discriminate.
    destruct (is_null y); [exact (IH E)|]. inversion E; subst. exact (Hrec _ _ Ey).
Qed.

(** X17.  [autoResolve] never returns [undefined]: a direct hit is returned only
    when it is not [undefined], and a miss gives [null]. *)
Theorem autoResolve_never_undefined f h o key v :
  autoResolve f h o key = Ok v -> v <> VUndef.
Proof.
  revert o v. induction f as [|f IH]; intros o v E; simpl in E; [discriminate|].
  destruct (nullish o); [inversion E; discriminate|].
  destruct (is_undef (get_own h o key)) eqn:U; simpl in E.
  - eapply autoResolve_keys_not_undef; [|exact E]. intros x y Ey. exact (IH x y Ey).
  - injection E as <-. intros Hu. rewrite Hu in U. discriminate.
Qed.

(** X18.  Merging a fragment result into [shape]'s result throws a [TypeError]
    when the result already holds a truthy primitive under a key [k] and the
    fragment result's first key is [k] holding a plain object whose first
    key holds a primitive: [mergeDeep] assigns a property of a primitive. *)
Theorem merge_into_result_primitive_conflict f result h ls lo k sps k2 v2 ops tv :
  hstore h ls = OObj ((k, VRef lo) :: sps) -> k <> "__fragments" ->
  hstore h lo = OObj ((k2, v2) :: ops) -> k2 <> "__fragments" -> is_object v2 = false ->
  assoc k result = Some tv -> truthy tv = true -> is_object tv = false ->
  merge_into_result (S (S f)) result (VRef ls) h = Throw TypeErrorPrimitive.
Proof.
  intros Hs Hk Ho Hk2 Hv2 Ht Htv Hto.
  unfold merge_into_result, bind, get_heap. cbv beta iota.
  cbn [own_keys]. rewrite Hs. cbn [map fst merge_result_keys].
  apply String.eqb_neq in Hk. rewrite Hk.
  unfold bind, get_heap, lift, get_prop. cbv beta iota. cbn [nullish get_own]. rewrite Hs.
  cbn [assoc]. rewrite String.eqb_refl. cbn [truthy is_object is_array]. rewrite Ho. cbn [andb negb].
  rewrite Ht, Htv. unfold ret. cbv beta iota.
  cbn [mergeDeep]. unfold bind, get_heap. cbv beta iota. cbn [own_keys]. rewrite Ho. cbn [map fst mergeDeep_keys].
  apply String.eqb_neq in Hk2. rewrite Hk2.
  unfold bind, get_heap, lift, get_prop. cbv beta iota. cbn [nullish get_own]. rewrite Ho.
  cbn [assoc]. rewrite String.eqb_refl. rewrite Hv2, andb_false_r. cbv iota.
  rewrite Ht. unfold assign. cbv beta.
  destruct tv; simpl in Htv, Hto; try discriminate; reflexivity.
Qed.

Lemma assoc_In {A} k (ps : list (string * A)) x : assoc k ps = Some x -> In (k, x) ps.
Proof.
  induction ps as [|[k' v] ps IH]; simpl; [discriminate|].
  destruct (String.eqb_spec k k') as [->|_]; [injection 1 as <-; left; reflexivity|].
  intros H. right. exact (IH H).
Qed.


Lemma mergeDeep_keys_prims (rec : val -> val -> M val) h lt ls ks : lt <> ls ->
  (forall k, In k ks -> is_object (get_own h (VRef ls) k) = false) ->
  forall h1 ps, hstore h1 lt = OObj ps -> (forall l, l <> lt -> hstore h1 l = hstore h l) ->
  hnext h1 = hnext h ->
  exists h2, mergeDeep_keys rec (VRef lt) (VRef ls) ks h1 = Ok (h2, tt)
    /\ hstore h2 lt = OObj (merge_prims h (VRef ls) ks ps)
    /\ (forall l, l <> lt -> hstore h2 l = hstore h l) /\ hnext h2 = hnext h.
Proof.
  intros Hne Hks. induction ks as [|k ks IH]; intros h1 ps Hlt Hoth Hnx.
  - exists h1. simpl. auto.
  - assert (IH' := IH (fun k' Hk' => Hks k' (or_intror Hk'))).
    cbn [mergeDeep_keys]. unfold merge_prims. cbn [fold_left].
    destruct (String.eqb k "__fragments"); [apply IH'; assumption|].
    assert (Eg : get_own h1 (VRef ls) k = get_own h (VRef ls) k)
      by (simpl; rewrite (Hoth ls (not_eq_sym Hne)); reflexivity).
    unfold bind, get_heap, lift, get_prop. cbv beta iota. cbn [nullish]. rewrite Eg.
    rewrite (Hks k (or_introl eq_refl)), andb_false_r. cbv iota.
    cbn [andb]. unfold assign. cbv beta iota. cbn [set_prop]. rewrite Hlt. cbv iota.
    apply IH'.
    + simpl. rewrite Nat.eqb_refl. reflexivity.
    + intros l Hl. simpl. apply Nat.eqb_neq in Hl. rewrite Hl. apply Hoth. apply Nat.eqb_neq, Hl.
    + exact Hnx.
Qed.

(** X19.  [mergeDeep] of a plain object whose values are all primitives into
    another plain object assigns [target[k] = source[k]] for each key [k]
    of the source in order, [__fragments] skipped; it returns the target,
    allocates nothing and changes no other object. *)
Theorem mergeDeep_copies_primitives f h lt ls tps sps :
  lt <> ls -> hstore h lt = OObj tps -> hstore h ls = OObj sps ->
  forallb (fun kv => negb (is_object (snd kv))) sps = true ->
  exists h', mergeDeep (S f) (VRef lt) (VRef ls) h = Ok (h', VRef lt)
    /\ hstore h' lt = OObj (merge_prims h (VRef ls) (map fst sps) tps)
    /\ (forall l, l <> lt -> hstore h' l = hstore h l) /\ hnext h' = hnext h.
Proof.
  intros Hne Ht Hs Hp.
  assert (Hks : forall k, In k (map fst sps) -> is_object (get_own h (VRef ls) k) = false).
  { intros k _. simpl. rewrite Hs. destruct (assoc k sps) as [x|] eqn:E; [|reflexivity].
    apply assoc_In in E. rewrite forallb_forall in Hp. specialize (Hp _ E). simpl in Hp.
    destruct (is_object x); [discriminate|reflexivity]. }
  destruct (mergeDeep_keys_prims (mergeDeep f) h lt ls (map fst sps) Hne Hks h tps Ht
              (fun _ _ => eq_refl) eq_refl) as (h2 & E & H1 & H2 & H3).
  exists h2. cbn [mergeDeep]. unfold bind, get_heap. cbv beta iota.
  cbn [own_keys]. rewrite Hs. rewrite E. unfold ret. auto.
Qed.


(** X20.  For a directive with [skipIf], a truthy value of the expression stores
    [null]; a falsy value, or an exception, gives what the directive without
    [skipIf] gives (in the heap left by the evaluation). *)
Theorem directive_skipIf_guard ev df (rec : rec_t) key d st root h e h' r :
  set_str (skipIf d) = Some e ->
  ev h [FWith root; FWith st; FParams [("data", st); ("root", root)]] e = (h', r) ->
  shape_directive ev df rec key d st root h
  = if match r with Some v => truthy v | None => false end then Ok (h', VNull)
    else shape_directive ev df rec key (drop_skipIf d) st root h'.
Proof.
  intros Hs He. unfold shape_directive at 1. rewrite Hs.
  unfold bind, evalNestedField, ret. cbv beta. rewrite He. cbv iota.
  destruct r as [v|]; [destruct (truthy v)|]; reflexivity.
Qed.

(** X21.  For a directive with [includeIf] and no [skipIf], a falsy value of the
    expression, or an exception, stores [null]; a truthy value gives what
    the directive without [includeIf] gives. *)
Theorem directive_includeIf_guard ev df (rec : rec_t) key d st root h e h' r :
  set_str (skipIf d) = None -> set_str (includeIf d) = Some e ->
  ev h [FWith root; FWith st; FParams [("data", st); ("root", root)]] e = (h', r) ->
  shape_directive ev df rec key d st root h
  = if match r with Some v => truthy v | None => false end
    then shape_directive ev df rec key (drop_includeIf d) st root h'
    else Ok (h', VNull).
Proof.
  intros Hs Hi He. unfold shape_directive at 1. rewrite Hs, Hi.
  unfold bind, evalNestedField, ret. cbv beta. rewrite He. cbv iota.
  assert (Hd : set_str (skipIf (drop_includeIf d)) = None) by exact Hs.
  destruct r as [v|]; [destruct (truthy v)|]; try reflexivity.
  unfold shape_directive. rewrite Hd. reflexivity.
Qed.

Lemma js_slice_neg_start (its : list val) (a : Z) :
  (0 < a)%Z -> js_slice its (- a)%Z None = skipn (length its - Z.to_nat a) its.
Proof.
  intros Ha. unfold js_slice, slice_bound.
  destruct (Z.ltb_spec (- a) 0) as [H|H]; [|lia].
  rewrite firstn_all2 by (rewrite length_skipn; lia).
  f_equal. lia.
Qed.

Lemma js_slice_neg_end (its : list val) (b : Z) :
  (0 < b)%Z -> js_slice its 0%Z (Some (- b)%Z) = firstn (length its - Z.to_nat b) its.
Proof.
  intros Hb. unfold js_slice, slice_bound. simpl.
  destruct (Z.ltb_spec (- b) 0) as [H|H]; [|lia].
  rewrite Z.min_l by lia. simpl. rewrite Nat.sub_0_r. f_equal. lia.
Qed.

(** X22.  A negative [limit: -b] (no filter, no skip) keeps all but the last [b]
    items of the array, as [slice(0, -b)] does. *)
Theorem array_pipeline_negative_limit ev (d : directive query) root value h b :
  set_str (filter d) = None -> skip d = None -> limit d = Some (- b)%Z -> (0 < b)%Z ->
  match array_pipeline ev d root value h with
  | Ok (h', v) =>
      array_items h' v
      = firstn (length (array_items h value) - Z.to_nat b) (array_items h value)
  | _ => False
  end.
Proof.
  intros Hf Hs Hl Hb.
  unfold array_pipeline. rewrite Hf, Hs, Hl.
  unfold bind, get_heap, fresh, ret. cbv beta iota.
  cbn -[js_slice]. rewrite !Nat.eqb_refl. apply js_slice_neg_end, Hb.
Qed.

(** X23.  A negative [skip: -a] (no filter, no limit) keeps the last [a] items of
    the array, as [slice(-a)] does. *)
Theorem array_pipeline_negative_skip ev (d : directive query) root value h a :
  set_str (filter d) = None -> skip d = Some (- a)%Z -> limit d = None -> (0 < a)%Z ->
  match array_pipeline ev d root value h with
  | Ok (h', v) =>
      array_items h' v = skipn (length (array_items h value) - Z.to_nat a) (array_items h value)
  | _ => False
  end.
Proof.
  intros Hf Hs Hl Ha.
  unfold array_pipeline. rewrite Hf, Hs, Hl.
  unfold bind, get_heap, fresh, ret. cbv beta iota.
  cbn -[js_slice]. rewrite !Nat.eqb_refl. apply js_slice_neg_start, Ha.
Qed.

Lemma shape_frags_unregistered df (rec : rec_t) data reg ck names result :
  forallb (fun n => match assoc n reg with Some _ => false | None => true end) names = true ->
  shape_frags df rec data reg ck names result = ret result.
Proof.
  induction names as [|n ns IH]; simpl; [reflexivity|].
  destruct (assoc n reg); [discriminate|]. exact IH.
Qed.

(** X24.  Spreads of names that the fragment registry does not hold are ignored:
    [shape] gives the same result (and heap) as for the query without
    spreads. *)
Theorem shape_unknown_fragments_ignored ev df qf data fs names reg rd ck :
  forallb (fun n => match assoc n reg with Some _ => false | None => true end) names = true ->
  shape ev df (S qf) data (Query fs (Some names)) (Some reg) rd ck
  = shape ev df (S qf) data (Query fs None) (Some reg) rd ck.
Proof.
  intros H. cbn [shape q_frags q_fields]. rewrite shape_frags_unregistered by exact H. reflexivity.
Qed.

(** ** Witnesses of the properties above *)

Lemma parseQuery_plain_lines_witness :
  parseQuery (String.concat nl ["name"; "age"]) VUndef =
  Ok (fold_left (fun ps l => assoc_set l (PStr l) ps) ["name"; "age"] []).
Proof. apply (parseQuery_plain_lines ["name"; "age"] VUndef). vm_compute. reflexivity. Defined.

Lemma parseQuery_comment_line_witness :
  parseQuery (String.append "name" (String.append nl (String.append "# note" (String.append nl "age")))) VUndef =
  parseQuery (String.append "name" (String.append nl "age")) VUndef.
Proof.
  apply (parseQuery_comment_line "name" "# note" "age" VUndef).
  - vm_compute. reflexivity.
  - right. vm_compute. reflexivity.
Defined.

Lemma parseQuery_trailing_comma_witness :
  parseQuery (String.append "id" (String.append nl (String.append (String.append "name" ",")
                (String.append nl "age")))) VUndef =
  parseQuery (String.append "id" (String.append nl (String.append "name" (String.append nl "age")))) VUndef.
Proof.
  apply (parseQuery_trailing_comma "id" "name" "age" VUndef).
  - vm_compute. reflexivity.
  - discriminate.
  - vm_compute. reflexivity.
  - vm_compute. reflexivity.
Defined.

Lemma parseQuery_stray_brace_witness :
  parseQuery (String.append "name" (String.append nl (String.append "}" (String.append nl "age")))) VUndef =
  parseQuery (String.append "name" (String.append nl "age")) VUndef.
Proof.
  apply (parseQuery_stray_brace "name" "age" VUndef [("name", PStr "name")]).
  vm_compute. reflexivity.
Defined.

Lemma parseQuery_block_witness :
  parseQuery (String.concat nl (String.append "user" " {" :: ["name"; "email"] ++ ["}"])) VUndef =
  Ok [("user", PObj [("nested", PObj (fold_left (fun ps l => assoc_set l (PStr l) ps)
                                         ["name"; "email"] []))])].
Proof.
  apply (parseQuery_block "user" ["name"; "email"] VUndef).
  - vm_compute. reflexivity.
  - discriminate.
  - vm_compute. reflexivity.
Defined.

Lemma parseQuery_fragment_spreads_witness :
  parseQuery (String.concat nl (map (String.append "...") ["userFields"; "meta"])) VUndef =
  Ok [("__fragments", PArr ["userFields"; "meta"])].
Proof.
  apply (parseQuery_fragment_spreads ["userFields"; "meta"] VUndef).
  - discriminate.
  - vm_compute. reflexivity.
Defined.

Lemma parseQuery_fragments_after_field_witness :
  parseQuery (String.concat nl (["__fragments"] ++ [String.append "..." "f"])) VUndef
  = Throw TypeErrorNotFunction.
Proof.
  apply (parseQuery_fragments_after_field ["__fragments"] "f" VUndef).
  - vm_compute. reflexivity.
  - left. reflexivity.
  - vm_compute. reflexivity.
  - discriminate.
Defined.

Lemma parseQuery_alias_line_witness :
  parseQuery (String.append "mail" (String.append ": " "profile.email")) VUndef =
  Ok [("mail", if has_dot_or_bracket "profile.email" then PFunTop "profile.email" VUndef
               else PObj [("path", PStr "profile.email")])].
Proof.
  apply (parseQuery_alias_line "mail" "profile.email" VUndef);
    (discriminate || (vm_compute; reflexivity)).
Defined.

Lemma parseQuery_block_args_witness :
  parseQuery (String.concat nl
    (String.append "posts" (String.append "(" (String.append "limit: 2" ") {")) :: ["title"] ++ ["}"]))
    VUndef =
  res_map (fun a => [("posts", PObj (assign_args a
              [("nested", PObj (fold_left (fun ps l => assoc_set l (PStr l) ps) ["title"] []))]))])
    (parseArgs (js_trim "limit: 2")).
Proof.
  apply (parseQuery_block_args "posts" "limit: 2" ["title"] VUndef);
    (discriminate || (vm_compute; reflexivity)).
Defined.

Lemma parseQuery_inline_skip_witness :
  parseQuery (skip_line "email" "hidden" EmptyString) VUndef
  = Ok [("email", PObj [("skipIf", PStr "hidden")])].
Proof.
  apply (parseQuery_inline_skip "email" "hidden" VUndef); (discriminate || (vm_compute; reflexivity)).
Defined.

Lemma parseQuery_skip_header_not_block_witness :
  parseQuery (String.concat nl (skip_line "user" "hidden" " {" :: ["name"] ++ ["}"])) VUndef =
  Ok (fold_left (fun ps l => assoc_set l (PStr l) ps) ["name"]
        [("user", PObj [("skipIf", PStr "hidden")])]).
Proof.
  apply (parseQuery_skip_header_not_block "user" "hidden" ["name"] VUndef);
    (discriminate || (vm_compute; reflexivity)).
Defined.

Lemma parseArgs_plain_list_witness :
  parseArgs (args_text [("limit", "5"); ("filter", "active")])
  = Ok (fold_left (fun a kv => assoc_set (fst kv) (arg_value (fst kv) (snd kv)) a)
          [("limit", "5"); ("filter", "active")] []).
Proof. apply parseArgs_plain_list. vm_compute. reflexivity. Defined.

Lemma parseArgs_quoted_value_witness :
  parseArgs (String.append "sort" (String.append ": " (String.append dqs (String.append "a, b" dqs))))
  = Ok [("sort", if String.eqb "sort" "limit" || String.eqb "sort" "skip" then ANum None
                 else AStr "a, b")].
Proof.
  apply (parseArgs_quoted_value "sort" "a, b"); (discriminate || (vm_compute; reflexivity)).
Defined.

Lemma parseArgs_value_colon_witness :
  parseArgs (String.append "url" (String.append ": " (String.append "http" (String.append ":" "//x"))))
  = Ok [("url", arg_value "url" "http")].
Proof. apply (parseArgs_value_colon "url" "http" "//x"); vm_compute; reflexivity. Defined.

Lemma autoResolve_never_undefined_witness : VStr "x@y.com" <> VUndef.
Proof. apply (autoResolve_never_undefined 5 h_email (VRef 0) "email"). vm_compute. reflexivity. Defined.

Lemma merge_into_result_primitive_conflict_witness :
  merge_into_result 2 [("a", VStr "x")] (VRef 0)
    (heap_of [OObj [("a", VRef 1)]; OObj [("b", VNum 1)]]) = Throw TypeErrorPrimitive.
Proof.
  apply (merge_into_result_primitive_conflict 0 [("a", VStr "x")]
           (heap_of [OObj [("a", VRef 1)]; OObj [("b", VNum 1)]]) 0 1 "a" [] "b" (VNum 1) [] (VStr "x"));
    (discriminate || reflexivity).
Defined.

Lemma mergeDeep_copies_primitives_witness :
  exists h', mergeDeep 1 (VRef 0) (VRef 1)
      (heap_of [OObj [("a", VNum 1)]; OObj [("b", VNum 2); ("a", VNum 3)]]) = Ok (h', VRef 0)
    /\ hstore h' 0 = OObj (merge_prims (heap_of [OObj [("a", VNum 1)]; OObj [("b", VNum 2); ("a", VNum 3)]])
                             (VRef 1) (map fst [("b", VNum 2); ("a", VNum 3)]) [("a", VNum 1)])
    /\ (forall l, l <> 0 -> hstore h' l
          = hstore (heap_of [OObj [("a", VNum 1)]; OObj [("b", VNum 2); ("a", VNum 3)]]) l)
    /\ hnext h' = hnext (heap_of [OObj [("a", VNum 1)]; OObj [("b", VNum 2); ("a", VNum 3)]]).
Proof.
  apply (mergeDeep_copies_primitives 0 _ 0 1 [("a", VNum 1)] [("b", VNum 2); ("a", VNum 3)]);
    (discriminate || reflexivity).
Defined.

Lemma directive_skipIf_guard_witness :
  shape_directive js_eval_paths 5 (fun _ _ _ => ret VNull) "email"
    (mkDirective None (Some "hide") None None None VUndef None None None) (VRef 0) (VRef 0)
    (heap_of [OObj [("hide", VBool true)]])
  = if match Some (VBool true) with Some v => truthy v | None => false end
    then Ok (heap_of [OObj [("hide", VBool true)]], VNull)
    else shape_directive js_eval_paths 5 (fun _ _ _ => ret VNull) "email"
           (drop_skipIf (mkDirective None (Some "hide") None None None VUndef None None None))
           (VRef 0) (VRef 0) (heap_of [OObj [("hide", VBool true)]]).
Proof. apply (directive_skipIf_guard js_eval_paths 5 _ "email" _ (VRef 0) (VRef 0) _ "hide"); reflexivity. Defined.

Lemma directive_includeIf_guard_witness :
  shape_directive js_eval_paths 5 (fun _ _ _ => ret VNull) "email"
    (mkDirective None None (Some "show") None None VUndef None None None) (VRef 0) (VRef 0)
    (heap_of [OObj [("show", VBool false)]])
  = if match Some (VBool false) with Some v => truthy v | None => false end
    then shape_directive js_eval_paths 5 (fun _ _ _ => ret VNull) "email"
           (drop_includeIf (mkDirective None None (Some "show") None None VUndef None None None))
           (VRef 0) (VRef 0) (heap_of [OObj [("show", VBool false)]])
    else Ok (heap_of [OObj [("show", VBool false)]], VNull).
Proof. apply (directive_includeIf_guard js_eval_paths 5 _ "email" _ (VRef 0) (VRef 0) _ "show"); reflexivity. Defined.

Lemma array_pipeline_negative_limit_witness :
  match array_pipeline js_eval_paths (mkDirective None None None None None VUndef None (Some (-1)%Z) None)
          (VRef 0) (VRef 0) (heap_of [OArr [VNum 1; VNum 2; VNum 3] []]) with
  | Ok (h', v) =>
      array_items h' v
      = firstn (length (array_items (heap_of [OArr [VNum 1; VNum 2; VNum 3] []]) (VRef 0)) - Z.to_nat 1)
          (array_items (heap_of [OArr [VNum 1; VNum 2; VNum 3] []]) (VRef 0))
  | _ => False
  end.
Proof. apply array_pipeline_negative_limit; (reflexivity || lia). Defined.

Lemma array_pipeline_negative_skip_witness :
  match array_pipeline js_eval_paths (mkDirective None None None None None VUndef None None (Some (-2)%Z))
          (VRef 0) (VRef 0) (heap_of [OArr [VNum 1; VNum 2; VNum 3] []]) with
  | Ok (h', v) =>
      array_items h' v
      = skipn (length (array_items (heap_of [OArr [VNum 1; VNum 2; VNum 3] []]) (VRef 0)) - Z.to_nat 2)
          (array_items (heap_of [OArr [VNum 1; VNum 2; VNum 3] []]) (VRef 0))
  | _ => False
  end.
Proof. apply array_pipeline_negative_skip; (reflexivity || lia). Defined.

Lemma shape_unknown_fragments_ignored_witness :
  shape js_eval_paths 5 5 (VRef 0) (Query [("a", FLit VNull)] (Some ["missing"]))
    (Some [("known", Query [] None)]) VUndef None
  = shape js_eval_paths 5 5 (VRef 0) (Query [("a", FLit VNull)] None)
    (Some [("known", Query [] None)]) VUndef None.
Proof. apply shape_unknown_fragments_ignored. reflexivity. Defined.
